(** * Compaction and checkpoint: a shallow embedding of compaction.go and
    checkpoint.go, with the properties of the compaction engine that the
    specification states about them.

    Conventions of the embedding.
    - A Go [[]byte] is [Bytes := option string]: [None] is the nil slice,
      [Some s] a slice holding the bytes of [s].  The user comparer takes
      two such slices and returns an integer, as [base.Compare] does.
    - [uint64] sequence numbers and sizes are [Z]; where the source adds
      [uint64] values the wrap-around modulo [2^64] is written out.
    - Go maps are stdpp [gmap]s and [gset]s.
    - A Go function that can panic or fail returns an [option], a sum or a
      dedicated outcome type. *)

From Stdlib Require Import ZArith List String Bool Lia Sorted.
From stdpp Require Import gmap strings list functions.

Local Open Scope Z_scope.

(** ** Byte slices and the comparer *)

Definition Bytes := option string.

Definition Compare := Bytes -> Bytes -> Z.
Definition Equal := Bytes -> Bytes -> bool.

(** [bytes.Compare], the comparison of the default comparer: a nil slice
    reads as the empty slice. *)
Definition bytesOf (b : Bytes) : string :=
  match b with Some s => s | None => EmptyString end.

Definition bytes_Compare : Compare := fun a b =>
  match String.compare (bytesOf a) (bytesOf b) with
  | Lt => -1
  | Eq => 0
  | Gt => 1
  end.

Definition bytes_Equal : Equal := fun a b =>
  String.eqb (bytesOf a) (bytesOf b).

Definition isNil (b : Bytes) : bool :=
  match b with None => true | Some _ => false end.

(** ** [sort.Search] of the Go standard library: the binary search, with
    [n] iterations of fuel (the interval halves at every step). *)

Fixpoint search_loop (fuel : nat) (f : Z -> bool) (i j : Z) : Z :=
  match fuel with
  | O => i
  | S fuel' =>
      if i <? j then
        let h := Z.shiftr (i + j) 1 in
        if negb (f h) then search_loop fuel' f (h + 1) j
        else search_loop fuel' f i h
      else i
  end.

Definition sort_Search (n : Z) (f : Z -> bool) : Z :=
  search_loop (S (Z.to_nat n)) f 0 n.

(** ** Internal keys *)

Inductive InternalKeyKind :=
| InternalKeyKindDelete
| InternalKeyKindSet
| InternalKeyKindMerge
| InternalKeyKindSingleDelete
| InternalKeyKindDeleteSized
| InternalKeyKindRangeDelete
| InternalKeyKindRangeKeyDelete
| InternalKeyKindRangeKeyUnset
| InternalKeyKindRangeKeySet.

#[global] Instance InternalKeyKind_eq_dec : EqDecision InternalKeyKind.
Proof. solve_decision. Defined.

(** The largest sequence number, [(1 << 56) - 1]: the [#inf] of the test
    files. *)
Definition InternalKeySeqNumMax : Z := 2 ^ 56 - 1.

(** An internal key: the trailer is kept as its two components. *)
Record InternalKey := {
  UserKey : Bytes;
  SeqNum : Z;
  Kind : InternalKeyKind
}.

(** Modelled from the spec: [InternalKey.IsExclusiveSentinel] is declared
    in the [base] package, outside these sources.  The bounds written
    [e#inf,RANGEDEL] in the repository's test files are exclusive: a range
    deletion or range key boundary at the maximal sequence number. *)
Definition IsExclusiveSentinel (k : InternalKey) : bool :=
  match Kind k with
  | InternalKeyKindRangeDelete
  | InternalKeyKindRangeKeyDelete
  | InternalKeyKindRangeKeyUnset
  | InternalKeyKindRangeKeySet => SeqNum k =? InternalKeySeqNumMax
  | _ => false
  end.

(** ** File metadata, levels and compactions

    [fileMetadata] holds the fields that the functions below only read.
    The two fields that a compaction mutates through the [*fileMetadata]
    pointers of its inputs ([CompactionState], [IsIntraL0Compacting]) live
    in a store keyed by file number, see [fileStore] below, so that two
    references to one file see one state. *)

Record fileMetadata := {
  FileNum : Z;
  Size : Z;
  SmallestSeqNum : Z;
  LargestSeqNum : Z;
  Smallest : InternalKey;
  Largest : InternalKey;
  HasPointKeys : bool;
  HasRangeKeys : bool;
  Virtual : bool;
  (** [FileBacking.DiskFileNum] *)
  BackingDiskFileNum : Z
}.

(** A [manifest.LevelSlice] is read through its iterator only: the list of
    its files, in iteration order. *)
Definition LevelSlice := list fileMetadata.

Definition uint64_add (a b : Z) : Z := (a + b) mod 2 ^ 64.

Definition SizeSum (s : LevelSlice) : Z :=
  fold_left (fun acc f => uint64_add acc (Size f)) s 0.

Record compactionLevel := {
  level : Z;
  files : LevelSlice
}.

Inductive compactionKind :=
| compactionKindDefault
| compactionKindFlush
| compactionKindMove
| compactionKindCopy
| compactionKindDeleteOnly
| compactionKindElisionOnly
| compactionKindRead
| compactionKindRewrite
| compactionKindIngestedFlushable.

#[global] Instance compactionKind_eq_dec : EqDecision compactionKind.
Proof. solve_decision. Defined.

Record UserKeyRange := {
  Start : Bytes;
  End_ : Bytes
}.

(** A flushable of the memtable queue; only what compaction.go reads. *)
Record flushableEntry := {
  isIngestedFlushable : bool;
  inuseBytes : Z
}.

(** The fields of [compaction] that the functions below read or write.
    [startLevel] and [outputLevel] point into [inputs]: they are kept as
    indices ([None] is the nil pointer of a delete-only compaction). *)
Record compaction := {
  kind : compactionKind;
  cancel : bool;
  inputs : list compactionLevel;
  startLevel : option nat;
  outputLevel : option nat;
  extraLevels : list compactionLevel;
  maxOutputFileSize : Z;
  maxOverlapBytes : Z;
  disableSpanElision : bool;
  flushing : list flushableEntry;
  smallest : InternalKey;
  largest : InternalKey;
  grandparents : LevelSlice;
  inuseKeyRanges : list UserKeyRange;
  inuseEntireRange : bool;
  elideTombstoneIndex : nat;
  allowedZeroSeqNum : bool
}.

Definition set_elideTombstoneIndex (c : compaction) (i : nat) : compaction :=
  {| kind := kind c; cancel := cancel c; inputs := inputs c;
     startLevel := startLevel c; outputLevel := outputLevel c;
     extraLevels := extraLevels c;
     maxOutputFileSize := maxOutputFileSize c;
     maxOverlapBytes := maxOverlapBytes c;
     disableSpanElision := disableSpanElision c;
     flushing := flushing c; smallest := smallest c; largest := largest c;
     grandparents := grandparents c;
     inuseKeyRanges := inuseKeyRanges c;
     inuseEntireRange := inuseEntireRange c;
     elideTombstoneIndex := i;
     allowedZeroSeqNum := allowedZeroSeqNum c |}.

(** ** Elision predicates (compaction.go, [elideTombstone],
    [elideRangeTombstone], [elideRangeKey], [allowZeroSeqNum]) *)

Section Elision.
Variable cmp : Compare.

(** The loop of [elideTombstone] from cursor [idx]: the result and the
    cursor left in [c.elideTombstoneIndex].  [rs] is the part of
    [c.inuseKeyRanges] from [idx] on. *)
Fixpoint elideTombstone_loop (key : Bytes) (rs : list UserKeyRange)
    (idx : nat) : bool * nat :=
  match rs with
  | [] => (true, idx)
  | r :: rs' =>
      if cmp key (End_ r) <=? 0 then
        if cmp key (Start r) >=? 0 then (false, idx)
        else (true, idx)
      else elideTombstone_loop key rs' (S idx)
  end.

Definition elideTombstone (c : compaction) (key : Bytes)
    : bool * compaction :=
  if inuseEntireRange c || negb (length (flushing c) =? 0)%nat then
    (false, c)
  else
    let '(r, idx) :=
      elideTombstone_loop key
        (drop (elideTombstoneIndex c) (inuseKeyRanges c))
        (elideTombstoneIndex c) in
    (r, set_elideTombstoneIndex c idx).

Definition rangeAt (c : compaction) (i : Z) : UserKeyRange :=
  nth (Z.to_nat i) (inuseKeyRanges c) {| Start := None; End_ := None |}.

Definition elideRangeTombstone (c : compaction) (start end_ : Bytes)
    : bool :=
  if disableSpanElision c || negb (length (flushing c) =? 0)%nat then
    false
  else
    let n := Z.of_nat (length (inuseKeyRanges c)) in
    let lower :=
      sort_Search n (fun i => cmp (End_ (rangeAt c i)) start >=? 0) in
    let upper :=
      sort_Search n (fun i => cmp (Start (rangeAt c i)) end_ >? 0) in
    lower >=? upper.

Definition elideRangeKey (c : compaction) (start end_ : Bytes) : bool :=
  elideRangeTombstone c start end_.

Definition allowZeroSeqNum (c : compaction) : bool :=
  elideRangeTombstone c (UserKey (smallest c)) (UserKey (largest c)).
End Elision.

(** ** Deletion hints (compaction.go, [deleteCompactionHint]) *)

Inductive deleteCompactionHintType :=
| deleteCompactionHintTypeUnknown
| deleteCompactionHintTypePointKeyOnly
| deleteCompactionHintTypeRangeKeyOnly
| deleteCompactionHintTypePointAndRangeKey.

#[global] Instance deleteCompactionHintType_eq_dec :
  EqDecision deleteCompactionHintType.
Proof. solve_decision. Defined.

Record deleteCompactionHint := {
  hintType : deleteCompactionHintType;
  start : Bytes;
  end_ : Bytes;
  tombstoneLevel : Z;
  (** the file number of [tombstoneFile] *)
  tombstoneFile : Z;
  tombstoneLargestSeqNum : Z;
  tombstoneSmallestSeqNum : Z;
  fileSmallestSeqNum : Z
}.

(** Modelled from the spec: [compact.Snapshots.Index] is declared in the
    [compact] package, outside these sources.  The snapshot list is
    ascending and a sequence number belongs to the stripe of the smallest
    snapshot greater than it: the index of that snapshot, or the length of
    the list when there is none. *)
Fixpoint Snapshots_Index (s : list Z) (seq : Z) : nat :=
  match s with
  | [] => O
  | x :: s' => if x >? seq then O else S (Snapshots_Index s' seq)
  end.

(** [canDelete]: [None] is the panic of the [default] branch. *)
Definition canDelete (cmp : Compare) (h : deleteCompactionHint)
    (m : fileMetadata) (snapshots : list Z) : option bool :=
  if (LargestSeqNum m >=? tombstoneSmallestSeqNum h)
     || (SmallestSeqNum m <? fileSmallestSeqNum h) then Some false
  else if negb (Snapshots_Index snapshots (tombstoneLargestSeqNum h)
                =? Snapshots_Index snapshots (SmallestSeqNum m))%nat
  then Some false
  else
    let bounds :=
      (cmp (start h) (UserKey (Smallest m)) <=? 0)
      && (cmp (UserKey (Largest m)) (end_ h) <? 0) in
    match hintType h with
    | deleteCompactionHintTypePointKeyOnly =>
        if HasRangeKeys m then Some false else Some bounds
    | deleteCompactionHintTypeRangeKeyOnly =>
        if HasPointKeys m then Some false else Some bounds
    | deleteCompactionHintTypePointAndRangeKey => Some bounds
    | deleteCompactionHintTypeUnknown => None
    end.

(** [maybeUpdateDeleteCompactionHints]: [d.mu.compact.deletionHints] before
    and after.  [updatedHints] shares the backing array of the hints being
    ranged over and is never longer than the part already read, so the
    loop is an in-place filter. *)
Section DeleteHints.
Variable cmp : Compare.

Definition inputsOlder_level (h : deleteCompactionHint)
    (inputsOlder : bool) (fs : LevelSlice) : bool :=
  fold_left
    (fun acc f => acc && (LargestSeqNum f <? tombstoneSmallestSeqNum h))
    fs inputsOlder.

Definition inputsOlder_inputs (h : deleteCompactionHint)
    (ins : list compactionLevel) : bool :=
  fold_left (fun acc cl => inputsOlder_level h acc (files cl)) ins true.

Fixpoint updateHints_loop (c : compaction)
    (hints updatedHints : list deleteCompactionHint)
    : list deleteCompactionHint :=
  match hints with
  | [] => updatedHints
  | h :: rest =>
      let keysDisjoint :=
        (cmp (end_ h) (UserKey (smallest c)) <? 0)
        || (cmp (start h) (UserKey (largest c)) >? 0) in
      if keysDisjoint then
        updateHints_loop c rest (updatedHints ++ [h])
      else if inputsOlder_inputs h (inputs c) then
        updateHints_loop c rest (updatedHints ++ [h])
      else updateHints_loop c rest updatedHints
  end.

Definition maybeUpdateDeleteCompactionHints (c : compaction)
    (deletionHints : list deleteCompactionHint)
    : list deleteCompactionHint :=
  if negb (allowedZeroSeqNum c) then deletionHints
  else updateHints_loop c deletionHints [].
End DeleteHints.

(** ** Compacting state (compaction.go, [clearCompactingState]) *)

Inductive CompactionState :=
| CompactionStateNotCompacting
| CompactionStateCompacting
| CompactionStateCompacted.

#[global] Instance CompactionState_eq_dec : EqDecision CompactionState.
Proof. solve_decision. Defined.

Record fileState := {
  fsCompactionState : CompactionState;
  IsIntraL0Compacting : bool
}.

(** The mutable part of every [*fileMetadata], by file number. *)
Abbreviation fileStore := (Z -> fileState).

Definition IsCompacting (st : fileStore) (f : fileMetadata) : bool :=
  bool_decide (fsCompactionState (st (FileNum f)) = CompactionStateCompacting).

(** Modelled from the spec: [FileMetadata.SetCompactionState] is declared
    in the [manifest] package, outside these sources; it moves the file to
    the given state of its lifecycle. *)
Definition SetCompactionState (st : fileStore) (f : fileMetadata)
    (to : CompactionState) : fileStore :=
  <[FileNum f := {| fsCompactionState := to;
                    IsIntraL0Compacting :=
                      IsIntraL0Compacting (st (FileNum f)) |}]> st.

Definition clearIsIntraL0Compacting (st : fileStore) (f : fileMetadata)
    : fileStore :=
  <[FileNum f := {| fsCompactionState := fsCompactionState (st (FileNum f));
                    IsIntraL0Compacting := false |}]> st.

(** What [clearCompactingState] leaves behind.  [Logger.Fatalf] belongs to
    the logger: [fatalExits] tells whether it ends the process (as the
    default logger does) or returns; [Returned] carries the store and the
    file numbers that were reported as not being compacted. *)
Inductive clearOutcome :=
| Exited (f : Z)
| Returned (st : fileStore) (reported : list Z).

Section ClearCompactingState.
Variable fatalExits : bool.

(** One file of the inner loop. *)
Definition clearFile (c : compaction) (rollback : bool)
    (st : fileStore) (f : fileMetadata) : fileStore :=
  let st1 :=
    if negb rollback then
      if negb (bool_decide (kind c = compactionKindMove)) then
        SetCompactionState st f CompactionStateCompacted
      else SetCompactionState st f CompactionStateNotCompacting
    else SetCompactionState st f CompactionStateNotCompacting in
  clearIsIntraL0Compacting st1 f.

Fixpoint clearFiles (c : compaction) (rollback : bool)
    (fs : LevelSlice) (st : fileStore) (reported : list Z)
    : clearOutcome :=
  match fs with
  | [] => Returned st reported
  | f :: fs' =>
      if negb (IsCompacting st f) then
        if fatalExits then Exited (FileNum f)
        else clearFiles c rollback fs' (clearFile c rollback st f)
               (reported ++ [FileNum f])
      else clearFiles c rollback fs' (clearFile c rollback st f) reported
  end.

Fixpoint clearLevels (c : compaction) (rollback : bool)
    (ins : list compactionLevel) (st : fileStore) (reported : list Z)
    : clearOutcome :=
  match ins with
  | [] => Returned st reported
  | cl :: ins' =>
      match clearFiles c rollback (files cl) st reported with
      | Exited f => Exited f
      | Returned st' reported' => clearLevels c rollback ins' st' reported'
      end
  end.

(** [InitCompactingFileInfo], called last, rebuilds the interval counters
    of the L0 sublevels from the files' states and writes no file
    metadata; [versionEditApplied] is not read by the properties below. *)
Definition clearCompactingState (c : compaction) (rollback : bool)
    (st : fileStore) : clearOutcome :=
  clearLevels c rollback (inputs c) st [].
End ClearCompactingState.

(** ** Errors *)

Inductive error :=
| ErrCancelledCompaction
| ErrExist
| ErrNotExist
| PathError (op : string) (path : string) (err : error)
| Errorf (msg : string)
| ErrIO (what : string).

(** ** Version edits *)

(** A [deletedFileEntry] is the pair of its [Level] and [FileNum]. *)
Definition deletedFileEntry := (Z * Z)%type.

Record newFileEntry := {
  nfLevel : Z;
  nfMeta : fileMetadata
}.

Record versionEdit := {
  DeletedFiles : gmap (Z * Z) fileMetadata;
  NewFiles : list newFileEntry;
  RemovedBackingTables : list Z
}.

Record compactionOutput := {
  coMeta : fileMetadata;
  coIsLocal : bool
}.

Record LevelMetrics := {
  BytesMoved : Z;
  TablesMoved : Z
}.

(** ** Building a compaction (compaction.go, [newCompaction]) *)

(** Modelled from the spec: [manifest.NumLevels] is declared outside these
    sources; the levels are L0 to L6. *)
Definition numLevels : Z := 7.

Record UserKeyBounds := {
  ukbStart : Bytes;
  ukbEnd : Bytes;
  ukbEndExclusive : bool
}.

(** Modelled from the spec: [base.UserKeyBoundsFromInternal] is declared
    outside these sources; the end bound is exclusive when the largest key
    is an exclusive sentinel. *)
Definition UserKeyBoundsFromInternal (s l : InternalKey) : UserKeyBounds :=
  {| ukbStart := UserKey s; ukbEnd := UserKey l;
     ukbEndExclusive := IsExclusiveSentinel l |}.

(** The two methods of [*version] that [newCompaction] calls; the version
    itself is an external collaborator. *)
Record version := {
  Overlaps : Z -> UserKeyBounds -> LevelSlice;
  CalculateInuseKeyRanges : Z -> Z -> Bytes -> Bytes -> list UserKeyRange
}.

Record pickedCompaction := {
  pc_cmp : Compare;
  pc_kind : compactionKind;
  pc_inputs : list compactionLevel;
  pc_extraLevels : list compactionLevel;
  pc_smallest : InternalKey;
  pc_largest : InternalKey;
  pc_version : version;
  pc_maxOutputFileSize : Z;
  pc_maxOverlapBytes : Z
}.

Definition levelAt (c : compaction) (i : option nat) : option compactionLevel :=
  match i with
  | Some n => inputs c !! n
  | None => None
  end.

Definition hasExtraLevelData (c : compaction) : bool :=
  match extraLevels c with
  | [] => false
  | l0 :: _ =>
      if (length (files l0) =? 0)%nat then false else true
  end.

Definition userKeyBounds (c : compaction) : UserKeyBounds :=
  UserKeyBoundsFromInternal (smallest c) (largest c).

(** [setupInuseKeyRanges]: the in-use ranges and [inuseEntireRange], for
    the output level [outLevel]. *)
Definition setupInuseKeyRanges (cmp : Compare) (v : version)
    (outLevel : Z) (sm lg : InternalKey) : list UserKeyRange * bool :=
  let lvl := if outLevel =? 0 then 0 else outLevel + 1 in
  let rs := CalculateInuseKeyRanges v lvl (numLevels - 1)
              (UserKey sm) (UserKey lg) in
  match rs with
  | [] => (rs, false)
  | r0 :: _ =>
      (rs, (cmp (Start r0) (UserKey sm) <=? 0)
           && (cmp (End_ r0) (UserKey lg) >=? 0))
  end.

(** The index in [c.inputs] of the output level: the second level, or the
    last one of a multilevel compaction. *)
Definition pickedOutputIndex (pc : pickedCompaction) : nat :=
  if (0 <? length (pc_extraLevels pc))%nat
  then (length (pc_inputs pc) - 1)%nat else 1%nat.

(** The grandparents: the files of the level below the output level that
    overlap the compaction. *)
Definition pickedGrandparents (pc : pickedCompaction) (outL : compactionLevel)
    : LevelSlice :=
  if level outL + 1 <? numLevels then
    Overlaps (pc_version pc) (level outL + 1)
      (UserKeyBoundsFromInternal (pc_smallest pc) (pc_largest pc))
  else [].

Section NewCompaction.
(** [remote.ShouldCreateShared], applied to the [CreateOnShared] strategy of
    the options and a level; declared in the [remote] package. *)
Variable ShouldCreateShared : Z -> Z -> bool.

(** [provider] is [None] for the nil provider of some unit tests, else
    [objstorage.IsLocalTable] of the provider.  [None] as a result is a
    panic (an index out of range of [c.inputs]). *)
Definition newCompaction (pc : pickedCompaction) (createOnShared : Z)
    (provider : option (Z -> bool)) : option compaction :=
  match pc_inputs pc !! 0%nat, pc_inputs pc !! 1%nat with
  | Some startL, Some out1 =>
      let outIdx := pickedOutputIndex pc in
      let outL := default out1 (pc_inputs pc !! outIdx) in
      let extra :=
        if (0 <? length (pc_extraLevels pc))%nat
        then pc_extraLevels pc else [] in
      let gp := pickedGrandparents pc outL in
      let '(rs, entire) :=
        setupInuseKeyRanges (pc_cmp pc) (pc_version pc) (level outL)
          (pc_smallest pc) (pc_largest pc) in
      let c := {| kind := pc_kind pc; cancel := false;
                  inputs := pc_inputs pc;
                  startLevel := Some 0%nat; outputLevel := Some outIdx;
                  extraLevels := extra;
                  maxOutputFileSize := pc_maxOutputFileSize pc;
                  maxOverlapBytes := pc_maxOverlapBytes pc;
                  disableSpanElision := false;
                  flushing := [];
                  smallest := pc_smallest pc; largest := pc_largest pc;
                  grandparents := gp;
                  inuseKeyRanges := rs; inuseEntireRange := entire;
                  elideTombstoneIndex := 0%nat;
                  allowedZeroSeqNum := false |} in
      let withKind (k : compactionKind) :=
        {| kind := k; cancel := cancel c; inputs := inputs c;
           startLevel := startLevel c; outputLevel := outputLevel c;
           extraLevels := extraLevels c;
           maxOutputFileSize := maxOutputFileSize c;
           maxOverlapBytes := maxOverlapBytes c;
           disableSpanElision := disableSpanElision c;
           flushing := flushing c;
           smallest := smallest c; largest := largest c;
           grandparents := grandparents c;
           inuseKeyRanges := inuseKeyRanges c;
           inuseEntireRange := inuseEntireRange c;
           elideTombstoneIndex := elideTombstoneIndex c;
           allowedZeroSeqNum := allowedZeroSeqNum c |} in
      if bool_decide (kind c = compactionKindDefault)
         && (length (files outL) =? 0)%nat
         && negb (hasExtraLevelData c)
         && (length (files startL) =? 1)%nat
         && (SizeSum (grandparents c) <=? maxOverlapBytes c)
      then
        match files startL with
        | meta :: _ =>
            let isRemote :=
              match provider with
              | Some isLocalTable => negb (isLocalTable (BackingDiskFileNum meta))
              | None => false
              end in
            let mustCopy :=
              negb isRemote && ShouldCreateShared createOnShared (level outL) in
            if mustCopy then
              if negb (Virtual meta) then Some (withKind compactionKindCopy)
              else Some c
            else Some (withKind compactionKindMove)
        | [] => None
        end
      else Some c
  | _, _ => None
  end.
End NewCompaction.

(** ** Move and copy compactions (compaction.go,
    [runMoveOrCopyCompaction]) *)

Record ObjectMetadata := {
  omDiskFileNum : Z;
  omIsRemote : bool;
  omIsExternal : bool
}.

Record runResult := {
  r_ve : option versionEdit;
  r_pendingOutputs : list compactionOutput;
  r_err : option error;
  (** [c.metrics] when the function assigned it *)
  r_metrics : option (gmap Z LevelMetrics)
}.

Section MoveOrCopy.
(** The build tag [invariants.Enabled]. *)
Variable invariants_Enabled : bool.
(** [d.objProvider.Lookup(fileTypeTable, _)]. *)
Variable Lookup : Z -> ObjectMetadata + error.
(** [runCopyCompaction], the copy itself: it performs the input and output
    of a copy compaction and gives the pending outputs, the version edit
    as it leaves it and its error. *)
Variable runCopyCompaction :
  compaction -> fileMetadata -> ObjectMetadata -> versionEdit ->
  list compactionOutput * versionEdit * option error.

(** [None] is a panic: more than one file under the invariants build, or a
    nil dereference (no start level, no file). *)
Definition runMoveOrCopyCompaction (c : compaction) : option runResult :=
  match levelAt c (startLevel c), levelAt c (outputLevel c) with
  | Some startL, out =>
      if invariants_Enabled && (1 <? length (files startL))%nat then None
      else if cancel c then
        Some {| r_ve := None; r_pendingOutputs := [];
                r_err := Some ErrCancelledCompaction; r_metrics := None |}
      else
        match files startL with
        | [] => None
        | meta :: _ =>
            match Lookup (BackingDiskFileNum meta) with
            | inr err =>
                Some {| r_ve := None; r_pendingOutputs := [];
                        r_err := Some err; r_metrics := None |}
            | inl objMeta =>
                match out with
                | None => None
                | Some outL =>
                    let metrics : gmap Z LevelMetrics :=
                      {[ level outL := {| BytesMoved := Size meta;
                                          TablesMoved := 1 |} ]} in
                    let ve :=
                      {| DeletedFiles :=
                           {[ (level startL, FileNum meta) := meta ]};
                         NewFiles :=
                           [ {| nfLevel := level outL; nfMeta := meta |} ];
                         RemovedBackingTables := [] |} in
                    if bool_decide (kind c = compactionKindMove) then
                      Some {| r_ve := Some ve; r_pendingOutputs := [];
                              r_err := None; r_metrics := Some metrics |}
                    else
                      let '(po, ve', err) :=
                        runCopyCompaction c meta objMeta ve in
                      Some {| r_ve := Some ve'; r_pendingOutputs := po;
                              r_err := err; r_metrics := Some metrics |}
                end
            end
        end
  | None, _ => None
  end.
End MoveOrCopy.

(** ** Spans of range tombstones and range keys *)

(** A [keyspan.Key]: the trailer as its two components, a suffix and a
    value. *)
Record keyspan_Key := {
  kSeqNum : Z;
  kKind : InternalKeyKind;
  Suffix : Bytes;
  Value : Bytes
}.

(** A [keyspan.Span]: the keys of the user-key range [[Start, End)]. *)
Record keyspan_Span := {
  spStart : Bytes;
  spEnd : Bytes;
  spKeys : list keyspan_Key
}.

(** Modelled from the spec: the numeric codes of the kinds and
    [base.InternalCompare] are declared in the [base] package, outside
    these sources.  The internal order is the user key ascending, then
    the pair of sequence number and kind descending. *)
Definition kindCode (k : InternalKeyKind) : Z :=
  match k with
  | InternalKeyKindDelete => 0
  | InternalKeyKindSet => 1
  | InternalKeyKindMerge => 2
  | InternalKeyKindSingleDelete => 7
  | InternalKeyKindRangeDelete => 15
  | InternalKeyKindRangeKeyDelete => 19
  | InternalKeyKindRangeKeyUnset => 20
  | InternalKeyKindRangeKeySet => 21
  | InternalKeyKindDeleteSized => 23
  end.

Definition Trailer (k : InternalKey) : Z :=
  Z.lor (Z.shiftl (SeqNum k) 8) (kindCode (Kind k)).

Definition InternalCompare (cmp : Compare) (a b : InternalKey) : Z :=
  let x := cmp (UserKey a) (UserKey b) in
  if negb (x =? 0) then x
  else if Trailer a >? Trailer b then -1
  else if Trailer a <? Trailer b then 1
  else 0.

(** ** Finishing an output (compaction.go, the closure [finishOutput] of
    [runCompaction], with [newOutput] and [errorOnUserKeyOverlap]) *)

(** The sstable writer of the current output, as the record of what was
    added to it, in order, and the size it reports. *)
Record Writer := {
  wPoints : list InternalKey;
  wRangeDels : list keyspan_Span;
  wRangeKeys : list keyspan_Span;
  wSize : Z
}.

Record WriterMetadata := {
  wmSize : Z;
  wmSmallestSeqNum : Z;
  wmLargestSeqNum : Z;
  wmHasPointKeys : bool;
  wmHasRangeDelKeys : bool;
  wmHasRangeKeys : bool;
  wmSmallestPoint : InternalKey;
  wmLargestPoint : InternalKey;
  wmSmallestRangeDel : InternalKey;
  wmLargestRangeDel : InternalKey;
  wmSmallestRangeKey : InternalKey;
  wmLargestRangeKey : InternalKey
}.

Definition zeroKey : InternalKey :=
  {| UserKey := None; SeqNum := 0; Kind := InternalKeyKindDelete |}.

Definition spanSmallestKey (s : keyspan_Span) : InternalKey :=
  match spKeys s with
  | k :: _ => {| UserKey := spStart s; SeqNum := kSeqNum k; Kind := kKind k |}
  | [] => {| UserKey := spStart s; SeqNum := 0; Kind := InternalKeyKindRangeDelete |}
  end.

Definition spanLargestKey (s : keyspan_Span) : InternalKey :=
  match spKeys s with
  | k :: _ => {| UserKey := spEnd s; SeqNum := InternalKeySeqNumMax;
                 Kind := kKind k |}
  | [] => {| UserKey := spEnd s; SeqNum := InternalKeySeqNumMax;
             Kind := InternalKeyKindRangeDelete |}
  end.

Definition writerSeqNums (w : Writer) : list Z :=
  map SeqNum (wPoints w)
  ++ flat_map (fun s => map kSeqNum (spKeys s)) (wRangeDels w)
  ++ flat_map (fun s => map kSeqNum (spKeys s)) (wRangeKeys w).

(** Modelled from the spec: [sstable.Writer.Metadata] is declared in the
    [sstable] package, outside these sources.  The writer is fed in key
    order, so the bounds it reports for each class of keys are those of
    the first and of the last addition of the class; a span ends at an
    exclusive sentinel. *)
Definition Writer_Metadata (w : Writer) : WriterMetadata :=
  {| wmSize := wSize w;
     wmSmallestSeqNum := fold_right Z.min InternalKeySeqNumMax (writerSeqNums w);
     wmLargestSeqNum := fold_right Z.max 0 (writerSeqNums w);
     wmHasPointKeys := negb (length (wPoints w) =? 0)%nat;
     wmHasRangeDelKeys := negb (length (wRangeDels w) =? 0)%nat;
     wmHasRangeKeys := negb (length (wRangeKeys w) =? 0)%nat;
     wmSmallestPoint := hd zeroKey (wPoints w);
     wmLargestPoint := last (wPoints w) zeroKey;
     wmSmallestRangeDel :=
       match wRangeDels w with s :: _ => spanSmallestKey s | [] => zeroKey end;
     wmLargestRangeDel :=
       match wRangeDels w with
       | _ :: _ =>
           spanLargestKey (last (wRangeDels w)
                             {| spStart := None; spEnd := None; spKeys := [] |})
       | [] => zeroKey
       end;
     wmSmallestRangeKey :=
       match wRangeKeys w with s :: _ => spanSmallestKey s | [] => zeroKey end;
     wmLargestRangeKey :=
       match wRangeKeys w with
       | _ :: _ =>
           spanLargestKey (last (wRangeKeys w)
                             {| spStart := None; spEnd := None; spKeys := [] |})
       | [] => zeroKey
       end |}.

(** Modelled from the spec: [compact.Iter] is declared in the [compact]
    package, outside these sources.  Its pending range tombstones (and,
    alike, its pending range keys) are a list of spans;
    [FirstTombstoneStart] is the start of the first one, nil when there is
    none; [TombstonesUpTo key] hands out the pending spans strictly below
    [key], cut at [key], and keeps what lies at or beyond [key]; a nil
    [key] hands out everything. *)
Definition FirstStart (pending : list keyspan_Span) : Bytes :=
  match pending with
  | [] => None
  | s :: _ => spStart s
  end.

Definition truncateBelow (cmp : Compare) (key : Bytes) (s : keyspan_Span)
    : keyspan_Span :=
  {| spStart := spStart s;
     spEnd := if cmp (spEnd s) key >? 0 then key else spEnd s;
     spKeys := spKeys s |}.

Definition truncateAbove (cmp : Compare) (key : Bytes) (s : keyspan_Span)
    : keyspan_Span :=
  {| spStart := if cmp (spStart s) key <? 0 then key else spStart s;
     spEnd := spEnd s;
     spKeys := spKeys s |}.

Definition SpansUpTo (cmp : Compare) (key : Bytes)
    (pending : list keyspan_Span) : list keyspan_Span * list keyspan_Span :=
  if isNil key then (pending, [])
  else
    (map (truncateBelow cmp key)
       (List.filter (fun s => cmp (spStart s) key <? 0) pending),
     map (truncateAbove cmp key)
       (List.filter (fun s => cmp (spEnd s) key >? 0) pending)).

Definition setBounds (m : fileMetadata) (sm lg : InternalKey)
    (hasPoint hasRange : bool) : fileMetadata :=
  {| FileNum := FileNum m; Size := Size m;
     SmallestSeqNum := SmallestSeqNum m; LargestSeqNum := LargestSeqNum m;
     Smallest := sm; Largest := lg;
     HasPointKeys := hasPoint; HasRangeKeys := hasRange;
     Virtual := Virtual m; BackingDiskFileNum := BackingDiskFileNum m |}.

(** Modelled from the spec: [ExtendPointKeyBounds] and
    [ExtendRangeKeyBounds] are declared in the [manifest] package, outside
    these sources; they merge the given bounds into the bounds of the
    file, which are unset until the first of these calls. *)
Definition extendOverallBounds (cmp : Compare) (m : fileMetadata)
    (sm lg : InternalKey) (hasPoint hasRange : bool) : fileMetadata :=
  if HasPointKeys m || HasRangeKeys m then
    setBounds m
      (if InternalCompare cmp sm (Smallest m) <? 0 then sm else Smallest m)
      (if InternalCompare cmp lg (Largest m) >? 0 then lg else Largest m)
      hasPoint hasRange
  else setBounds m sm lg hasPoint hasRange.

Definition ExtendPointKeyBounds (cmp : Compare) (m : fileMetadata)
    (sm lg : InternalKey) : fileMetadata :=
  extendOverallBounds cmp m sm lg true (HasRangeKeys m).

Definition ExtendRangeKeyBounds (cmp : Compare) (m : fileMetadata)
    (sm lg : InternalKey) : fileMetadata :=
  extendOverallBounds cmp m sm lg (HasPointKeys m) true.

(** The variables of [runCompaction] that [finishOutput] and [newOutput]
    close over, with the pending spans of the compaction iterator.  The
    metrics and the snapshot-pinned counters are left out: no branch reads
    them. *)
Record outputState := {
  tw : option Writer;
  pendingTombstones : list keyspan_Span;
  pendingRangeKeys : list keyspan_Span;
  ve_NewFiles : list newFileEntry;
  pendingOutputs : list Z;
  createdFiles : list Z;
  nextFileNum : Z
}.

(** The errors of the calls that leave the package: creating the object,
    encoding a span into the writer, closing the writer, reading its
    metadata, and [FileMetadata.Validate]. *)
Record externals := {
  createErr : Z -> option error;
  encodeRangeDelErr : keyspan_Span -> option error;
  encodeRangeKeyErr : keyspan_Span -> option error;
  closeErr : Writer -> option error;
  metadataErr : Writer -> option error;
  validateErr : fileMetadata -> option error
}.

Definition emptyFileMetadata (fileNum : Z) : fileMetadata :=
  {| FileNum := fileNum; Size := 0; SmallestSeqNum := 0; LargestSeqNum := 0;
     Smallest := zeroKey; Largest := zeroKey;
     HasPointKeys := false; HasRangeKeys := false; Virtual := false;
     BackingDiskFileNum := 0 |}.

Definition emptyWriter : Writer :=
  {| wPoints := []; wRangeDels := []; wRangeKeys := []; wSize := 0 |}.

Definition set_tw (st : outputState) (w : option Writer) : outputState :=
  {| tw := w; pendingTombstones := pendingTombstones st;
     pendingRangeKeys := pendingRangeKeys st;
     ve_NewFiles := ve_NewFiles st; pendingOutputs := pendingOutputs st;
     createdFiles := createdFiles st; nextFileNum := nextFileNum st |}.

Definition set_pending (st : outputState) (ts rks : list keyspan_Span)
    : outputState :=
  {| tw := tw st; pendingTombstones := ts; pendingRangeKeys := rks;
     ve_NewFiles := ve_NewFiles st; pendingOutputs := pendingOutputs st;
     createdFiles := createdFiles st; nextFileNum := nextFileNum st |}.

Definition set_NewFiles (st : outputState) (nf : list newFileEntry)
    : outputState :=
  {| tw := tw st; pendingTombstones := pendingTombstones st;
     pendingRangeKeys := pendingRangeKeys st;
     ve_NewFiles := nf; pendingOutputs := pendingOutputs st;
     createdFiles := createdFiles st; nextFileNum := nextFileNum st |}.

(** [ve.NewFiles[len(ve.NewFiles)-1].Meta = m]. *)
Definition set_lastMeta (st : outputState) (m : fileMetadata) : outputState :=
  match reverse (ve_NewFiles st) with
  | [] => st
  | e :: before =>
      set_NewFiles st
        (reverse before ++ [ {| nfLevel := nfLevel e; nfMeta := m |} ])
  end.

Definition addRangeDel (w : Writer) (v : keyspan_Span) : Writer :=
  {| wPoints := wPoints w; wRangeDels := wRangeDels w ++ [v];
     wRangeKeys := wRangeKeys w; wSize := wSize w |}.

Definition addRangeKey (w : Writer) (v : keyspan_Span) : Writer :=
  {| wPoints := wPoints w; wRangeDels := wRangeDels w;
     wRangeKeys := wRangeKeys w ++ [v]; wSize := wSize w |}.

Section FinishOutput.
Variable cmp : Compare.
Variable ext : externals.

(** The level of [c.outputLevel], which [runCompaction] has dereferenced
    before any output is made. *)
Definition outputLevelNum (c : compaction) : Z :=
  match levelAt c (outputLevel c) with
  | Some l => level l
  | None => 0
  end.

Definition newOutput (c : compaction) (st : outputState)
    : outputState * option error :=
  if cancel c then (st, Some ErrCancelledCompaction)
  else
    let fileNum := nextFileNum st in
    let st1 :=
      {| tw := tw st; pendingTombstones := pendingTombstones st;
         pendingRangeKeys := pendingRangeKeys st;
         ve_NewFiles := ve_NewFiles st; pendingOutputs := pendingOutputs st;
         createdFiles := createdFiles st; nextFileNum := fileNum + 1 |} in
    match createErr ext fileNum with
    | Some e => (st1, Some e)
    | None =>
        ({| tw := Some emptyWriter;
            pendingTombstones := pendingTombstones st1;
            pendingRangeKeys := pendingRangeKeys st1;
            ve_NewFiles :=
              ve_NewFiles st1
              ++ [ {| nfLevel := outputLevelNum c;
                      nfMeta := emptyFileMetadata fileNum |} ];
            pendingOutputs := pendingOutputs st1 ++ [fileNum];
            createdFiles := createdFiles st1 ++ [fileNum];
            nextFileNum := nextFileNum st1 |}, None)
    end.

(** The two loops over the spans handed out by the iterator: the writer
    is opened before the first span when it is absent. *)
Fixpoint emitSpans (c : compaction)
    (encodeErr : keyspan_Span -> option error)
    (add : Writer -> keyspan_Span -> Writer)
    (vs : list keyspan_Span) (st : outputState)
    : outputState * option error :=
  match vs with
  | [] => (st, None)
  | v :: vs' =>
      let '(st1, err) :=
        match tw st with
        | None => newOutput c st
        | Some _ => (st, None)
        end in
      match err, tw st1 with
      | Some e, _ => (st1, Some e)
      | None, None => (st1, None)
      | None, Some w =>
          match encodeErr v with
          | Some e => (st1, Some e)
          | None => emitSpans c encodeErr add vs' (set_tw st1 (Some (add w v)))
          end
      end
  end.

(** [errorOnUserKeyOverlap]. *)
Definition errorOnUserKeyOverlap (NewFiles : list newFileEntry)
    : option error :=
  match reverse NewFiles with
  | e :: ePrev :: _ =>
      let meta := nfMeta e in
      let prevMeta := nfMeta ePrev in
      if negb (IsExclusiveSentinel (Largest prevMeta))
         && (cmp (UserKey (Largest prevMeta)) (UserKey (Smallest meta)) >=? 0)
      then Some (Errorf "pebble: compaction split user key across two sstables")
      else None
  | _ => None
  end.

(** The check of the smallest range tombstone against the previous
    output. *)
Definition checkSmallestRangeDel (NewFiles : list newFileEntry)
    (writerMeta : WriterMetadata) : option error :=
  match reverse NewFiles with
  | _ :: ePrev :: _ =>
      let prevMeta := nfMeta ePrev in
      if negb (isNil (UserKey (wmSmallestRangeDel writerMeta))) then
        let x := cmp (UserKey (wmSmallestRangeDel writerMeta))
                     (UserKey (Largest prevMeta)) in
        if x <? 0 then
          Some (Errorf "pebble: smallest range tombstone start key is less than previous sstable largest key")
        else if (x =? 0) && negb (IsExclusiveSentinel (Largest prevMeta)) then
          Some (Errorf "pebble: invariant violation: previous sstable largest key, current sstable smallest rangedel")
        else None
      else None
  | _ => None
  end.

(** The check that the range deletions are truncated to the split key. *)
Definition checkLargestRangeDel (splitKey : Bytes)
    (writerMeta : WriterMetadata) : option error :=
  if negb (isNil splitKey)
     && negb (isNil (UserKey (wmLargestRangeDel writerMeta)))
     && (cmp (UserKey (wmLargestRangeDel writerMeta)) splitKey >? 0)
  then Some (Errorf "pebble: invariant violation: rangedel largest key extends beyond split key")
  else None.

(** The check of the output bounds against the compaction bounds. *)
Definition checkInputBounds (c : compaction) (meta : fileMetadata)
    : option error :=
  if negb (isNil (UserKey (smallest c)))
     && (cmp (UserKey (Smallest meta)) (UserKey (smallest c)) <? 0)
  then Some (Errorf "pebble: compaction output grew beyond bounds of input: smallest")
  else if negb (isNil (UserKey (largest c)))
          && (cmp (UserKey (Largest meta)) (UserKey (largest c)) >? 0)
  then Some (Errorf "pebble: compaction output grew beyond bounds of input: largest")
  else None.

(** The first part of [finishOutput splitKey], up to the test
    [tw == nil] that follows the two loops: either [finishOutput] returns
    there, or it goes on to close the writer [w]. *)
Inductive emitResult :=
| EmitReturn (st : outputState) (err : option error)
| EmitContinue (st : outputState) (w : Writer).

Definition emitPending (c : compaction) (splitKey : Bytes)
    (st : outputState) : emitResult :=
  let startKey :=
    if isNil (FirstStart (pendingTombstones st))
    then FirstStart (pendingRangeKeys st)
    else FirstStart (pendingTombstones st) in
  if bool_decide (tw st = None) && negb (isNil splitKey)
     && (cmp startKey splitKey =? 0)
  then EmitReturn st None
  else
    let '(tombstones, restT) := SpansUpTo cmp splitKey (pendingTombstones st) in
    let st0 := set_pending st restT (pendingRangeKeys st) in
    match emitSpans c (encodeRangeDelErr ext) addRangeDel tombstones st0 with
    | (st1, Some e) => EmitReturn st1 (Some e)
    | (st1, None) =>
        let '(rangeKeys, restK) :=
          SpansUpTo cmp splitKey (pendingRangeKeys st1) in
        let st2 := set_pending st1 (pendingTombstones st1) restK in
        match emitSpans c (encodeRangeKeyErr ext) addRangeKey rangeKeys st2 with
        | (st3, Some e) => EmitReturn st3 (Some e)
        | (st3, None) =>
            match tw st3 with
            | None => EmitReturn st3 None
            | Some w => EmitContinue st3 w
            end
        end
    end.

(** The rest of [finishOutput splitKey]: the writer is closed, its
    metadata goes into the last entry of [ve.NewFiles], and the output is
    checked.  [None] is a panic (an open writer without an entry in
    [ve.NewFiles]). *)
Definition closeOutput (c : compaction) (splitKey : Bytes)
    (st3 : outputState) (w : Writer) : option (outputState * option error) :=
  match closeErr ext w with
  | Some e => Some (set_tw st3 None, Some e)
  | None =>
      match metadataErr ext w with
      | Some e => Some (set_tw st3 None, Some e)
      | None =>
          let writerMeta := Writer_Metadata w in
          let st4 := set_tw st3 None in
          match reverse (ve_NewFiles st4) with
          | [] => None
          | e :: _ =>
              let meta0 := nfMeta e in
              let meta1 :=
                {| FileNum := FileNum meta0;
                   Size := wmSize writerMeta;
                   SmallestSeqNum := wmSmallestSeqNum writerMeta;
                   LargestSeqNum := wmLargestSeqNum writerMeta;
                   Smallest := Smallest meta0;
                   Largest := Largest meta0;
                   HasPointKeys := HasPointKeys meta0;
                   HasRangeKeys := HasRangeKeys meta0;
                   Virtual := Virtual meta0;
                   BackingDiskFileNum := FileNum meta0 |} in
              let st5 := set_lastMeta st4 meta1 in
              match checkSmallestRangeDel (ve_NewFiles st5) writerMeta with
              | Some err => Some (st5, Some err)
              | None =>
              match checkLargestRangeDel splitKey writerMeta with
              | Some err => Some (st5, Some err)
              | None =>
                  let meta2 :=
                    if wmHasPointKeys writerMeta then
                      ExtendPointKeyBounds cmp meta1
                        (wmSmallestPoint writerMeta)
                        (wmLargestPoint writerMeta)
                    else meta1 in
                  let meta3 :=
                    if wmHasRangeDelKeys writerMeta then
                      ExtendPointKeyBounds cmp meta2
                        (wmSmallestRangeDel writerMeta)
                        (wmLargestRangeDel writerMeta)
                    else meta2 in
                  let meta4 :=
                    if wmHasRangeKeys writerMeta then
                      ExtendRangeKeyBounds cmp meta3
                        (wmSmallestRangeKey writerMeta)
                        (wmLargestRangeKey writerMeta)
                    else meta3 in
                  let st6 := set_lastMeta st5 meta4 in
                  match checkInputBounds c meta4 with
                  | Some err => Some (st6, Some err)
                  | None =>
                  match errorOnUserKeyOverlap (ve_NewFiles st6) with
                  | Some err => Some (st6, Some err)
                  | None => Some (st6, validateErr ext meta4)
                  end
                  end
              end
              end
          end
      end
  end.

(** [finishOutput splitKey]: the state it leaves and its error. *)
Definition finishOutput (c : compaction) (splitKey : Bytes)
    (st : outputState) : option (outputState * option error) :=
  match emitPending c splitKey st with
  | EmitReturn st' err => Some (st', err)
  | EmitContinue st3 w => closeOutput c splitKey st3 w
  end.
End FinishOutput.

(** ** The range-key snapshot transform (compaction.go,
    [rangeKeyCompactionTransform]) *)


Definition isKind (k : keyspan_Key) (kd : InternalKeyKind) : bool :=
  bool_decide (kKind k = kd).

Section RangeKeyTransform.
Variable eq : Equal.
Variable elideRangeKey : Bytes -> Bytes -> bool.
Variable cmp : Compare.

(** Modelled from the spec: [rangekey.Coalesce] is declared in the
    [rangekey] package, outside these sources.  The keys come in internal
    order, the highest sequence number first.  At each suffix the first key
    wins: the highest [RangeKeySet], or a [RangeKeyUnset] above every
    [RangeKeySet] of the suffix, which it shadows.  The first
    [RangeKeyDelete] is kept and shadows everything after it.  [seen] holds
    the suffixes already taken. *)
Fixpoint Coalesce_from (seen : list Bytes) (keys : list keyspan_Key)
    : list keyspan_Key :=
  match keys with
  | [] => []
  | k :: rest =>
      if isKind k InternalKeyKindRangeKeyDelete then [k]
      else if existsb (fun s => eq s (Suffix k)) seen
      then Coalesce_from seen rest
      else k :: Coalesce_from (Suffix k :: seen) rest
  end.

Definition Coalesce (keys : list keyspan_Key) : list keyspan_Key :=
  Coalesce_from [] keys.

(** [elideInLastStripe], the closure over the span [s]. *)
Fixpoint elideInLastStripe (s : keyspan_Span) (keys : list keyspan_Key)
    : list keyspan_Key :=
  match keys with
  | [] => []
  | kj :: rest =>
      if elideRangeKey (spStart s) (spEnd s)
         && (isKind kj InternalKeyKindRangeKeyUnset
             || isKind kj InternalKeyKindRangeKeyDelete)
      then elideInLastStripe s rest
      else kj :: elideInLastStripe s rest
  end.






End RangeKeyTransform.

(** ** Checkpoints (checkpoint.go) *)

Record CheckpointSpan := {
  csStart : Bytes;
  csEnd : Bytes
}.

Record checkpointOptions := {
  flushWAL : bool;
  restrictToSpans : list CheckpointSpan;
  concurrentLinkOrCopy : Z
}.

(** A [CheckpointOption] is a function that updates the options. *)
Definition CheckpointOption := checkpointOptions -> checkpointOptions.

Definition WithFlushedWAL : CheckpointOption := fun opt =>
  {| flushWAL := true; restrictToSpans := restrictToSpans opt;
     concurrentLinkOrCopy := concurrentLinkOrCopy opt |}.

Definition ConcurrentLinkOrCopy (concurrent : Z) : CheckpointOption :=
  fun opt =>
  {| flushWAL := flushWAL opt; restrictToSpans := restrictToSpans opt;
     concurrentLinkOrCopy := concurrent |}.

Definition WithRestrictToSpans (spans : list CheckpointSpan)
    : CheckpointOption := fun opt =>
  {| flushWAL := flushWAL opt; restrictToSpans := spans;
     concurrentLinkOrCopy := concurrentLinkOrCopy opt |}.

(** Modelled from the spec: [FileMetadata.Overlaps] is declared in the
    [manifest] package, outside these sources.  A file lies outside a span
    when its user keys end before the span starts or start at or after the
    exclusive end of the span. *)
Definition FileOverlaps (cmp : Compare) (f : fileMetadata)
    (b : UserKeyBounds) : bool :=
  (if ukbEndExclusive b
   then cmp (UserKey (Smallest f)) (ukbEnd b) <? 0
   else cmp (UserKey (Smallest f)) (ukbEnd b) <=? 0)
  && (if IsExclusiveSentinel (Largest f)
      then cmp (ukbStart b) (UserKey (Largest f)) <? 0
      else cmp (ukbStart b) (UserKey (Largest f)) <=? 0).

Definition UserKeyBoundsEndExclusive (s e : Bytes) : UserKeyBounds :=
  {| ukbStart := s; ukbEnd := e; ukbEndExclusive := true |}.

(** [excludeFromCheckpoint]. *)
Definition excludeFromCheckpoint (f : fileMetadata)
    (opt : checkpointOptions) (cmp : Compare) : bool :=
  if (length (restrictToSpans opt) =? 0)%nat then false
  else
    negb (existsb
            (fun s =>
               FileOverlaps cmp f
                 (UserKeyBoundsEndExclusive (csStart s) (csEnd s)))
            (restrictToSpans opt)).

(** *** The filesystem and the calls that leave the package *)

(** A record of a manifest: bytes copied as they are, or an encoded
    version edit. *)
Inductive recordData :=
| Raw (payload : string)
| Encoded (ve : versionEdit).

Inductive fsNode :=
| Dir
| File (content : list recordData).

Inductive fileType :=
| fileTypeOptions
| fileTypeManifest
| fileTypeTable
| fileTypeLog.

(** The operations on the filesystem that a checkpoint performs, for the
    trace. *)
Inductive fsOp :=
| OpStat (path : string)
| OpMkdirAll (path : string)
| OpLinkOrCopy (src dst : string)
| OpCreate (path : string)
| OpSetMarker (dir name value : string)
| OpRemoveAll (path : string).

(** The calls that can fail for reasons outside the model. *)
Inductive ckStep :=
| StepStat (path : string)
| StepLogData
| StepListLogs
| StepMkdirAll (path : string)
| StepOpenDir (path : string)
| StepSyncDir (path : string)
| StepCloseDir (path : string)
| StepLinkOrCopy (src dst : string)
| StepLocateMarker (dir name : string)
| StepMoveMarker (dir name : string)
| StepCloseMarker (dir name : string)
| StepOpen (path : string)
| StepCreate (path : string)
| StepReadRecord (i : nat)
| StepWriterNext (i : nat)
| StepCopyRecord (i : nat)
| StepEncode
| StepCloseWriter
| StepSyncFile (path : string)
| StepCheckpointState
| StepCopyWAL (src dst : string).

Record ckState := {
  ck_fs : gmap string fsNode;
  ck_trace : list fsOp;
  (** [d.mu.disableFileDeletions] *)
  ck_disableFileDeletions : Z
}.

(** The state and error monad of a checkpoint. *)
Definition CK (A : Type) : Type := ckState -> (A + error) * ckState.

#[global] Instance CK_ret : MRet CK := fun A a s => (inl a, s).

#[global] Instance CK_bind : MBind CK := fun A B k m s =>
  match m s with
  | (inl a, s') => k a s'
  | (inr e, s') => (inr e, s')
  end.

Definition ck_fail {A : Type} (e : error) : CK A := fun s => (inr e, s).

Definition ck_get : CK ckState := fun s => (inl s, s).

Definition ck_modify (f : ckState -> ckState) : CK unit := fun s =>
  (inl tt, f s).

Definition ck_log (op : fsOp) : CK unit := fun s =>
  (inl tt, {| ck_fs := ck_fs s; ck_trace := ck_trace s ++ [op];
              ck_disableFileDeletions := ck_disableFileDeletions s |}).

Definition ck_setFile (path : string) (n : fsNode) : CK unit := fun s =>
  (inl tt, {| ck_fs := <[path := n]> (ck_fs s); ck_trace := ck_trace s;
              ck_disableFileDeletions := ck_disableFileDeletions s |}).

(** A deferred call: it runs when the body returns, whatever it returns. *)
Definition ck_defer {A : Type} (body : CK A)
    (deferred : (A + error) -> ckState -> ckState) : CK A := fun s =>
  let '(r, s') := body s in (r, deferred r s').

Definition PathJoin (dir base : string) : string :=
  String.append dir (String.append "/" base).

Definition removeAll (path : string) (s : ckState) : ckState :=
  {| ck_fs :=
       filter (fun kv => negb (String.eqb (fst kv) path
                               || String.prefix (String.append path "/") (fst kv)) = true)
         (ck_fs s);
     ck_trace := ck_trace s ++ [OpRemoveAll path];
     ck_disableFileDeletions := ck_disableFileDeletions s |}.

(** [oserror.IsNotExist]. *)
Fixpoint errIsNotExist (e : error) : bool :=
  match e with
  | ErrNotExist => true
  | PathError _ _ e' => errIsNotExist e'
  | _ => false
  end.

Definition IsNotExist (err : option error) : bool :=
  match err with
  | Some e => errIsNotExist e
  | None => false
  end.

(** The database state that [Checkpoint] reads under its locks. *)
Record DB := {
  dirname : string;
  opts_DisableWAL : bool;
  db_cmp : Compare;
  mem_queue_logNums : list Z;
  currentVersion_Levels : list LevelSlice;
  formatVersString : string;
  manifestFileNum : Z;
  (** the manifest, as its records and the bytes each one takes *)
  manifest : list (Z * recordData);
  manifestSize : Z;
  optionsFileNum : Z;
  virtualBackings : list Z;
  (** the segments of each logical log of [d.mu.log.manager.List()] *)
  logSegments : gmap Z (list string)
}.

(** What a checkpoint is given from outside the package. *)
Record ckEnv := {
  (** the outcome of every call that can fail for outside reasons: [None]
      when it succeeds *)
  fails : ckStep -> option error;
  (** [d.objProvider.Lookup(fileTypeTable, _)] *)
  objLookup : Z -> ObjectMetadata + error;
  (** the chain [fs.PathDir(destDir)], [fs.PathDir] of it, and so on, up
      to the first ["."], which is left out *)
  PathAncestors : string -> list string;
  PathBase : string -> string;
  (** [base.MakeFilepath] and [base.MakeFilename] *)
  MakeFilepath : string -> fileType -> Z -> string;
  MakeFilename : fileType -> Z -> string;
  formatVersionMarkerName : string;
  manifestMarkerName : string
}.

Section Checkpoint.
Variable env : ckEnv.

Definition ck_step (st : ckStep) : CK unit := fun s =>
  match fails env st with
  | Some e => (inr e, s)
  | None => (inl tt, s)
  end.

(** [fs.Stat]: nil when the path exists. *)
Definition statResult (fs : gmap string fsNode) (path : string)
    : option error :=
  match fails env (StepStat path) with
  | Some e => Some e
  | None =>
      match fs !! path with
      | Some _ => None
      | None => Some ErrNotExist
      end
  end.

Definition fsStat (path : string) : CK (option error) := fun s =>
  (inl (statResult (ck_fs s) path),
   {| ck_fs := ck_fs s; ck_trace := ck_trace s ++ [OpStat path];
      ck_disableFileDeletions := ck_disableFileDeletions s |}).

(** [vfs.LinkOrCopy]: the destination gets the content of the source. *)
Definition LinkOrCopy (src dst : string) : CK unit :=
  ck_step (StepLinkOrCopy src dst);;
  ck_log (OpLinkOrCopy src dst);;
  s ← ck_get;
  ck_setFile dst (default (File []) (ck_fs s !! src)).

(** The first loop of [mkdirAllAndSyncParents]: the paths collected and
    whether an existing ancestor was found. *)
Fixpoint collectParents (ancestors : list string) (parentPaths : list string)
    : CK (list string * bool) :=
  match ancestors with
  | [] => mret (parentPaths, false)
  | parentPath :: rest =>
      err ← fsStat parentPath;
      match err with
      | None => mret (parentPaths ++ [parentPath], true)
      | Some e =>
          if negb (errIsNotExist e) then ck_fail e
          else collectParents rest (parentPaths ++ [parentPath])
      end
  end.

Fixpoint syncParents (parentPaths : list string) : CK unit :=
  match parentPaths with
  | [] => mret tt
  | parentPath :: rest =>
      ck_step (StepOpenDir parentPath);;
      ck_step (StepSyncDir parentPath);;
      ck_step (StepCloseDir parentPath);;
      syncParents rest
  end.

Definition mkdirAll (destDir : string) (parents : list string) : CK unit :=
  ck_modify (fun s =>
   {| ck_fs :=
        <[destDir := Dir]>
          (fold_right
             (fun p fs => match fs !! p with
                          | Some _ => fs
                          | None => <[p := Dir]> fs
                          end)
             (ck_fs s) parents);
      ck_trace := ck_trace s ++ [OpMkdirAll destDir];
      ck_disableFileDeletions := ck_disableFileDeletions s |}).

(** [mkdirAllAndSyncParents]: the handle it returns is the path. *)
Definition mkdirAllAndSyncParents (destDir : string) : CK string :=
  '(collected, foundExistingAncestor) ←
    collectParents (PathAncestors env destDir) [];
  let parentPaths :=
    if negb foundExistingAncestor then collected ++ [EmptyString]
    else collected in
  ck_step (StepMkdirAll destDir);;
  mkdirAll destDir collected;;
  syncParents parentPaths;;
  ck_step (StepOpenDir destDir);;
  mret destDir.

(** Modelled from the spec: [record.Reader] is declared in the [record]
    package, outside these sources.  Over a reader limited to [n] bytes it
    yields the records that lie whole within the first [n] bytes. *)
Fixpoint recordsUpTo (n : Z) (src : list (Z * recordData))
    : list recordData :=
  match src with
  | [] => []
  | (len, r) :: rest =>
      if len <=? n then r :: recordsUpTo (n - len) rest else []
  end.

Definition appendRecord (path : string) (r : recordData) : CK unit :=
  s ← ck_get;
  let old := match ck_fs s !! path with
             | Some (File c) => c
             | _ => []
             end in
  ck_setFile path (File (old ++ [r])).

(** The loop that copies the records, one [r.Next], [w.Next] and
    [io.Copy] for each. *)
Fixpoint copyRecords (destPath : string) (i : nat) (rs : list recordData)
    : CK unit :=
  match rs with
  | [] => ck_step (StepReadRecord i)
  | r :: rest =>
      ck_step (StepReadRecord i);;
      ck_step (StepWriterNext i);;
      ck_step (StepCopyRecord i);;
      appendRecord destPath r;;
      copyRecords destPath (S i) rest
  end.

Definition setMarker (dir name value : string) : CK unit :=
  ck_step (StepLocateMarker dir name);;
  ck_step (StepMoveMarker dir name);;
  ck_log (OpSetMarker dir name value);;
  ck_step (StepCloseMarker dir name).

(** [writeCheckpointManifest]. *)
Definition writeCheckpointManifest (d : DB) (destDirPath : string)
    (manifestFileNum : Z) (manifestSize : Z)
    (excludedFiles : gmap (Z * Z) fileMetadata)
    (removeBackingTables : list Z) : CK unit :=
  let srcPath := MakeFilepath env (dirname d) fileTypeManifest manifestFileNum in
  let destPath := PathJoin destDirPath (PathBase env srcPath) in
  ck_step (StepOpen srcPath);;
  ck_step (StepCreate destPath);;
  ck_log (OpCreate destPath);;
  ck_setFile destPath (File []);;
  let rs := recordsUpTo manifestSize (manifest d) in
  copyRecords destPath 0 rs;;
  (if (0 <? size excludedFiles)%nat then
     let ve := {| DeletedFiles := excludedFiles; NewFiles := [];
                  RemovedBackingTables := removeBackingTables |} in
     ck_step (StepWriterNext (length rs));;
     ck_step StepEncode;;
     appendRecord destPath (Encoded ve)
   else mret tt);;
  ck_step StepCloseWriter;;
  ck_step (StepSyncFile destPath);;
  setMarker destDirPath (manifestMarkerName env)
    (MakeFilename env fileTypeManifest manifestFileNum).

(** What the loop over the sstables accumulates. *)
Record tablesAcc := {
  excludedFiles : gmap (Z * Z) fileMetadata;
  remoteFiles : list Z;
  requiredVirtualBackingFiles : gset Z
}.

(** One file of the loop over the sstables.  The links and copies run in
    goroutines in the source; the model takes the schedule in which each
    one ends before the loop goes on. *)
Definition checkpointFile (d : DB) (opt : checkpointOptions)
    (destDir : string) (l : Z) (f : fileMetadata) (acc : tablesAcc)
    : CK tablesAcc :=
  if excludeFromCheckpoint f opt (db_cmp d) then
    mret {| excludedFiles := <[(l, FileNum f) := f]> (excludedFiles acc);
            remoteFiles := remoteFiles acc;
            requiredVirtualBackingFiles := requiredVirtualBackingFiles acc |}
  else if Virtual f
          && bool_decide (BackingDiskFileNum f ∈ requiredVirtualBackingFiles acc)
  then mret acc
  else
    let acc1 :=
      if Virtual f then
        {| excludedFiles := excludedFiles acc;
           remoteFiles := remoteFiles acc;
           requiredVirtualBackingFiles :=
             {[ BackingDiskFileNum f ]} ∪ requiredVirtualBackingFiles acc |}
      else acc in
    match objLookup env (BackingDiskFileNum f) with
    | inr err => ck_fail err
    | inl meta =>
        if omIsRemote meta then
          mret {| excludedFiles := excludedFiles acc1;
                  remoteFiles := remoteFiles acc1 ++ [omDiskFileNum meta];
                  requiredVirtualBackingFiles :=
                    requiredVirtualBackingFiles acc1 |}
        else
          let srcPath :=
            MakeFilepath env (dirname d) fileTypeTable (BackingDiskFileNum f) in
          LinkOrCopy srcPath (PathJoin destDir (PathBase env srcPath));;
          mret acc1
    end.

Fixpoint checkpointLevel (d : DB) (opt : checkpointOptions)
    (destDir : string) (l : Z) (fs : LevelSlice) (acc : tablesAcc)
    : CK tablesAcc :=
  match fs with
  | [] => mret acc
  | f :: rest =>
      acc' ← checkpointFile d opt destDir l f acc;
      checkpointLevel d opt destDir l rest acc'
  end.

Fixpoint checkpointLevels (d : DB) (opt : checkpointOptions)
    (destDir : string) (l : Z) (levels : list LevelSlice) (acc : tablesAcc)
    : CK tablesAcc :=
  match levels with
  | [] => mret acc
  | fs :: rest =>
      acc' ← checkpointLevel d opt destDir l fs acc;
      checkpointLevels d opt destDir (l + 1) rest acc'
  end.

(** The backings that no virtual sstable of the checkpoint requires.  A Go
    map is ranged over in no fixed order; the model takes the order of
    [elements]. *)
Definition removeBackingTablesOf (virtualBackingFiles required : gset Z)
    : list Z :=
  List.filter (fun n => bool_decide (n ∉ required))
    (elements virtualBackingFiles).

Fixpoint copySegments (destDir : string) (segs : list string) : CK unit :=
  match segs with
  | [] => mret tt
  | srcPath :: rest =>
      ck_step (StepCopyWAL srcPath (PathJoin destDir (PathBase env srcPath)));;
      ck_log (OpLinkOrCopy srcPath (PathJoin destDir (PathBase env srcPath)));;
      ck_setFile (PathJoin destDir (PathBase env srcPath)) (File []);;
      copySegments destDir rest
  end.

Fixpoint copyWALs (d : DB) (destDir : string) (logNums : list Z) : CK unit :=
  match logNums with
  | [] => mret tt
  | logNum :: rest =>
      match logSegments d !! logNum with
      | None => ck_fail (Errorf "log not found")
      | Some segs =>
          copySegments destDir segs;;
          copyWALs d destDir rest
      end
  end.

Definition addDisableFileDeletions (n : Z) (s : ckState) : ckState :=
  {| ck_fs := ck_fs s; ck_trace := ck_trace s;
     ck_disableFileDeletions := ck_disableFileDeletions s + n |}.

(** The part of [Checkpoint] that follows the deferred cleanup. *)
Definition checkpointBody (d : DB) (opt : checkpointOptions)
    (destDir : string) : CK unit :=
  dir ← mkdirAllAndSyncParents destDir;
  (let srcPath := MakeFilepath env (dirname d) fileTypeOptions (optionsFileNum d) in
   LinkOrCopy srcPath (PathJoin destDir (PathBase env srcPath)));;
  setMarker destDir (formatVersionMarkerName env) (formatVersString d);;
  acc ← checkpointLevels d opt destDir 0 (currentVersion_Levels d)
          {| excludedFiles := ∅; remoteFiles := [];
             requiredVirtualBackingFiles := ∅ |};
  let removeBackingTables :=
    removeBackingTablesOf (list_to_set (virtualBackings d))
      (requiredVirtualBackingFiles acc) in
  writeCheckpointManifest d destDir (manifestFileNum d) (manifestSize d)
    (excludedFiles acc) removeBackingTables;;
  (if (0 <? length (remoteFiles acc))%nat
   then ck_step StepCheckpointState else mret tt);;
  copyWALs d destDir
    (List.filter (fun n => negb (n =? 0)) (mem_queue_logNums d));;
  ck_step (StepSyncDir dir);;
  ck_step (StepCloseDir dir).

(** The options with which [Checkpoint] runs: the functions applied in
    order to the zero value, and the concurrency sanitized. *)
Definition checkpointOptionsOf (opts : list CheckpointOption)
    : checkpointOptions :=
  let opt :=
    fold_left (fun o fn => fn o) opts
      {| flushWAL := false; restrictToSpans := [];
         concurrentLinkOrCopy := 0 |} in
  if concurrentLinkOrCopy opt =? 0 then ConcurrentLinkOrCopy 1 opt else opt.

(** [Checkpoint]: its error ([inl tt] is nil) and the state it leaves. *)
Definition Checkpoint (d : DB) (destDir : string)
    (opts : list CheckpointOption) : CK unit :=
  let opt := checkpointOptionsOf opts in
  err ← fsStat destDir;
  if negb (IsNotExist err) then
    match err with
    | None => ck_fail (PathError "checkpoint" destDir ErrExist)
    | Some e => ck_fail e
    end
  else
    (if flushWAL opt && negb (opts_DisableWAL d)
     then ck_step StepLogData else mret tt);;
    ck_modify (addDisableFileDeletions 1);;
    ck_defer
      (ck_step StepListLogs;;
       ck_defer (checkpointBody d opt destDir)
         (fun ckErr s =>
            match ckErr with
            | inr _ => removeAll destDir s
            | inl _ => s
            end))
      (fun _ s => addDisableFileDeletions (-1) s).
End Checkpoint.

(** * More of compaction.go *)

(** ** The user comparer as an order

    The functions below search or scan key ranges that the callers keep
    sorted; what they guarantee rests on the comparer being a total
    preorder, as [base.Compare] requires. *)

Record TotalOrder (cmp : Compare) : Prop := {
  cmp_antisym : forall a b, Z.sgn (cmp b a) = - Z.sgn (cmp a b);
  cmp_trans : forall a b c, cmp a b <= 0 -> cmp b c <= 0 -> cmp a c <= 0
}.

(** The in-use key ranges as [CalculateInuseKeyRanges] returns them: every
    range well formed, the ranges in ascending order, neither overlapping
    nor abutting. *)
Definition rangesSorted (cmp : Compare) (rs : list UserKeyRange) : Prop :=
  Forall (fun r => cmp (Start r) (End_ r) <= 0) rs
  /\ StronglySorted (fun r1 r2 => cmp (End_ r1) (Start r2) < 0) rs.

(** The user key [key] lies within the range [r], bounds included. *)
Definition rangeContains (cmp : Compare) (r : UserKeyRange) (key : Bytes)
    : Prop :=
  cmp (Start r) key <= 0 /\ cmp key (End_ r) <= 0.

(** The range [r] and the keys from [start] to [end_] have a key in
    common. *)
Definition rangeOverlaps (cmp : Compare) (r : UserKeyRange)
    (start end_ : Bytes) : Prop :=
  cmp start (End_ r) <= 0 /\ cmp (Start r) end_ <= 0.

(** ** Output limits (compaction.go, [findGrandparentLimit],
    [findL0Limit]) *)

Section OutputLimits.
Variable cmp : Compare.

(** The loop of [findGrandparentLimit] over the files that the iterator
    yields from [SeekGE] on. *)
Fixpoint findGrandparentLimit_loop (maxOverlap : Z) (start : Bytes)
    (fs : list fileMetadata) (overlappedBytes : Z) (greater : bool)
    : Bytes :=
  match fs with
  | [] => None
  | f :: rest =>
      let overlappedBytes := uint64_add overlappedBytes (Size f) in
      let greater := greater || (cmp (UserKey (Smallest f)) start >? 0) in
      if negb greater then
        findGrandparentLimit_loop maxOverlap start rest overlappedBytes greater
      else if overlappedBytes >? maxOverlap then UserKey (Smallest f)
      else
        findGrandparentLimit_loop maxOverlap start rest overlappedBytes greater
  end.

(** [findGrandparentLimit].  [SeekGE] is [LevelIterator.SeekGE] of the
    [manifest] package: the files of the slice from the one it positions
    the iterator at. *)
Definition findGrandparentLimit
    (SeekGE : Compare -> Bytes -> LevelSlice -> LevelSlice)
    (c : compaction) (start : Bytes) : Bytes :=
  findGrandparentLimit_loop (maxOverlapBytes c) start
    (SeekGE cmp start (grandparents c)) 0 false.

(** [findL0Limit].  [l0Limits] is the field [c.l0Limits]; the outer
    [None] is the panic of a nil [startLevel] or [outputLevel]. *)
Definition findL0Limit (c : compaction) (l0Limits : list Bytes)
    (start : Bytes) : option Bytes :=
  match levelAt c (startLevel c) with
  | None => None
  | Some sl =>
      if level sl >? -1 then Some None
      else
        match levelAt c (outputLevel c) with
        | None => None
        | Some ol =>
            if negb (level ol =? 0) || (length l0Limits =? 0)%nat
            then Some None
            else
              let n := Z.of_nat (length l0Limits) in
              let index :=
                sort_Search n
                  (fun i => cmp (nth (Z.to_nat i) l0Limits None) start >? 0) in
              if index <? n then Some (nth (Z.to_nat index) l0Limits None)
              else Some None
        end
  end.
End OutputLimits.

(** The file [f], coming after the files [pre] in the iteration of
    [findGrandparentLimit], starts above [start] and brings the bytes
    overlapped so far beyond [maxOverlap]. *)
Definition overlapExceeded (cmp : Compare) (maxOverlap : Z) (start : Bytes)
    (pre : list fileMetadata) (f : fileMetadata) : Prop :=
  cmp (UserKey (Smallest f)) start > 0
  /\ SizeSum (pre ++ [f]) > maxOverlap.

(** Files in ascending order of their smallest user key. *)
Definition filesSorted (cmp : Compare) (fs : list fileMetadata) : Prop :=
  StronglySorted
    (fun f g => cmp (UserKey (Smallest f)) (UserKey (Smallest g)) <= 0) fs.

(** ** The type of a deletion hint (compaction.go,
    [compactionHintFromKeys]) *)

(** The values of [deleteCompactionHintType], a [uint8] on which the
    source uses the bitwise or. *)
Definition hintTypeCode (t : deleteCompactionHintType) : Z :=
  match t with
  | deleteCompactionHintTypeUnknown => 0
  | deleteCompactionHintTypePointKeyOnly => 1
  | deleteCompactionHintTypeRangeKeyOnly => 2
  | deleteCompactionHintTypePointAndRangeKey => 3
  end.

(** The hint type of a code; the codes above 3 are not reached by the or
    of the four constants. *)
Definition hintTypeOfCode (z : Z) : deleteCompactionHintType :=
  if z =? 0 then deleteCompactionHintTypeUnknown
  else if z =? 1 then deleteCompactionHintTypePointKeyOnly
  else if z =? 2 then deleteCompactionHintTypeRangeKeyOnly
  else deleteCompactionHintTypePointAndRangeKey.

Definition hintTypeOr (a b : deleteCompactionHintType)
    : deleteCompactionHintType :=
  hintTypeOfCode (Z.lor (hintTypeCode a) (hintTypeCode b)).

Fixpoint compactionHintFromKeys_loop (keys : list keyspan_Key)
    (hintType : deleteCompactionHintType)
    : option deleteCompactionHintType :=
  match keys with
  | [] => Some hintType
  | k :: rest =>
      match kKind k with
      | InternalKeyKindRangeDelete =>
          compactionHintFromKeys_loop rest
            (hintTypeOr hintType deleteCompactionHintTypePointKeyOnly)
      | InternalKeyKindRangeKeyDelete =>
          compactionHintFromKeys_loop rest
            (hintTypeOr hintType deleteCompactionHintTypeRangeKeyOnly)
      | _ => None
      end
  end.

(** [compactionHintFromKeys]: [None] is the panic on a key of another
    kind. *)
Definition compactionHintFromKeys (keys : list keyspan_Key)
    : option deleteCompactionHintType :=
  compactionHintFromKeys_loop keys deleteCompactionHintTypeUnknown.

(** ** Resolving the deletion hints (compaction.go,
    [checkDeleteCompactionHints]) *)

(** The two variables that the loops of [checkDeleteCompactionHints]
    update: the set [files], keyed by the file (its number), and the array
    [byLevel]. *)
Record hintScan := {
  hs_files : gset Z;
  hs_byLevel : list (list fileMetadata)
}.

Section CheckDeleteCompactionHints.
Variable cmp : Compare.
(** [manifest.NewLevelSliceKeySorted], of the [manifest] package. *)
Variable NewLevelSliceKeySorted : Compare -> list fileMetadata -> LevelSlice.
Variable v : version.
Variable st : fileStore.
Variable snapshots : list Z.

(** The loop over the files of a level that overlap the hint.  [None] is
    a panic: of [canDelete], or of an index out of the array. *)
Fixpoint checkHintFiles (h : deleteCompactionHint) (l : Z)
    (ms : list fileMetadata) (acc : hintScan) : option hintScan :=
  match ms with
  | [] => Some acc
  | m :: rest =>
      if IsCompacting st m then checkHintFiles h l rest acc
      else
        match canDelete cmp h m snapshots with
        | None => None
        | Some false => checkHintFiles h l rest acc
        | Some true =>
            if bool_decide (FileNum m ∈ hs_files acc)
            then checkHintFiles h l rest acc
            else if l <? 0 then None
            else
              match hs_byLevel acc !! Z.to_nat l with
              | None => None
              | Some fs =>
                  checkHintFiles h l rest
                    {| hs_files := {[ FileNum m ]} ∪ hs_files acc;
                       hs_byLevel :=
                         <[Z.to_nat l := fs ++ [m]]> (hs_byLevel acc) |}
              end
        end
  end.

(** The loop [for l := h.tombstoneLevel + 1; l < numLevels; l++], over the
    levels still to visit. *)
Fixpoint checkHintLevels (h : deleteCompactionHint) (ls : list Z)
    (acc : hintScan) : option hintScan :=
  match ls with
  | [] => Some acc
  | l :: rest =>
      match checkHintFiles h l
              (Overlaps v l (UserKeyBoundsEndExclusive (start h) (end_ h)))
              acc with
      | None => None
      | Some acc' => checkHintLevels h rest acc'
      end
  end.

(** The levels from [l] up to [numLevels - 1]. *)
Definition levelsFrom (l : Z) : list Z :=
  map (fun i => l + Z.of_nat i) (seq 0 (Z.to_nat (numLevels - l))).

Definition hintResolvable (h : deleteCompactionHint) : bool :=
  (Snapshots_Index snapshots (tombstoneLargestSeqNum h)
   =? Snapshots_Index snapshots (fileSmallestSeqNum h))%nat.

(** The loop over the hints.  [unresolvedHints] shares the array of the
    hints and is never longer than the part already read. *)
Fixpoint checkHints (hints unresolvedHints : list deleteCompactionHint)
    (acc : hintScan) : option (hintScan * list deleteCompactionHint) :=
  match hints with
  | [] => Some (acc, unresolvedHints)
  | h :: rest =>
      if negb (hintResolvable h) then
        checkHints rest (unresolvedHints ++ [h]) acc
      else
        match checkHintLevels h (levelsFrom (tombstoneLevel h + 1)) acc with
        | None => None
        | Some acc' => checkHints rest unresolvedHints acc'
        end
  end.

(** The last loop, over [byLevel] from level [l] on. *)
Fixpoint compactLevelsOf (l : Z) (byLevel : list (list fileMetadata))
    : list compactionLevel :=
  match byLevel with
  | [] => []
  | fs :: rest =>
      if (length fs =? 0)%nat then compactLevelsOf (l + 1) rest
      else {| level := l; files := NewLevelSliceKeySorted cmp fs |}
           :: compactLevelsOf (l + 1) rest
  end.

(** [checkDeleteCompactionHints]: [None] is a panic. *)
Definition checkDeleteCompactionHints (hints : list deleteCompactionHint)
    : option (list compactionLevel * list deleteCompactionHint) :=
  match checkHints hints []
          {| hs_files := ∅;
             hs_byLevel := replicate (Z.to_nat numLevels) [] |} with
  | None => None
  | Some (acc, unresolvedHints) =>
      Some (compactLevelsOf 0 (hs_byLevel acc), unresolvedHints)
  end.
End CheckDeleteCompactionHints.

(** ** Delete-only compactions (compaction.go,
    [runDeleteOnlyCompaction]) *)

Definition deleteLevelFiles (l : Z) (fs : LevelSlice)
    (deleted : gmap (Z * Z) fileMetadata) : gmap (Z * Z) fileMetadata :=
  fold_left (fun m f => <[(l, FileNum f) := f]> m) fs deleted.

(** The loop over the inputs: the files deleted and the metrics. *)
Fixpoint deleteInputs (ins : list compactionLevel)
    (deleted : gmap (Z * Z) fileMetadata) (metrics : gmap Z LevelMetrics)
    : gmap (Z * Z) fileMetadata * gmap Z LevelMetrics :=
  match ins with
  | [] => (deleted, metrics)
  | cl :: rest =>
      deleteInputs rest (deleteLevelFiles (level cl) (files cl) deleted)
        (<[level cl := {| BytesMoved := 0; TablesMoved := 0 |}]> metrics)
  end.

(** [runDeleteOnlyCompaction]. *)
Definition runDeleteOnlyCompaction (c : compaction) : runResult :=
  let '(deleted, metrics) := deleteInputs (inputs c) ∅ ∅ in
  {| r_ve := Some {| DeletedFiles := deleted; NewFiles := [];
                     RemovedBackingTables := [] |};
     r_pendingOutputs := []; r_err := None; r_metrics := Some metrics |}.

(** The hint [h] allows the deletion of the file [m] of level [l]: the
    hint is resolvable, the level lies below the tombstone's, the file
    overlaps the span of the hint in the version, is not being compacted,
    and [canDelete] holds. *)
Definition hintCovers (cmp : Compare) (v : version) (st : fileStore)
    (snapshots : list Z) (h : deleteCompactionHint) (l : Z)
    (m : fileMetadata) : Prop :=
  hintResolvable snapshots h = true
  /\ tombstoneLevel h < l < numLevels
  /\ In m (Overlaps v l (UserKeyBoundsEndExclusive (start h) (end_ h)))
  /\ IsCompacting st m = false
  /\ canDelete cmp h m snapshots = Some true.

(** The type of hint of a list of keys that are all range deletions or
    range key deletions. *)
Definition hintTypeOfKinds (hasRangeDel hasRangeKeyDel : bool)
    : deleteCompactionHintType :=
  match hasRangeDel, hasRangeKeyDel with
  | true, true => deleteCompactionHintTypePointAndRangeKey
  | true, false => deleteCompactionHintTypePointKeyOnly
  | false, true => deleteCompactionHintTypeRangeKeyOnly
  | false, false => deleteCompactionHintTypeUnknown
  end.

(** The file [f] of level [l] belongs to the inputs [ins]. *)
Definition inputFileAt (ins : list compactionLevel) (l : Z)
    (f : fileMetadata) : Prop :=
  exists cl, In cl ins /\ level cl = l /\ In f (files cl).

(** What the loops of [checkDeleteCompactionHints] keep true of [files]
    and [byLevel]: the array has its length, every file in it is covered
    by one of the hints at the level of its entry, [files] holds the
    numbers of the files in the array, and no number twice. *)
Definition hintScanInv (cmp : Compare) (v : version) (st : fileStore)
    (snapshots : list Z) (hints : list deleteCompactionHint)
    (acc : hintScan) : Prop :=
  length (hs_byLevel acc) = Z.to_nat numLevels
  /\ (forall i fs m,
        hs_byLevel acc !! i = Some fs -> In m fs ->
        exists h, In h hints
                  /\ hintCovers cmp v st snapshots h (Z.of_nat i) m)
  /\ (forall n, n ∈ hs_files acc
                <-> In n (map FileNum (concat (hs_byLevel acc))))
  /\ NoDup (map FileNum (concat (hs_byLevel acc))).

(** ** Starting a compaction (compaction.go, [addInProgressCompaction],
    [newDeleteOnlyCompaction], [tryScheduleDeleteOnlyCompaction]) *)

(** How [addInProgressCompaction] ends: a nil dereference while the
    arguments of [Fatalf] are evaluated, a [Fatalf] that ends the process,
    or a return, with the store, the files that were reported as already
    being compacted and the arguments of the call, if any, of
    [UpdateStateForStartedCompaction]. *)
Inductive addOutcome :=
| AddPanicked
| AddExited
| AddReturned (st : fileStore) (reported : list Z)
    (l0Update : option (list LevelSlice * bool)).

(** The locals [isBase] and [isIntraL0]. *)
Record addFlags := {
  isBase : bool;
  isIntraL0 : bool
}.

Section AddInProgressCompaction.
(** Whether [Logger.Fatalf] ends the process. *)
Variable fatalExits : bool.
(** [c.version.L0Sublevels.UpdateStateForStartedCompaction], of the
    [manifest] package; [None] for a nil [L0Sublevels]. *)
Variable UpdateStateForStartedCompaction :
  option (list LevelSlice -> bool -> option error).

(** The marks that one file gets. *)
Definition addFile (c : compaction) (st : fileStore) (flags : addFlags)
    (f : fileMetadata) : fileStore * addFlags :=
  let st1 := SetCompactionState st f CompactionStateCompacting in
  match levelAt c (startLevel c), levelAt c (outputLevel c) with
  | Some sl, Some ol =>
      if level sl =? 0 then
        if level ol =? 0 then
          (<[FileNum f := {| fsCompactionState :=
                               fsCompactionState (st1 (FileNum f));
                             IsIntraL0Compacting := true |}]> st1,
           {| isBase := isBase flags; isIntraL0 := true |})
        else (st1, {| isBase := true; isIntraL0 := isIntraL0 flags |})
      else (st1, flags)
  | _, _ => (st1, flags)
  end.

Inductive addLoop :=
| LoopPanicked
| LoopExited
| LoopDone (st : fileStore) (flags : addFlags) (reported : list Z).

Fixpoint addFiles (c : compaction) (fs : LevelSlice) (st : fileStore)
    (flags : addFlags) (reported : list Z) : addLoop :=
  match fs with
  | [] => LoopDone st flags reported
  | f :: fs' =>
      if IsCompacting st f then
        match levelAt c (startLevel c), levelAt c (outputLevel c) with
        | Some _, Some _ =>
            if fatalExits then LoopExited
            else
              let '(st', flags') := addFile c st flags f in
              addFiles c fs' st' flags' (reported ++ [FileNum f])
        | _, _ => LoopPanicked
        end
      else
        let '(st', flags') := addFile c st flags f in
        addFiles c fs' st' flags' reported
  end.

Fixpoint addLevels (c : compaction) (ins : list compactionLevel)
    (st : fileStore) (flags : addFlags) (reported : list Z) : addLoop :=
  match ins with
  | [] => LoopDone st flags reported
  | cl :: ins' =>
      match addFiles c (files cl) st flags reported with
      | LoopDone st' flags' reported' => addLevels c ins' st' flags' reported'
      | other => other
      end
  end.

(** [addInProgressCompaction].  The set [d.mu.compact.inProgress], which
    the function extends by [c], is not read by the functions modelled
    here. *)
Definition addInProgressCompaction (c : compaction) (st : fileStore)
    : addOutcome :=
  match addLevels c (inputs c) st
          {| isBase := false; isIntraL0 := false |} [] with
  | LoopPanicked => AddPanicked
  | LoopExited => AddExited
  | LoopDone st' flags reported =>
      match UpdateStateForStartedCompaction with
      | Some update =>
          if isIntraL0 flags || isBase flags then
            match levelAt c (startLevel c), levelAt c (outputLevel c) with
            | Some sl, Some ol =>
                let l0Inputs :=
                  if isIntraL0 flags then [files sl; files ol]
                  else [files sl] in
                match update l0Inputs (isBase flags) with
                | Some _ =>
                    if fatalExits then AddExited
                    else AddReturned st' reported
                           (Some (l0Inputs, isBase flags))
                | None =>
                    AddReturned st' reported (Some (l0Inputs, isBase flags))
                end
            | _, _ => AddPanicked
            end
          else AddReturned st' reported None
      | None => AddReturned st' reported None
      end
  end.

(** [manifest.KeyRange], of the [manifest] package: the smallest and the
    largest key of the files. *)
Variable KeyRange : Compare -> list LevelSlice -> InternalKey * InternalKey.

(** [newDeleteOnlyCompaction]: the fields not assigned are the zero
    values. *)
Definition newDeleteOnlyCompaction (cmp : Compare)
    (ins : list compactionLevel) : compaction :=
  let '(sm, lg) := KeyRange cmp (map files ins) in
  {| kind := compactionKindDeleteOnly; cancel := false; inputs := ins;
     startLevel := None; outputLevel := None; extraLevels := [];
     maxOutputFileSize := 0; maxOverlapBytes := 0;
     disableSpanElision := false; flushing := [];
     smallest := sm; largest := lg; grandparents := [];
     inuseKeyRanges := []; inuseEntireRange := false;
     elideTombstoneIndex := 0%nat; allowedZeroSeqNum := false |}.

(** The sum of two [int] values, 64 bits wide, with its wrap-around. *)
Definition int_add (a b : Z) : Z := (a + b + 2 ^ 63) mod 2 ^ 64 - 2 ^ 63.

(** What [tryScheduleDeleteOnlyCompaction] reads and writes of [d.mu]. *)
Record scheduleState := {
  deletionHints : list deleteCompactionHint;
  compactingCount : Z;
  sched_files : fileStore
}.

(** How [tryScheduleDeleteOnlyCompaction] ends: a panic, the end of the
    process, or the state left and the compaction handed to the goroutine
    that runs [d.compact], if any. *)
Inductive scheduleOutcome :=
| SchedulePanicked
| ScheduleExited
| Scheduled (s : scheduleState) (started : option compaction).

Definition tryScheduleDeleteOnlyCompaction (cmp : Compare)
    (NewLevelSliceKeySorted : Compare -> list fileMetadata -> LevelSlice)
    (v : version) (snapshots : list Z) (s : scheduleState)
    : scheduleOutcome :=
  match checkDeleteCompactionHints cmp NewLevelSliceKeySorted v
          (sched_files s) snapshots (deletionHints s) with
  | None => SchedulePanicked
  | Some (ins, unresolvedHints) =>
      if (0 <? length ins)%nat then
        let c := newDeleteOnlyCompaction cmp ins in
        match addInProgressCompaction c (sched_files s) with
        | AddPanicked => SchedulePanicked
        | AddExited => ScheduleExited
        | AddReturned st' _ _ =>
            Scheduled {| deletionHints := unresolvedHints;
                         compactingCount := int_add (compactingCount s) 1;
                         sched_files := st' |} (Some c)
        end
      else
        Scheduled {| deletionHints := unresolvedHints;
                     compactingCount := compactingCount s;
                     sched_files := sched_files s |} None
  end.
End AddInProgressCompaction.

(** ** What the loop of a checkpoint over the sstables links *)

(** The operations added to the trace are links or copies of sstables of
    [levels] that the options do not exclude and that are not remote,
    each to its base name in [destDir]. *)
Definition linksIncludedTables (env : ckEnv) (d : DB)
    (opt : checkpointOptions) (destDir : string)
    (levels : list LevelSlice) (ops : list fsOp) : Prop :=
  Forall
    (fun op =>
       exists fs f meta,
         In fs levels /\ In f fs
         /\ excludeFromCheckpoint f opt (db_cmp d) = false
         /\ objLookup env (BackingDiskFileNum f) = inl meta
         /\ omIsRemote meta = false
         /\ op = OpLinkOrCopy
                   (MakeFilepath env (dirname d) fileTypeTable
                      (BackingDiskFileNum f))
                   (PathJoin destDir
                      (PathBase env
                         (MakeFilepath env (dirname d) fileTypeTable
                            (BackingDiskFileNum f)))))
    ops.

(** ** The loop of [runCompaction] that writes the outputs (compaction.go,
    [runCompaction]) *)

(** Modelled from the spec: [compact.Iter] and the interleaving iterators
    are declared outside these sources.  The compaction iterator hands out
    its keys one by one; at the key of a range deletion or of a range key
    the interleaving iterator holds the span of that key, which the loop
    registers with the iterator: [AddTombstoneSpan] and [AddRangeKeySpan]
    put it behind the pending spans.  An entry is a key with the span held
    at it; the span is read at a range deletion or a range key only. *)
Record iterEntry := {
  ieKey : InternalKey;
  ieSpan : keyspan_Span
}.

Definition AddTombstoneSpan (st : outputState) (s : keyspan_Span)
    : outputState :=
  set_pending st (pendingTombstones st ++ [s]) (pendingRangeKeys st).

Definition AddRangeKeySpan (st : outputState) (s : keyspan_Span)
    : outputState :=
  set_pending st (pendingTombstones st) (pendingRangeKeys st ++ [s]).

(** What the loop asks outside the package.  The output splitter is
    declared in the [compact] package: its answers are parameters, which
    may depend on how far the run has come (the keys left, the first of
    which is the key asked about, and the state of the outputs);
    [ShouldSplitBefore] is true for [compact.SplitNow].  [addErr] is the
    error of [Writer.AddWithForceObsolete]. *)
Record loopExternals := {
  OnNewOutput : list iterEntry -> outputState -> Bytes -> Bytes;
  ShouldSplitBefore : list iterEntry -> outputState -> InternalKey -> bool;
  addErr : Writer -> InternalKey -> option error
}.

Definition addPoint (w : Writer) (k : InternalKey) : Writer :=
  {| wPoints := wPoints w ++ [k]; wRangeDels := wRangeDels w;
     wRangeKeys := wRangeKeys w; wSize := wSize w |}.

Definition isRangeKeyKind (k : InternalKeyKind) : bool :=
  match k with
  | InternalKeyKindRangeKeySet
  | InternalKeyKindRangeKeyUnset
  | InternalKeyKindRangeKeyDelete => true
  | _ => false
  end.

(** How the outer loop ends: [RunPanicked] is the panic of
    [finishOutput]; [RunOutOfFuel] is no end within the given number of
    iterations, the splitter being what makes the loop advance. *)
Inductive runOutcome :=
| RunOutOfFuel
| RunPanicked
| RunReturned (st : outputState) (err : option error).

(** The variables of [runCompaction] when the loop starts: no writer, no
    output and nothing pending; [n] is the next file number of the
    database. *)
Definition startOutput (n : Z) : outputState :=
  {| tw := None; pendingTombstones := []; pendingRangeKeys := [];
     ve_NewFiles := []; pendingOutputs := []; createdFiles := [];
     nextFileNum := n |}.

Section RunLoop.
Variable cmp : Compare.
Variable ext : externals.
Variable lx : loopExternals.

(** The inner loop, one key per iteration: the keys left, the first of
    which is the key of the break when a split is asked for, the state
    and the error. *)
Fixpoint addKeys (c : compaction) (input : list iterEntry)
    (st : outputState) : list iterEntry * outputState * option error :=
  match input with
  | [] => ([], st, None)
  | e :: rest =>
      let key := ieKey e in
      if ShouldSplitBefore lx input st key then (input, st, None)
      else if bool_decide (Kind key = InternalKeyKindRangeDelete) then
        addKeys c rest (AddTombstoneSpan st (ieSpan e))
      else if isRangeKeyKind (Kind key) then
        addKeys c rest (AddRangeKeySpan st (ieSpan e))
      else
        let '(st1, err) :=
          match tw st with
          | None => newOutput ext c st
          | Some _ => (st, None)
          end in
        match err, tw st1 with
        | Some er, _ => (input, st1, Some er)
        | None, None => (input, st1, None)
        | None, Some w =>
            match addErr lx w key with
            | Some er => (input, st1, Some er)
            | None => addKeys c rest (set_tw st1 (Some (addPoint w key)))
            end
        end
  end.

(** The key at which the pending spans are cut: the suggestion of the
    splitter, or the user key of the next key when that is smaller or
    there is no suggestion. *)
Definition chooseSplitKey (suggestion : Bytes) (input : list iterEntry)
    : Bytes :=
  match input with
  | e :: _ =>
      if isNil suggestion || (cmp suggestion (UserKey (ieKey e)) >? 0)
      then UserKey (ieKey e)
      else suggestion
  | [] => suggestion
  end.

(** The condition of the outer loop: the iterator has a key or a pending
    start key. *)
Definition loopCondition (input : list iterEntry) (st : outputState) : bool :=
  negb (bool_decide (length input = 0%nat))
  || negb (isNil (FirstStart (pendingTombstones st)))
  || negb (isNil (FirstStart (pendingRangeKeys st))).

(** The outer loop, one call of [finishOutput] per iteration. *)
Fixpoint outputLoop (fuel : nat) (c : compaction) (input : list iterEntry)
    (st : outputState) : runOutcome :=
  if loopCondition input st then
    match fuel with
    | O => RunOutOfFuel
    | S fuel' =>
        let firstKey :=
          match input with
          | e :: _ => UserKey (ieKey e)
          | [] => FirstStart (pendingTombstones st)
          end in
        let splitterSuggestion := OnNewOutput lx input st firstKey in
        match addKeys c input st with
        | (_, st1, Some er) => RunReturned st1 (Some er)
        | (input1, st1, None) =>
            let splitKey := chooseSplitKey splitterSuggestion input1 in
            match finishOutput cmp ext c splitKey st1 with
            | None => RunPanicked
            | Some (st2, Some er) => RunReturned st2 (Some er)
            | Some (st2, None) => outputLoop fuel' c input1 st2
            end
        end
    end
  else RunReturned st None.
End RunLoop.

(** * Sample inputs

    The inputs of the repository's test files and of the examples below. *)

Definition ikey (u : string) (seq : Z) (k : InternalKeyKind) : InternalKey :=
  {| UserKey := Some u; SeqNum := seq; Kind := k |}.

Definition sampleFile (num : Z) (sm lg : InternalKey) (smSeq lgSeq : Z)
    : fileMetadata :=
  {| FileNum := num; Size := 100; SmallestSeqNum := smSeq;
     LargestSeqNum := lgSeq; Smallest := sm; Largest := lg;
     HasPointKeys := true; HasRangeKeys := false; Virtual := false;
     BackingDiskFileNum := num |}.

Definition sampleCompaction (k : compactionKind)
    (ins : list compactionLevel) (fl : list flushableEntry)
    (sm lg : InternalKey) : compaction :=
  {| kind := k; cancel := false; inputs := ins;
     startLevel := Some 0%nat; outputLevel := Some 1%nat;
     extraLevels := [];
     maxOutputFileSize := 2 ^ 64 - 1; maxOverlapBytes := 2 ^ 64 - 1;
     disableSpanElision := false; flushing := fl;
     smallest := sm; largest := lg; grandparents := [];
     inuseKeyRanges := []; inuseEntireRange := false;
     elideTombstoneIndex := 0%nat; allowedZeroSeqNum := false |}.

Definition sampleFlush : compaction :=
  sampleCompaction compactionKindFlush
    [ {| level := -1; files := [] |}; {| level := 0; files := [] |} ]
    [ {| isIngestedFlushable := false; inuseBytes := 4096 |} ]
    (ikey "a" 5 InternalKeyKindSet) (ikey "z" 9 InternalKeyKindSet).

(** The hint of the graphic above [checkDeleteCompactionHints]: tombstones
    at 200 to 230 over [[b, r)], recorded for a file reaching down to 90. *)
Definition sampleHint (t : deleteCompactionHintType) : deleteCompactionHint :=
  {| hintType := t; start := Some "b"; end_ := Some "r";
     tombstoneLevel := 0; tombstoneFile := 7;
     tombstoneLargestSeqNum := 230; tombstoneSmallestSeqNum := 200;
     fileSmallestSeqNum := 90 |}.

(** ** The words of the specification about hint invalidation *)

(** All the input files of a compaction. *)
Definition inputFiles (c : compaction) : list fileMetadata :=
  flat_map files (inputs c).

(** The span [[start, end]] of the hint overlaps the key bounds of the
    compaction. *)
Definition hintOverlapsCompaction (cmp : Compare) (h : deleteCompactionHint)
    (c : compaction) : bool :=
  (cmp (end_ h) (UserKey (smallest c)) >=? 0)
  && (cmp (start h) (UserKey (largest c)) <=? 0).

(** Some input file is as recent as the oldest tombstone of the hint. *)
Definition someInputAsRecent (h : deleteCompactionHint) (c : compaction)
    : bool :=
  existsb (fun f => LargestSeqNum f >=? tombstoneSmallestSeqNum h)
    (inputFiles c).

Definition hintDropped (cmp : Compare) (c : compaction)
    (h : deleteCompactionHint) : bool :=
  hintOverlapsCompaction cmp h c && someInputAsRecent h c.

Definition withAllowedZeroSeqNum (c : compaction) (b : bool) : compaction :=
  {| kind := kind c; cancel := cancel c; inputs := inputs c;
     startLevel := startLevel c; outputLevel := outputLevel c;
     extraLevels := extraLevels c;
     maxOutputFileSize := maxOutputFileSize c;
     maxOverlapBytes := maxOverlapBytes c;
     disableSpanElision := disableSpanElision c;
     flushing := flushing c; smallest := smallest c; largest := largest c;
     grandparents := grandparents c;
     inuseKeyRanges := inuseKeyRanges c;
     inuseEntireRange := inuseEntireRange c;
     elideTombstoneIndex := elideTombstoneIndex c;
     allowedZeroSeqNum := b |}.

(** A compaction of the keys c to k with inputs up to sequence number 205,
    and three hints: one overlapping with tombstones from 200, one
    disjoint, one overlapping with tombstones from 300. *)
Definition sampleZeroing : compaction :=
  withAllowedZeroSeqNum
    (sampleCompaction compactionKindDefault
       [ {| level := 1;
            files := [ sampleFile 11 (ikey "c" 150 InternalKeyKindSet)
                         (ikey "f" 205 InternalKeyKindSet) 150 205 ] |};
         {| level := 2;
            files := [ sampleFile 12 (ikey "d" 10 InternalKeyKindSet)
                         (ikey "k" 40 InternalKeyKindSet) 10 40 ] |} ]
       [] (ikey "c" 150 InternalKeyKindSet) (ikey "k" 40 InternalKeyKindSet))
    true.

Definition sampleHints : list deleteCompactionHint :=
  [ sampleHint deleteCompactionHintTypePointKeyOnly;
    {| hintType := deleteCompactionHintTypePointKeyOnly;
       start := Some "s"; end_ := Some "t";
       tombstoneLevel := 0; tombstoneFile := 8;
       tombstoneLargestSeqNum := 120; tombstoneSmallestSeqNum := 100;
       fileSmallestSeqNum := 20 |};
    {| hintType := deleteCompactionHintTypeRangeKeyOnly;
       start := Some "a"; end_ := Some "d";
       tombstoneLevel := 0; tombstoneFile := 9;
       tombstoneLargestSeqNum := 320; tombstoneSmallestSeqNum := 300;
       fileSmallestSeqNum := 20 |} ].

(** ** The words of the specification about the compacting state *)

(** The state in which [clearCompactingState] leaves an input file. *)
Definition clearedState (c : compaction) (rollback : bool) : fileState :=
  {| fsCompactionState :=
       if rollback then CompactionStateNotCompacting
       else if bool_decide (kind c = compactionKindMove)
            then CompactionStateNotCompacting
            else CompactionStateCompacted;
     IsIntraL0Compacting := false |}.

(** What a run of [clearCompactingState] over files leaves when it returns:
    the files visited are cleared, the others untouched. *)
Definition clearedOver (c : compaction) (rollback : bool) (nums : list Z)
    (st st' : fileStore) : Prop :=
  forall n, (In n nums -> st' n = clearedState c rollback) /\
            (~ In n nums -> st' n = st n).

(** A store in which the files 11 and 12 are being compacted, 11 as part
    of an intra-L0 compaction. *)
Definition sampleStore : fileStore := fun n =>
  if n =? 11 then {| fsCompactionState := CompactionStateCompacting;
                     IsIntraL0Compacting := true |}
  else if n =? 12 then {| fsCompactionState := CompactionStateCompacting;
                          IsIntraL0Compacting := false |}
  else {| fsCompactionState := CompactionStateNotCompacting;
          IsIntraL0Compacting := false |}.

(** ** Picked compactions *)

Definition MiB : Z := 1048576.

(** A version whose level 3 holds one file of 50 MiB under the keys of the
    compaction, and nothing in use below. *)
Definition sampleVersion : version :=
  {| Overlaps := fun lvl _ =>
       if lvl =? 3 then
         [ {| FileNum := 30; Size := 50 * MiB;
              SmallestSeqNum := 1; LargestSeqNum := 2;
              Smallest := ikey "a" 1 InternalKeyKindSet;
              Largest := ikey "m" 2 InternalKeyKindSet;
              HasPointKeys := true; HasRangeKeys := false;
              Virtual := false; BackingDiskFileNum := 30 |} ]
       else [];
     CalculateInuseKeyRanges := fun _ _ _ _ => [] |}.

Definition sampleMoved : fileMetadata :=
  {| FileNum := 21; Size := 100 * MiB;
     SmallestSeqNum := 5; LargestSeqNum := 9;
     Smallest := ikey "b" 9 InternalKeyKindSet;
     Largest := ikey "k" 5 InternalKeyKindSet;
     HasPointKeys := true; HasRangeKeys := false;
     Virtual := false; BackingDiskFileNum := 21 |}.

(** The trivial move of the specification: one input file of 100 MiB at
    L1, an empty L2, 50 MiB of grandparents, 200 MiB allowed. *)
Definition samplePicked : pickedCompaction :=
  {| pc_cmp := bytes_Compare; pc_kind := compactionKindDefault;
     pc_inputs := [ {| level := 1; files := [sampleMoved] |};
                    {| level := 2; files := [] |} ];
     pc_extraLevels := [];
     pc_smallest := Smallest sampleMoved; pc_largest := Largest sampleMoved;
     pc_version := sampleVersion;
     pc_maxOutputFileSize := 64 * MiB;
     pc_maxOverlapBytes := 200 * MiB |}.

(** A multilevel compaction of L1, L2 and L3: one file at L1, one file at
    the intermediate level L2, an empty output level L3. *)
Definition samplePickedMultilevel : pickedCompaction :=
  {| pc_cmp := bytes_Compare; pc_kind := compactionKindDefault;
     pc_inputs := [ {| level := 1; files := [sampleMoved] |};
                    {| level := 2;
                       files := [ sampleFile 22 (ikey "c" 3 InternalKeyKindSet)
                                    (ikey "d" 4 InternalKeyKindSet) 3 4 ] |};
                    {| level := 3; files := [] |} ];
     pc_extraLevels :=
       [ {| level := 2;
            files := [ sampleFile 22 (ikey "c" 3 InternalKeyKindSet)
                         (ikey "d" 4 InternalKeyKindSet) 3 4 ] |} ];
     pc_smallest := Smallest sampleMoved; pc_largest := Largest sampleMoved;
     pc_version := sampleVersion;
     pc_maxOutputFileSize := 64 * MiB;
     pc_maxOverlapBytes := 200 * MiB |}.

(** No level is created on shared storage. *)
Definition neverShared : Z -> Z -> bool := fun _ _ => false.

Definition sampleLookup : Z -> ObjectMetadata + error := fun n =>
  inl {| omDiskFileNum := n; omIsRemote := false; omIsExternal := false |}.

Definition noCopy : compaction -> fileMetadata -> ObjectMetadata ->
    versionEdit -> list compactionOutput * versionEdit * option error :=
  fun _ _ _ ve => ([], ve, None).

(** ** Outputs *)

Definition noErrors : externals :=
  {| createErr := fun _ => None;
     encodeRangeDelErr := fun _ => None;
     encodeRangeKeyErr := fun _ => None;
     closeErr := fun _ => None;
     metadataErr := fun _ => None;
     validateErr := fun _ => None |}.

(** A compaction from L1 to L2 over the keys a to z. *)
Definition sampleBounds : compaction :=
  sampleCompaction compactionKindDefault
    [ {| level := 1; files := [] |}; {| level := 2; files := [] |} ] []
    (ikey "a" 9 InternalKeyKindSet) (ikey "z" 1 InternalKeyKindSet).

Definition rangeDelSpan (s e : string) (seq : Z) : keyspan_Span :=
  {| spStart := Some s; spEnd := Some e;
     spKeys := [ {| kSeqNum := seq; kKind := InternalKeyKindRangeDelete;
                    Suffix := None; Value := None |} ] |}.

Definition rangeKeySpan (s e : string) (seq : Z) : keyspan_Span :=
  {| spStart := Some s; spEnd := Some e;
     spKeys := [ {| kSeqNum := seq; kKind := InternalKeyKindRangeKeySet;
                    Suffix := Some "@3"; Value := Some "foo" |} ] |}.

(** No writer yet, and one pending range tombstone over [[a, m)]. *)
Definition sampleOut0 : outputState :=
  {| tw := None; pendingTombstones := [rangeDelSpan "a" "m" 7];
     pendingRangeKeys := []; ve_NewFiles := []; pendingOutputs := [];
     createdFiles := []; nextFileNum := 41 |}.

(** A user key within the bounds of a file: the largest key is outside
    when it is an exclusive sentinel. *)
Definition userKeyInBounds (cmp : Compare) (u : Bytes) (m : fileMetadata)
    : Prop :=
  cmp (UserKey (Smallest m)) u <= 0
  /\ (if IsExclusiveSentinel (Largest m)
      then cmp u (UserKey (Largest m)) < 0
      else cmp u (UserKey (Largest m)) <= 0).

(** No writer, a pending range tombstone starting at the split key c and a
    pending range key starting below it, at a. *)
Definition sampleGuarded : outputState :=
  {| tw := None; pendingTombstones := [rangeDelSpan "c" "f" 7];
     pendingRangeKeys := [rangeKeySpan "a" "e" 6]; ve_NewFiles := [];
     pendingOutputs := []; createdFiles := []; nextFileNum := 41 |}.

(** ** The words of the specification about output bounds *)

(** The outputs already finished: all the entries of [ve.NewFiles] but the
    one of the open writer. *)
Definition finishedOutputs (st : outputState) : list newFileEntry :=
  match tw st with
  | Some _ => removelast (ve_NewFiles st)
  | None => ve_NewFiles st
  end.

(** What [finishOutput] has checked of an output [m] that follows the
    output [prev]. *)
Definition outputChecked (cmp : Compare) (ext : externals) (c : compaction)
    (prev : option fileMetadata) (m : fileMetadata) : Prop :=
  (isNil (UserKey (smallest c)) = false ->
   0 <= cmp (UserKey (Smallest m)) (UserKey (smallest c)))
  /\ (isNil (UserKey (largest c)) = false ->
      cmp (UserKey (Largest m)) (UserKey (largest c)) <= 0)
  /\ (forall p, prev = Some p ->
      IsExclusiveSentinel (Largest p) = false ->
      cmp (UserKey (Largest p)) (UserKey (Smallest m)) < 0)
  /\ validateErr ext m = None.

Fixpoint outputsChecked (cmp : Compare) (ext : externals) (c : compaction)
    (prev : option fileMetadata) (ms : list fileMetadata) : Prop :=
  match ms with
  | [] => True
  | m :: rest =>
      outputChecked cmp ext c prev m
      /\ outputsChecked cmp ext c (Some m) rest
  end.

(** ** The words of the specification about the spans of an output *)

(** The start key that [finishOutput] compares with the split key: the
    one of the first pending range tombstone, or of the first pending
    range key when no tombstone is pending. *)
Definition firstPendingStart (st : outputState) : Bytes :=
  if isNil (FirstStart (pendingTombstones st))
  then FirstStart (pendingRangeKeys st)
  else FirstStart (pendingTombstones st).

(** The writer [w] after the range tombstones [ts] and the range keys
    [ks]. *)
Definition writerAfter (w : Writer) (ts ks : list keyspan_Span) : Writer :=
  {| wPoints := wPoints w; wRangeDels := wRangeDels w ++ ts;
     wRangeKeys := wRangeKeys w ++ ks; wSize := wSize w |}.

(** The entry that [newOutput] adds to [ve.NewFiles] when [st] has no
    writer. *)
Definition newEntry (c : compaction) (st : outputState) : list newFileEntry :=
  match tw st with
  | None => [ {| nfLevel := outputLevelNum c;
                 nfMeta := emptyFileMetadata (nextFileNum st) |} ]
  | Some _ => []
  end.

(** ** The words of the specification about the range-key transform *)





Definition keySet (seq : Z) (suffix value : string) : keyspan_Key :=
  {| kSeqNum := seq; kKind := InternalKeyKindRangeKeySet;
     Suffix := Some suffix; Value := Some value |}.


Definition keyDel (seq : Z) : keyspan_Key :=
  {| kSeqNum := seq; kKind := InternalKeyKindRangeKeyDelete;
     Suffix := None; Value := None |}.




(** ** Checkpoints *)

Definition digitName (n : Z) : string :=
  nth (Z.to_nat n) ["0"; "1"; "2"; "3"; "4"; "5"; "6"; "7"; "8"; "9"] "x".

Definition sampleFilename (t : fileType) (n : Z) : string :=
  match t with
  | fileTypeOptions => String.append "OPTIONS-" (digitName n)
  | fileTypeManifest => String.append "MANIFEST-" (digitName n)
  | fileTypeTable => String.append (digitName n) ".sst"
  | fileTypeLog => String.append (digitName n) ".log"
  end.

(** Nothing fails; the database lives in the working directory, so that a
    path is its base name; the destination has no ancestor to create. *)
Definition sampleEnv : ckEnv :=
  {| fails := fun _ => None;
     objLookup := sampleLookup;
     PathAncestors := fun _ => [];
     PathBase := fun p => p;
     MakeFilepath := fun _ t n => sampleFilename t n;
     MakeFilename := sampleFilename;
     formatVersionMarkerName := "format-version";
     manifestMarkerName := "manifest" |}.

Definition sampleManifest : list (Z * recordData) :=
  [ (10, Raw "edit-1"); (12, Raw "edit-2"); (9, Raw "edit-3") ].

Definition sampleVirtual : fileMetadata :=
  {| FileNum := 6; Size := 100; SmallestSeqNum := 3; LargestSeqNum := 4;
     Smallest := ikey "x" 4 InternalKeyKindSet;
     Largest := ikey "z" 3 InternalKeyKindSet;
     HasPointKeys := true; HasRangeKeys := false; Virtual := true;
     BackingDiskFileNum := 8 |}.

(** A database with the file 5 over the keys a to c at L0 and the virtual
    file 6, backed by 8, over the keys x to z at L1; the manifest was 22
    bytes long when the checkpoint sampled it. *)
Definition sampleDB : DB :=
  {| dirname := "db"; opts_DisableWAL := false; db_cmp := bytes_Compare;
     mem_queue_logNums := [];
     currentVersion_Levels :=
       [ [ sampleFile 5 (ikey "a" 2 InternalKeyKindSet)
             (ikey "c" 1 InternalKeyKindSet) 1 2 ];
         [ sampleVirtual ] ];
     formatVersString := "013";
     manifestFileNum := 1; manifest := sampleManifest; manifestSize := 22;
     optionsFileNum := 2;
     virtualBackings := [8];
     logSegments := ∅ |}.

(** The same database with no virtual file and a virtual backing, 7, that
    no file of the version uses. *)
Definition sampleDBUnused : DB :=
  {| dirname := "db"; opts_DisableWAL := false; db_cmp := bytes_Compare;
     mem_queue_logNums := [];
     currentVersion_Levels :=
       [ [ sampleFile 5 (ikey "a" 2 InternalKeyKindSet)
             (ikey "c" 1 InternalKeyKindSet) 1 2 ] ];
     formatVersString := "013";
     manifestFileNum := 1; manifest := sampleManifest; manifestSize := 22;
     optionsFileNum := 2;
     virtualBackings := [7];
     logSegments := ∅ |}.

(** A directory that holds the database files and nothing else. *)
Definition sampleFS : ckState :=
  {| ck_fs := {[ "OPTIONS-2" := File []; "MANIFEST-1" := File [];
                 "5.sst" := File []; "8.sst" := File [] ]};
     ck_trace := []; ck_disableFileDeletions := 0 |}.

(** The same directory with the destination already there, holding a
    file. *)
Definition sampleFSExisting : ckState :=
  {| ck_fs := {[ "OPTIONS-2" := File []; "MANIFEST-1" := File [];
                 "5.sst" := File []; "ckpt" := Dir;
                 "ckpt/keep" := File [Raw "precious"] ]};
     ck_trace := []; ck_disableFileDeletions := 0 |}.

Definition restrictToAD : list CheckpointOption :=
  [ WithRestrictToSpans [ {| csStart := Some "a"; csEnd := Some "d" |} ] ].

(** The backings that the virtual sstables kept by a checkpoint stand on:
    [n] backs a virtual sstable of [levels] that the options do not
    exclude. *)
Definition includedVirtual (d : DB) (opt : checkpointOptions)
    (levels : list LevelSlice) (n : Z) : Prop :=
  exists fs f, In fs levels /\ In f fs /\ Virtual f = true
               /\ excludeFromCheckpoint f opt (db_cmp d) = false
               /\ BackingDiskFileNum f = n.

(** [f] is an sstable of [levels], the first of which is level [l], that
    the options exclude, and [k] is its level and file number. *)
Definition excludedAt (d : DB) (opt : checkpointOptions) (l : Z)
    (levels : list LevelSlice) (k : Z * Z) (f : fileMetadata) : Prop :=
  exists (i : nat) fs, levels !! i = Some fs /\ In f fs
                       /\ excludeFromCheckpoint f opt (db_cmp d) = true
                       /\ k = (l + Z.of_nat i, FileNum f).

(** The state in which the loop over the sstables of the samples starts:
    the destination directory exists. *)
Definition sampleFSTables : ckState :=
  {| ck_fs := <["ckpt" := Dir]> (ck_fs sampleFS);
     ck_trace := []; ck_disableFileDeletions := 1 |}.

Definition noTables : tablesAcc :=
  {| excludedFiles := ∅; remoteFiles := [];
     requiredVirtualBackingFiles := ∅ |}.

Definition sampleTables : (tablesAcc + error) * ckState :=
  checkpointLevels sampleEnv sampleDB (checkpointOptionsOf restrictToAD)
    "ckpt" 0 (currentVersion_Levels sampleDB) noTables sampleFSTables.

Definition tablesOf (r : (tablesAcc + error) * ckState) : tablesAcc :=
  match fst r with
  | inl acc => acc
  | inr _ => noTables
  end.

(** ** In-use ranges and output limits *)

(** Two in-use ranges, c to e and k to m. *)
Definition sampleRanges : list UserKeyRange :=
  [ {| Start := Some "c"; End_ := Some "e" |};
    {| Start := Some "k"; End_ := Some "m" |} ].

(** A compaction of the keys a to z over [sampleRanges], its cursor at
    [idx]. *)
Definition sampleScan (idx : nat) : compaction :=
  {| kind := compactionKindDefault; cancel := false;
     inputs := [ {| level := 1; files := [] |};
                 {| level := 2; files := [] |} ];
     startLevel := Some 0%nat; outputLevel := Some 1%nat;
     extraLevels := [];
     maxOutputFileSize := 2 ^ 64 - 1; maxOverlapBytes := 150;
     disableSpanElision := false; flushing := [];
     smallest := ikey "a" 9 InternalKeyKindSet;
     largest := ikey "z" 1 InternalKeyKindSet;
     grandparents :=
       [ sampleFile 31 (ikey "a" 1 InternalKeyKindSet)
           (ikey "c" 1 InternalKeyKindSet) 1 1;
         sampleFile 32 (ikey "d" 1 InternalKeyKindSet)
           (ikey "f" 1 InternalKeyKindSet) 1 1;
         sampleFile 33 (ikey "g" 1 InternalKeyKindSet)
           (ikey "i" 1 InternalKeyKindSet) 1 1 ];
     inuseKeyRanges := sampleRanges; inuseEntireRange := false;
     elideTombstoneIndex := idx; allowedZeroSeqNum := false |}.

(** A seek that keeps the files whose largest user key is not below the
    key sought. *)
Definition sampleSeekGE : Compare -> Bytes -> LevelSlice -> LevelSlice :=
  fun cmp key fs =>
    List.filter (fun f => negb (cmp (UserKey (Largest f)) key <? 0)) fs.

(** The flush split keys d, h and p. *)
Definition sampleL0Limits : list Bytes := [Some "d"; Some "h"; Some "p"].

(** A version with one in-use range, a to z, below every level. *)
Definition sampleVersionInUse : version :=
  {| Overlaps := fun _ _ => [];
     CalculateInuseKeyRanges := fun _ _ _ _ =>
       [ {| Start := Some "a"; End_ := Some "z" |} ] |}.

(** The compaction is an intra-L0 compaction: it starts in L0 and writes
    to L0. *)
Definition isIntraL0Compaction (c : compaction) : bool :=
  match levelAt c (startLevel c), levelAt c (outputLevel c) with
  | Some sl, Some ol => (level sl =? 0) && (level ol =? 0)
  | _, _ => false
  end.

(** The state in which [addInProgressCompaction] leaves an input file that
    was in the state [s]. *)
Definition startedState (c : compaction) (s : fileState) : fileState :=
  {| fsCompactionState := CompactionStateCompacting;
     IsIntraL0Compacting := IsIntraL0Compacting s || isIntraL0Compaction c |}.

(** A store in which no file is being compacted. *)
Definition idleStore : fileStore := fun _ =>
  {| fsCompactionState := CompactionStateNotCompacting;
     IsIntraL0Compacting := false |}.

(** ** Sorting for the samples *)

Fixpoint insertBy {A : Type} (le : A -> A -> bool) (x : A) (l : list A)
    : list A :=
  match l with
  | [] => [x]
  | y :: l' => if le x y then x :: l else y :: insertBy le x l'
  end.

Definition sortBy {A : Type} (le : A -> A -> bool) (l : list A) : list A :=
  fold_right (insertBy le) [] l.

(** A sort of files by their smallest user key. *)
Definition sampleKeySorted : Compare -> list fileMetadata -> LevelSlice :=
  fun cmp =>
    sortBy (fun f g => cmp (UserKey (Smallest f)) (UserKey (Smallest g)) <=? 0).

(** The version of the graphic above [checkDeleteCompactionHints]: the
    files 2 and 3 of L1 lie within the hint from b to r and below its
    tombstones. *)
Definition sampleHintVersion : version :=
  {| Overlaps := fun lvl _ =>
       if lvl =? 1 then
         [ sampleFile 3 (ikey "h" 150 InternalKeyKindSet)
             (ikey "l" 90 InternalKeyKindSet) 90 150;
           sampleFile 2 (ikey "c" 140 InternalKeyKindSet)
             (ikey "f" 110 InternalKeyKindSet) 110 140 ]
       else [];
     CalculateInuseKeyRanges := fun _ _ _ _ => [] |}.

Definition sampleKeyRange : Compare -> list LevelSlice ->
    InternalKey * InternalKey :=
  fun _ _ => (ikey "c" 140 InternalKeyKindSet, ikey "l" 90 InternalKeyKindSet).

Definition sampleSchedule : scheduleState :=
  {| deletionHints := [ sampleHint deleteCompactionHintTypePointKeyOnly ];
     compactingCount := 0; sched_files := idleStore |}.

(** The loop over the sstables of [sampleDB] for a checkpoint that is not
    restricted to spans. *)
Definition sampleTablesAll : (tablesAcc + error) * ckState :=
  checkpointLevels sampleEnv sampleDB (checkpointOptionsOf [])
    "ckpt" 0 (currentVersion_Levels sampleDB) noTables sampleFSTables.

(** ** The words of the specification about the outputs of a compaction *)

(** The bounds of an output within the bounds of the compaction:
    [c.smallest <= m.smallest <= m.largest <= c.largest], on user keys. *)
Definition withinInputBounds (cmp : Compare) (c : compaction)
    (m : fileMetadata) : Prop :=
  cmp (UserKey (smallest c)) (UserKey (Smallest m)) <= 0
  /\ cmp (UserKey (Smallest m)) (UserKey (Largest m)) <= 0
  /\ cmp (UserKey (Largest m)) (UserKey (largest c)) <= 0.

(** The output [m] starts after the output [p] ends: strictly above its
    largest user key, or at it when the largest key of [p] is an exclusive
    sentinel, which leaves that user key out of [p]. *)
Definition startsAfter (cmp : Compare) (p m : fileMetadata) : Prop :=
  if IsExclusiveSentinel (Largest p)
  then cmp (UserKey (Largest p)) (UserKey (Smallest m)) <= 0
  else cmp (UserKey (Largest p)) (UserKey (Smallest m)) < 0.

Fixpoint outputsApart (cmp : Compare) (prev : option fileMetadata)
    (ms : list fileMetadata) : Prop :=
  match ms with
  | [] => True
  | m :: rest =>
      match prev with
      | Some p => startsAfter cmp p m
      | None => True
      end
      /\ outputsApart cmp (Some m) rest
  end.

(** The keys of the iterator come in order: no user key is nil, the user
    keys ascend, and the span held at a range deletion or range key does
    not start below the user key of that key. *)
Definition inputInOrder (cmp : Compare) (input : list iterEntry) : Prop :=
  Forall (fun e => isNil (UserKey (ieKey e)) = false
                   /\ (Kind (ieKey e) = InternalKeyKindRangeDelete
                       \/ isRangeKeyKind (Kind (ieKey e)) = true ->
                       cmp (UserKey (ieKey e)) (spStart (ieSpan e)) <= 0))
    input
  /\ StronglySorted
       (fun a b => cmp (UserKey (ieKey a)) (UserKey (ieKey b)) <= 0) input.

(** The user key [u] is not below the end of the output [prev] finished
    last, when that output ends at an exclusive sentinel. *)
Definition aboveLast (cmp : Compare) (prev : option fileMetadata)
    (u : Bytes) : Prop :=
  match prev with
  | Some p =>
      IsExclusiveSentinel (Largest p) = true ->
      cmp (UserKey (Largest p)) u <= 0
  | None => True
  end.

(** The output finished last. *)
Definition lastOutput (st : outputState) : option fileMetadata :=
  List.last (map Some (map nfMeta (finishedOutputs st))) None.

(** What the loop keeps between two keys: the keys left, the pending spans
    and the point keys of the open writer are not below the end of the
    output finished last; the open writer holds point keys only, at least
    one, and its entry of [ve.NewFiles] has no bounds yet; the outputs
    finished start one after the other. *)
Definition loopInv (cmp : Compare) (input : list iterEntry)
    (st : outputState) : Prop :=
  (forall e, In e input -> aboveLast cmp (lastOutput st) (UserKey (ieKey e)))
  /\ (forall s, In s (pendingTombstones st ++ pendingRangeKeys st) ->
        aboveLast cmp (lastOutput st) (spStart s))
  /\ match tw st with
     | None => True
     | Some w =>
         wRangeDels w = [] /\ wRangeKeys w = [] /\ wPoints w <> []
         /\ (forall k, In k (wPoints w) ->
               IsExclusiveSentinel k = false
               /\ aboveLast cmp (lastOutput st) (UserKey k))
         /\ exists fin e,
              ve_NewFiles st = fin ++ [e]
              /\ HasPointKeys (nfMeta e) = false
              /\ HasRangeKeys (nfMeta e) = false
     end
  /\ outputsApart cmp None (map nfMeta (finishedOutputs st)).

(** The bounds that [finishOutput] gives the metadata [meta1] of an output
    from the metadata of its writer. *)
Definition outputBounds (cmp : Compare) (meta1 : fileMetadata)
    (writerMeta : WriterMetadata) : fileMetadata :=
  let meta2 :=
    if wmHasPointKeys writerMeta then
      ExtendPointKeyBounds cmp meta1
        (wmSmallestPoint writerMeta) (wmLargestPoint writerMeta)
    else meta1 in
  let meta3 :=
    if wmHasRangeDelKeys writerMeta then
      ExtendPointKeyBounds cmp meta2
        (wmSmallestRangeDel writerMeta) (wmLargestRangeDel writerMeta)
    else meta2 in
  if wmHasRangeKeys writerMeta then
    ExtendRangeKeyBounds cmp meta3
      (wmSmallestRangeKey writerMeta) (wmLargestRangeKey writerMeta)
  else meta3.

(** ** A sample run *)

(** A [Validate] that rejects the file whose smallest key is above its
    largest key in the internal order. *)
Definition validateBounds (cmp : Compare) (m : fileMetadata) : option error :=
  if InternalCompare cmp (Smallest m) (Largest m) >? 0
  then Some (Errorf "pebble: file has inconsistent bounds")
  else None.

Definition boundsValidated : externals :=
  {| createErr := fun _ => None;
     encodeRangeDelErr := fun _ => None;
     encodeRangeKeyErr := fun _ => None;
     closeErr := fun _ => None;
     metadataErr := fun _ => None;
     validateErr := validateBounds bytes_Compare |}.

(** A splitter that suggests no key and asks for a split before the user
    key p once a writer is open. *)
Definition splitBeforeP : loopExternals :=
  {| OnNewOutput := fun _ _ _ => None;
     ShouldSplitBefore := fun _ st k =>
       bool_decide (tw st <> None) && bytes_Equal (UserKey k) (Some "p");
     addErr := fun _ _ => None |}.

(** The range deletion of the keys a to t, then the point keys b, p
    and q. *)
Definition sampleEntries : list iterEntry :=
  [ {| ieKey := ikey "a" 7 InternalKeyKindRangeDelete;
       ieSpan := rangeDelSpan "a" "t" 7 |};
    {| ieKey := ikey "b" 5 InternalKeyKindSet;
       ieSpan := {| spStart := None; spEnd := None; spKeys := [] |} |};
    {| ieKey := ikey "p" 4 InternalKeyKindSet;
       ieSpan := {| spStart := None; spEnd := None; spKeys := [] |} |};
    {| ieKey := ikey "q" 3 InternalKeyKindSet;
       ieSpan := {| spStart := None; spEnd := None; spKeys := [] |} |} ].

(** The run of the loop over these keys for a compaction over the keys a
    to z, and the state it returns. *)
Definition sampleRun : runOutcome :=
  outputLoop bytes_Compare boundsValidated splitBeforeP 5 sampleBounds
    sampleEntries (startOutput 41).

Definition sampleRunState : outputState :=
  match sampleRun with
  | RunReturned st _ => st
  | _ => startOutput 41
  end.

(** The user keys of the bounds of a file. *)
Definition boundUserKeys (m : fileMetadata) : Bytes * Bytes :=
  (UserKey (Smallest m), UserKey (Largest m)).

(** * Properties *)

(** ** Elision during a flush *)

(** C6: for a compaction whose flushing list is not empty, [elideTombstone]
    is false at every key (and leaves the cursor alone),
    [elideRangeTombstone] is false at every range, and so
    [allowZeroSeqNum] is false: a flush elides no tombstone and zeroes no
    sequence number. *)
Theorem flush_never_elides (cmp : Compare) (c : compaction) :
  flushing c <> [] ->
  (forall key, elideTombstone cmp c key = (false, c)) /\
  (forall start end_, elideRangeTombstone cmp c start end_ = false) /\
  (forall start end_, elideRangeKey cmp c start end_ = false) /\
  allowZeroSeqNum cmp c = false.
Proof.
  intros Hfl.
  assert (Hlen : (length (flushing c) =? 0)%nat = false).
  { destruct (flushing c) as [|x xs]; [congruence | reflexivity]. }
  repeat split; intros;
    unfold allowZeroSeqNum, elideRangeKey, elideRangeTombstone, elideTombstone;
    rewrite Hlen; cbn [negb]; rewrite orb_true_r; reflexivity.
Qed.

Lemma flush_never_elides_witness :
  flushing sampleFlush <> [] /\
  elideTombstone bytes_Compare sampleFlush (Some "k") = (false, sampleFlush) /\
  allowZeroSeqNum bytes_Compare sampleFlush = false.
Proof.
  assert (H : flushing sampleFlush <> []) by (cbn; congruence).
  split; [exact H |].
  destruct (flush_never_elides bytes_Compare sampleFlush H) as (Ht & _ & _ & Hz).
  split; [apply Ht | exact Hz].
Defined.

(** ** The per-file rule of a deletion hint *)


(** C2: [canDelete] returns true exactly when the file's largest sequence
    number is below the hint's smallest tombstone, its smallest sequence
    number is at least the hint's recorded file-smallest, the hint's
    largest tombstone and the file's smallest sequence number lie in one
    snapshot stripe, the hint type matches the file (point-only: no range
    keys; range-key-only: no point keys; the unknown type matches no file,
    the code panics on it) and the file's user keys lie within
    [[start, end)]. *)
Theorem canDelete_iff (cmp : Compare) (h : deleteCompactionHint)
    (m : fileMetadata) (snapshots : list Z) :
  canDelete cmp h m snapshots = Some true <->
  LargestSeqNum m < tombstoneSmallestSeqNum h /\
  fileSmallestSeqNum h <= SmallestSeqNum m /\
  Snapshots_Index snapshots (tombstoneLargestSeqNum h)
    = Snapshots_Index snapshots (SmallestSeqNum m) /\
  match hintType h with
  | deleteCompactionHintTypePointKeyOnly => HasRangeKeys m = false
  | deleteCompactionHintTypeRangeKeyOnly => HasPointKeys m = false
  | deleteCompactionHintTypePointAndRangeKey => True
  | deleteCompactionHintTypeUnknown => False
  end /\
  cmp (start h) (UserKey (Smallest m)) <= 0 /\
  cmp (UserKey (Largest m)) (end_ h) < 0.
Proof.
  unfold canDelete.
  destruct (LargestSeqNum m >=? tombstoneSmallestSeqNum h) eqn:E1; cbn [orb].
  { split; [discriminate | intros (H & _); lia]. }
  destruct (SmallestSeqNum m <? fileSmallestSeqNum h) eqn:E2.
  { split; [discriminate | intros (_ & H & _); lia]. }
  destruct (Snapshots_Index snapshots (tombstoneLargestSeqNum h)
            =? Snapshots_Index snapshots (SmallestSeqNum m))%nat eqn:E3;
    cbn [negb].
  2:{ apply Nat.eqb_neq in E3.
      split; [discriminate | intros (_ & _ & H & _); congruence]. }
  apply Nat.eqb_eq in E3.
  assert (Hb : Some ((cmp (start h) (UserKey (Smallest m)) <=? 0)
                     && (cmp (UserKey (Largest m)) (end_ h) <? 0)) = Some true
               <-> cmp (start h) (UserKey (Smallest m)) <= 0 /\
                   cmp (UserKey (Largest m)) (end_ h) < 0).
  { split.
    - intros [= H]. apply andb_true_iff in H. lia.
    - intros [Ha Hc]. f_equal. apply andb_true_iff. lia. }
  assert (E1' : LargestSeqNum m < tombstoneSmallestSeqNum h) by lia.
  assert (E2' : fileSmallestSeqNum h <= SmallestSeqNum m) by lia.
  destruct (hintType h).
  - split; [discriminate | tauto].
  - destruct (HasRangeKeys m).
    + split; [discriminate | intros (_ & _ & _ & H & _); discriminate].
    + rewrite Hb. tauto.
  - destruct (HasPointKeys m).
    + split; [discriminate | intros (_ & _ & _ & H & _); discriminate].
    + rewrite Hb. tauto.
  - rewrite Hb. tauto.
Qed.

(** For the three types of the data model [canDelete] returns, it does not
    panic. *)
Lemma canDelete_returns (cmp : Compare) (h : deleteCompactionHint)
    (m : fileMetadata) (snapshots : list Z) :
  hintType h <> deleteCompactionHintTypeUnknown ->
  exists b, canDelete cmp h m snapshots = Some b.
Proof.
  intros Hk. unfold canDelete.
  destruct (_ || _); [eauto |].
  destruct (negb _); [eauto |].
  destruct (hintType h); [congruence | | | eauto].
  - destruct (HasRangeKeys m); eauto.
  - destruct (HasPointKeys m); eauto.
Qed.

(** The graphic of [checkDeleteCompactionHints]: with the snapshots at 70,
    100, 180 and 210 open, file 000002 (sequence numbers 110 to 140, keys
    d to g) cannot be deleted; once they are closed it can. *)
Example canDelete_graphic :
  let f2 := sampleFile 2 (ikey "d" 110 InternalKeyKindSet)
              (ikey "g" 140 InternalKeyKindSet) 110 140 in
  canDelete bytes_Compare
    (sampleHint deleteCompactionHintTypePointKeyOnly) f2 [70; 100; 180; 210]
  = Some false /\
  canDelete bytes_Compare
    (sampleHint deleteCompactionHintTypePointKeyOnly) f2 [] = Some true.
Proof. split; reflexivity. Qed.

(** ** Hints after a compaction that zeroed sequence numbers *)

Section HintInvalidation.
Variable cmp : Compare.

Lemma inputsOlder_level_forallb (h : deleteCompactionHint)
    (fs : LevelSlice) (acc : bool) :
  inputsOlder_level h acc fs
  = acc && forallb (fun f => LargestSeqNum f <? tombstoneSmallestSeqNum h) fs.
Proof.
  unfold inputsOlder_level. revert acc.
  induction fs as [|f fs IH]; intros acc; cbn.
  - now rewrite andb_true_r.
  - rewrite IH. now rewrite andb_assoc.
Qed.

Lemma inputsOlder_inputs_from (h : deleteCompactionHint)
    (ins : list compactionLevel) (acc : bool) :
  fold_left (fun a cl => inputsOlder_level h a (files cl)) ins acc
  = acc && forallb (fun f => LargestSeqNum f <? tombstoneSmallestSeqNum h)
             (flat_map files ins).
Proof.
  revert acc. induction ins as [|cl ins IH]; intros acc; cbn.
  - now rewrite andb_true_r.
  - rewrite IH, inputsOlder_level_forallb, forallb_app.
    now rewrite andb_assoc.
Qed.

Lemma inputsOlder_inputs_spec (h : deleteCompactionHint) (c : compaction) :
  inputsOlder_inputs h (inputs c) = negb (someInputAsRecent h c).
Proof.
  unfold inputsOlder_inputs, someInputAsRecent, inputFiles.
  rewrite inputsOlder_inputs_from. cbn [andb].
  induction (flat_map files (inputs c)) as [|f fs IH]; cbn; [reflexivity |].
  rewrite IH, negb_orb. f_equal.
  destruct (Z.ltb_spec (LargestSeqNum f) (tombstoneSmallestSeqNum h));
    destruct (Z.geb_spec (LargestSeqNum f) (tombstoneSmallestSeqNum h));
    cbn; try reflexivity; lia.
Qed.

Lemma updateHints_loop_filter (c : compaction)
    (hints updated : list deleteCompactionHint) :
  updateHints_loop cmp c hints updated
  = updated ++ List.filter (fun h => negb (hintDropped cmp c h)) hints.
Proof.
  revert updated. induction hints as [|h hints IH]; intros updated; cbn.
  - now rewrite app_nil_r.
  - unfold hintDropped at 1, hintOverlapsCompaction.
    rewrite inputsOlder_inputs_spec.
    destruct (Z.ltb_spec (cmp (end_ h) (UserKey (smallest c))) 0) as [Ha|Ha];
      destruct (Z.geb_spec (cmp (end_ h) (UserKey (smallest c))) 0) as [Ha'|Ha'];
      try lia; cbn.
    + rewrite IH, <- app_assoc. reflexivity.
    + destruct (Z.gtb_spec (cmp (start h) (UserKey (largest c))) 0) as [Hb|Hb];
        destruct (Z.leb_spec (cmp (start h) (UserKey (largest c))) 0) as [Hb'|Hb'];
        try lia; cbn.
      * rewrite IH, <- app_assoc. reflexivity.
      * destruct (someInputAsRecent h c); cbn.
        -- apply IH.
        -- rewrite IH, <- app_assoc. reflexivity.
Qed.

(** C3: a compaction that did not allow zero sequence numbers leaves the
    hints as they are; one that did keeps, in their order, the hints that
    are not dropped, and a hint is dropped exactly when its span
    [[start, end]] overlaps the key bounds of the compaction and some input
    file has a largest sequence number at or above the smallest tombstone
    sequence number of the hint. *)
Theorem maybeUpdateDeleteCompactionHints_spec (c : compaction)
    (deletionHints : list deleteCompactionHint) :
  maybeUpdateDeleteCompactionHints cmp c deletionHints
  = if allowedZeroSeqNum c
    then List.filter (fun h => negb (hintDropped cmp c h)) deletionHints
    else deletionHints.
Proof.
  unfold maybeUpdateDeleteCompactionHints.
  destruct (allowedZeroSeqNum c); cbn; [| reflexivity].
  apply updateHints_loop_filter.
Qed.
End HintInvalidation.

(** The first sample hint overlaps a compaction whose inputs reach 205 and
    is dropped; the disjoint hint and the hint with newer tombstones
    stay; without zeroing all three stay. *)
Example maybeUpdateDeleteCompactionHints_sample :
  map tombstoneFile
    (maybeUpdateDeleteCompactionHints bytes_Compare sampleZeroing sampleHints)
  = [8; 9] /\
  maybeUpdateDeleteCompactionHints bytes_Compare
    (withAllowedZeroSeqNum sampleZeroing false) sampleHints = sampleHints.
Proof. split; reflexivity. Qed.

(** ** Clearing the compacting state *)

Section ClearCompactingStateFacts.
Variable fatalExits : bool.
Variable c : compaction.
Variable rollback : bool.

Lemma clearFile_lookup (st : fileStore) (f : fileMetadata) (n : Z) :
  clearFile c rollback st f n
  = if decide (n = FileNum f) then clearedState c rollback else st n.
Proof.
  unfold clearFile, clearIsIntraL0Compacting, SetCompactionState, clearedState.
  destruct rollback; [| destruct (bool_decide (kind c = compactionKindMove))];
    cbn [negb];
    (destruct (decide (n = FileNum f)) as [->|Hne];
     [ rewrite !fn_lookup_insert; reflexivity
     | rewrite !fn_lookup_insert_ne by congruence; reflexivity ]).
Qed.

Lemma clearFiles_returned (fs : LevelSlice) (st : fileStore)
    (reported : list Z) (st' : fileStore) (reported' : list Z) :
  clearFiles fatalExits c rollback fs st reported = Returned st' reported' ->
  clearedOver c rollback (map FileNum fs) st st'.
Proof.
  revert st reported. induction fs as [|f fs IH]; intros st reported H; cbn in H.
  - injection H as <- _. intros n; split; [intros [] | reflexivity].
  - assert (Hnext : exists rep, clearFiles fatalExits c rollback fs
                       (clearFile c rollback st f) rep = Returned st' reported').
    { destruct (negb (IsCompacting st f)); [| eauto].
      destruct fatalExits; [discriminate | eauto]. }
    destruct Hnext as [rep Hnext]. specialize (IH _ _ Hnext).
    intros n. destruct (IH n) as [IHin IHout]. cbn. split.
    + intros [Heq | Hin].
      * destruct (in_dec Z.eq_dec n (map FileNum fs)) as [Hi|Hi]; [auto |].
        rewrite (IHout Hi), clearFile_lookup.
        destruct (decide (n = FileNum f)); congruence.
      * auto.
    + intros Hn. rewrite IHout by tauto. rewrite clearFile_lookup.
      destruct (decide (n = FileNum f)); [subst; tauto | reflexivity].
Qed.

Lemma clearedOver_trans (a b : list Z) (st st1 st2 : fileStore) :
  clearedOver c rollback a st st1 -> clearedOver c rollback b st1 st2 ->
  clearedOver c rollback (a ++ b) st st2.
Proof.
  intros H1 H2 n. destruct (H1 n) as [H1i H1o], (H2 n) as [H2i H2o].
  rewrite in_app_iff. split.
  - intros [Ha | Hb]; [| auto].
    destruct (in_dec Z.eq_dec n b) as [Hi|Hi]; [auto |].
    rewrite H2o by exact Hi. auto.
  - intros Hn. rewrite H2o by tauto. apply H1o. tauto.
Qed.

Lemma clearLevels_returned (ins : list compactionLevel) (st : fileStore)
    (reported : list Z) (st' : fileStore) (reported' : list Z) :
  clearLevels fatalExits c rollback ins st reported = Returned st' reported' ->
  clearedOver c rollback (map FileNum (flat_map files ins)) st st'.
Proof.
  revert st reported. induction ins as [|cl ins IH]; intros st reported H; cbn in H.
  - injection H as <- _. intros n; split; [intros [] | reflexivity].
  - destruct (clearFiles fatalExits c rollback (files cl) st reported)
      as [|st1 rep1] eqn:E; [discriminate |].
    cbn. rewrite map_app.
    eapply clearedOver_trans;
      [eapply clearFiles_returned; exact E | eapply IH; exact H].
Qed.

(** With every file being compacted and no file met twice, nothing is
    reported to the logger. *)
Lemma clearFiles_all_compacting (fs : LevelSlice) (st : fileStore)
    (reported : list Z) :
  (forall f, In f fs -> IsCompacting st f = true) ->
  NoDup (map FileNum fs) ->
  exists st', clearFiles fatalExits c rollback fs st reported
              = Returned st' reported.
Proof.
  revert st. induction fs as [|f fs IH]; intros st Hall Hnd; cbn.
  - eauto.
  - rewrite (Hall f) by (left; reflexivity). cbn.
    inversion Hnd as [|x l Hnotin Hnd']; subst.
    apply IH; [| exact Hnd'].
    intros g Hg. unfold IsCompacting. rewrite clearFile_lookup.
    destruct (decide (FileNum g = FileNum f)) as [Heq|Hne].
    + exfalso. apply Hnotin. rewrite <- Heq.
      apply list_elem_of_In. now apply in_map.
    + apply (Hall g). now right.
Qed.

Lemma clearLevels_all_compacting (ins : list compactionLevel)
    (st : fileStore) (reported : list Z) :
  (forall f, In f (flat_map files ins) -> IsCompacting st f = true) ->
  NoDup (map FileNum (flat_map files ins)) ->
  exists st', clearLevels fatalExits c rollback ins st reported
              = Returned st' reported.
Proof.
  revert st. induction ins as [|cl ins IH]; intros st Hall Hnd; cbn.
  - eauto.
  - cbn in Hall, Hnd. rewrite map_app in Hnd.
    apply list.NoDup_app in Hnd as (Hnd1 & Hdisj & Hnd2).
    destruct (clearFiles_all_compacting (files cl) st reported) as [st1 E];
      [intros f Hf; apply Hall, in_app_iff; now left | exact Hnd1 |].
    rewrite E. apply IH; [| exact Hnd2].
    intros g Hg. unfold IsCompacting.
    destruct (clearFiles_returned _ _ _ _ _ E (FileNum g)) as [_ Hout].
    rewrite Hout.
    + apply (Hall g), in_app_iff. now right.
    + intros Hin. apply (Hdisj (FileNum g)).
      * apply list_elem_of_In. exact Hin.
      * apply list_elem_of_In. now apply in_map.
Qed.

(** C9: when [clearCompactingState] returns, every input file is left
    NotCompacting on rollback and, on success, NotCompacting for a move
    compaction and Compacted for every other kind, with its
    IsIntraL0Compacting marker cleared, and no other file is touched; it
    does return, reporting nothing to the logger, when every input file is
    being compacted and no file is an input twice. *)
Theorem clearCompactingState_spec (st : fileStore) :
  (forall st' reported,
      clearCompactingState fatalExits c rollback st = Returned st' reported ->
      (forall f, In f (inputFiles c) ->
         fsCompactionState (st' (FileNum f))
         = (if rollback then CompactionStateNotCompacting
            else if bool_decide (kind c = compactionKindMove)
                 then CompactionStateNotCompacting
                 else CompactionStateCompacted)
         /\ IsIntraL0Compacting (st' (FileNum f)) = false)
      /\ (forall n, ~ In n (map FileNum (inputFiles c)) -> st' n = st n))
  /\ ((forall f, In f (inputFiles c) -> IsCompacting st f = true) ->
      NoDup (map FileNum (inputFiles c)) ->
      exists st', clearCompactingState fatalExits c rollback st
                  = Returned st' []).
Proof.
  split.
  - intros st' reported H. unfold clearCompactingState in H.
    apply clearLevels_returned in H. split.
    + intros f Hf. destruct (H (FileNum f)) as [Hin _].
      rewrite Hin by (apply in_map; exact Hf). split; reflexivity.
    + intros n Hn. apply (H n). exact Hn.
  - intros Hall Hnd. apply clearLevels_all_compacting; assumption.
Qed.
End ClearCompactingStateFacts.

Lemma clearCompactingState_spec_witness :
  exists st',
    clearCompactingState true sampleZeroing false sampleStore = Returned st' []
    /\ st' 11 = {| fsCompactionState := CompactionStateCompacted;
                   IsIntraL0Compacting := false |}.
Proof.
  destruct (clearCompactingState_spec true sampleZeroing false sampleStore)
    as [Hret Hex].
  destruct Hex as [st' E].
  - intros f Hf. cbn in Hf.
    destruct Hf as [<- | [<- | []]]; reflexivity.
  - apply (bool_decide_unpack _). vm_compute. exact I.
  - exists st'. split; [exact E |].
    destruct (Hret st' [] E) as [Hin _].
    destruct (Hin (sampleFile 11 (ikey "c" 150 InternalKeyKindSet)
                     (ikey "f" 205 InternalKeyKindSet) 150 205)) as [H1 H2];
      [cbn; now left |].
    cbn in H1, H2. destruct (st' 11) as [s i]. cbn in *. now subst.
Defined.

(** ** Conversion to a move or a copy, and the edit of a move *)

(** C7, as the code has it: a Default compaction with one input file at
    the start level, an empty output level, no data in an intermediate
    level of a multilevel compaction and grandparents of a total size
    within [maxOverlapBytes] becomes a Move when the file need not be
    copied to shared storage, a Copy when it must and is not virtual (and
    stays Default when it must and is virtual); and a Move compaction that
    is not cancelled and whose object is found gives an edit that deletes
    the file from the start level and adds the same metadata to the output
    level, with no pending output. *)
Theorem move_or_copy_conversion :
  (forall (ShouldCreateShared : Z -> Z -> bool) (pc : pickedCompaction)
          (createOnShared : Z) (provider : option (Z -> bool))
          (startL outL : compactionLevel) (meta : fileMetadata),
      pc_inputs pc !! 0%nat = Some startL ->
      (1 < length (pc_inputs pc))%nat ->
      pc_inputs pc !! pickedOutputIndex pc = Some outL ->
      pc_kind pc = compactionKindDefault ->
      files startL = [meta] ->
      files outL = [] ->
      (forall l0, head (pc_extraLevels pc) = Some l0 -> files l0 = []) ->
      SizeSum (pickedGrandparents pc outL) <= pc_maxOverlapBytes pc ->
      let isRemote :=
        match provider with
        | Some isLocalTable => negb (isLocalTable (BackingDiskFileNum meta))
        | None => false
        end in
      let mustCopy :=
        negb isRemote && ShouldCreateShared createOnShared (level outL) in
      exists c,
        newCompaction ShouldCreateShared pc createOnShared provider = Some c
        /\ inputs c = pc_inputs pc
        /\ levelAt c (startLevel c) = Some startL
        /\ levelAt c (outputLevel c) = Some outL
        /\ kind c = if mustCopy
                    then if Virtual meta then compactionKindDefault
                         else compactionKindCopy
                    else compactionKindMove)
  /\
  (forall (invariants_Enabled : bool) (Lookup : Z -> ObjectMetadata + error)
          (runCopyCompaction :
             compaction -> fileMetadata -> ObjectMetadata -> versionEdit ->
             list compactionOutput * versionEdit * option error)
          (c : compaction) (startL outL : compactionLevel)
          (meta : fileMetadata) (objMeta : ObjectMetadata),
      kind c = compactionKindMove ->
      cancel c = false ->
      levelAt c (startLevel c) = Some startL ->
      levelAt c (outputLevel c) = Some outL ->
      files startL = [meta] ->
      Lookup (BackingDiskFileNum meta) = inl objMeta ->
      runMoveOrCopyCompaction invariants_Enabled Lookup runCopyCompaction c
      = Some {| r_ve :=
                  Some {| DeletedFiles :=
                            {[ (level startL, FileNum meta) := meta ]};
                          NewFiles :=
                            [ {| nfLevel := level outL; nfMeta := meta |} ];
                          RemovedBackingTables := [] |};
                r_pendingOutputs := [];
                r_err := None;
                r_metrics :=
                  Some {[ level outL := {| BytesMoved := Size meta;
                                           TablesMoved := 1 |} ]} |}).
Proof.
  split.
  - intros SCS pc cos provider startL outL meta H0 Hlen Hout Hkind Hstart
      Houtfiles Hextra Hgp isRemote mustCopy.
    unfold newCompaction. rewrite H0.
    destruct (pc_inputs pc !! 1%nat) as [out1|] eqn:E1.
    2:{ apply lookup_ge_None in E1. lia. }
    rewrite Hout. change (default out1 (Some outL)) with outL.
    destruct (setupInuseKeyRanges (pc_cmp pc) (pc_version pc) (level outL)
                (pc_smallest pc) (pc_largest pc)) as [rs entire].
    cbn [kind inputs grandparents maxOverlapBytes extraLevels cancel
         startLevel outputLevel].
    rewrite Hkind, Houtfiles, Hstart. cbn [length].
    assert (Hex : hasExtraLevelData
              {| kind := compactionKindDefault; cancel := false;
                 inputs := pc_inputs pc; startLevel := Some 0%nat;
                 outputLevel := Some (pickedOutputIndex pc);
                 extraLevels :=
                   if (0 <? length (pc_extraLevels pc))%nat
                   then pc_extraLevels pc else [];
                 maxOutputFileSize := pc_maxOutputFileSize pc;
                 maxOverlapBytes := pc_maxOverlapBytes pc;
                 disableSpanElision := false; flushing := [];
                 smallest := pc_smallest pc; largest := pc_largest pc;
                 grandparents := pickedGrandparents pc outL;
                 inuseKeyRanges := rs; inuseEntireRange := entire;
                 elideTombstoneIndex := 0%nat;
                 allowedZeroSeqNum := false |} = false).
    { unfold hasExtraLevelData. cbn [extraLevels].
      destruct (pc_extraLevels pc) as [|l0 ls] eqn:Ee; cbn; [reflexivity |].
      rewrite (Hextra l0) by reflexivity. reflexivity. }
    rewrite Hex.
    assert (Hle : (SizeSum (pickedGrandparents pc outL)
                   <=? pc_maxOverlapBytes pc) = true) by (apply Z.leb_le; lia).
    rewrite Hle. cbn -[pickedOutputIndex].
    fold isRemote. fold mustCopy.
    destruct mustCopy.
    + destruct (Virtual meta); cbn -[pickedOutputIndex];
        eexists; (split; [reflexivity |]); cbn -[pickedOutputIndex];
        rewrite H0, Hout; repeat split; reflexivity.
    + eexists; (split; [reflexivity |]); cbn -[pickedOutputIndex];
        rewrite H0, Hout; repeat split; reflexivity.
  - intros inv Lookup runCopy c startL outL meta objMeta Hkind Hcancel
      Hs Ho Hfiles Hlk.
    unfold runMoveOrCopyCompaction.
    rewrite Hs, Ho, Hfiles, Hcancel, Hlk, Hkind. cbn [length].
    rewrite andb_false_r. reflexivity.
Qed.

(** The trivial move of the specification: the picked compaction becomes a
    Move, and its edit moves file 21 from L1 to L2 as it is. *)
Lemma move_or_copy_conversion_witness :
  exists c,
    newCompaction neverShared samplePicked 0 None = Some c
    /\ kind c = compactionKindMove
    /\ option_map r_ve
         (runMoveOrCopyCompaction true sampleLookup noCopy c)
       = Some (Some {| DeletedFiles := {[ (1, 21) := sampleMoved ]};
                       NewFiles := [ {| nfLevel := 2; nfMeta := sampleMoved |} ];
                       RemovedBackingTables := [] |}).
Proof.
  destruct move_or_copy_conversion as [Hconv Hmove].
  destruct (Hconv neverShared samplePicked 0 None
              {| level := 1; files := [sampleMoved] |}
              {| level := 2; files := [] |} sampleMoved)
    as (c & Hc & Hin & Hs & Ho & Hk);
    try reflexivity.
  - cbn. lia.
  - intros l0 H. discriminate H.
  - vm_compute. discriminate.
  - exists c. split; [exact Hc |]. split; [exact Hk |].
    rewrite (Hmove true sampleLookup noCopy c
               {| level := 1; files := [sampleMoved] |}
               {| level := 2; files := [] |} sampleMoved
               {| omDiskFileNum := 21; omIsRemote := false;
                  omIsExternal := false |});
      try reflexivity; try assumption.
    injection Hc as <-. reflexivity.
Defined.

(** The claim without the condition on the intermediate level fails: a
    multilevel compaction with one file at the start level, an empty
    output level, no grandparent overlap and a file at the intermediate
    level stays a Default compaction. *)
Lemma move_conversion_multilevel_counterexample :
  let pc := samplePickedMultilevel in
  pc_kind pc = compactionKindDefault
  /\ (exists startL outL,
        pc_inputs pc !! 0%nat = Some startL
        /\ pc_inputs pc !! pickedOutputIndex pc = Some outL
        /\ length (files startL) = 1%nat
        /\ files outL = []
        /\ SizeSum (pickedGrandparents pc outL) <= pc_maxOverlapBytes pc
        /\ neverShared 0 (level outL) = false)
  /\ exists c,
       newCompaction neverShared pc 0 None = Some c
       /\ kind c = compactionKindDefault
       /\ kind c <> compactionKindMove
       /\ kind c <> compactionKindCopy.
Proof.
  cbn zeta. split; [reflexivity |]. split.
  - exists {| level := 1; files := [sampleMoved] |}, {| level := 3; files := [] |}.
    repeat split; try reflexivity. vm_compute. discriminate.
  - eexists. split; [vm_compute; reflexivity |].
    repeat split; cbn; congruence.
Qed.

(** ** The checks of a finished output *)

Section OutputChecks.
Variable cmp : Compare.
Variable ext : externals.
Variable c : compaction.

Lemma last_cons_default {A : Type} (x d : A) (l : list A) :
  List.last (x :: l) d = List.last l x.
Proof.
  revert x d. induction l as [|y l IH]; intros x d; [reflexivity |].
  change (List.last (y :: l) d = List.last (y :: l) x).
  rewrite (IH y d), (IH y x). reflexivity.
Qed.

Lemma outputsChecked_snoc (prev : option fileMetadata)
    (ms : list fileMetadata) (m : fileMetadata) :
  outputsChecked cmp ext c prev (ms ++ [m]) <->
  outputsChecked cmp ext c prev ms
  /\ outputChecked cmp ext c (List.last (map Some ms) prev) m.
Proof.
  revert prev. induction ms as [|a ms IH]; intros prev.
  - cbn. tauto.
  - rewrite <- app_comm_cons. cbn [outputsChecked map].
    rewrite last_cons_default, IH. tauto.
Qed.

Lemma newOutput_ok (st st' : outputState) :
  newOutput ext c st = (st', None) ->
  tw st' = Some emptyWriter
  /\ pendingTombstones st' = pendingTombstones st
  /\ pendingRangeKeys st' = pendingRangeKeys st
  /\ exists e, ve_NewFiles st' = ve_NewFiles st ++ [e].
Proof.
  unfold newOutput. destruct (cancel c); [discriminate |].
  destruct (createErr ext (nextFileNum st)); [discriminate |].
  intros [= <-]. cbn. eauto 6.
Qed.

(** The loops over the spans leave the finished outputs alone; an entry
    is added to [ve.NewFiles] only together with a writer. *)
Lemma emitSpans_ok (encodeErr : keyspan_Span -> option error)
    (add : Writer -> keyspan_Span -> Writer) (vs : list keyspan_Span)
    (st st' : outputState) :
  emitSpans ext c encodeErr add vs st = (st', None) ->
  finishedOutputs st' = finishedOutputs st
  /\ pendingTombstones st' = pendingTombstones st
  /\ pendingRangeKeys st' = pendingRangeKeys st
  /\ (tw st' = None -> tw st = None /\ ve_NewFiles st' = ve_NewFiles st).
Proof.
  revert st. induction vs as [|v vs IH]; intros st H; cbn in H.
  - injection H as <-. tauto.
  - destruct (tw st) as [w|] eqn:Etw.
    + cbn in H. rewrite Etw in H. destruct (encodeErr v); [discriminate |].
      apply IH in H. destruct H as (Hf & Ht & Hk & Hn).
      unfold finishedOutputs in *. cbn in *. rewrite Etw.
      split; [exact Hf |]. split; [exact Ht |]. split; [exact Hk |].
      intros Hnone. destruct (Hn Hnone) as [Hd _]. discriminate.
    + destruct (newOutput ext c st) as [st1 [e|]] eqn:En; [discriminate |].
      apply newOutput_ok in En. destruct En as (Htw & Ht1 & Hk1 & e & Hnf).
      rewrite Htw in H. destruct (encodeErr v); [discriminate |].
      apply IH in H. destruct H as (Hf & Ht & Hk & Hn).
      unfold finishedOutputs in *. cbn in *. rewrite Etw.
      split; [rewrite Hf, Hnf; apply removelast_last |].
      split; [congruence |]. split; [congruence |].
      intros Hnone. destruct (Hn Hnone) as [Hd _]. discriminate.
Qed.

Lemma emitPending_return (splitKey : Bytes) (st st' : outputState) :
  emitPending cmp ext c splitKey st = EmitReturn st' None ->
  tw st' = None /\ ve_NewFiles st' = ve_NewFiles st /\ tw st = None.
Proof.
  unfold emitPending.
  destruct (bool_decide (tw st = None) && negb (isNil splitKey)
            && (cmp _ splitKey =? 0)) eqn:G.
  - intros [= <-]. apply andb_true_iff in G as [G _].
    apply andb_true_iff in G as [G _]. apply bool_decide_eq_true in G. tauto.
  - destruct (SpansUpTo cmp splitKey (pendingTombstones st)) as [ts restT].
    destruct (emitSpans ext c (encodeRangeDelErr ext) addRangeDel ts _)
      as [st1 [e|]] eqn:E1; [discriminate |].
    destruct (SpansUpTo cmp splitKey (pendingRangeKeys st1)) as [ks restK].
    destruct (emitSpans ext c (encodeRangeKeyErr ext) addRangeKey ks _)
      as [st3 [e|]] eqn:E3; [discriminate |].
    destruct (tw st3) eqn:Etw; [discriminate |].
    intros [= <-].
    apply emitSpans_ok in E1, E3.
    destruct E3 as (_ & _ & _ & H3). destruct (H3 Etw) as [H3a H3b].
    destruct E1 as (_ & _ & _ & H1). cbn in *.
    destruct (H1 H3a) as [H1a H1b]. cbn in *.
    repeat split; congruence.
Qed.

Lemma emitPending_continue (splitKey : Bytes) (st st3 : outputState)
    (w : Writer) :
  emitPending cmp ext c splitKey st = EmitContinue st3 w ->
  tw st3 = Some w /\ finishedOutputs st3 = finishedOutputs st.
Proof.
  unfold emitPending.
  destruct (bool_decide (tw st = None) && negb (isNil splitKey)
            && (cmp _ splitKey =? 0)); [discriminate |].
  destruct (SpansUpTo cmp splitKey (pendingTombstones st)) as [ts restT].
  destruct (emitSpans ext c (encodeRangeDelErr ext) addRangeDel ts _)
    as [st1 [e|]] eqn:E1; [discriminate |].
  destruct (SpansUpTo cmp splitKey (pendingRangeKeys st1)) as [ks restK].
  destruct (emitSpans ext c (encodeRangeKeyErr ext) addRangeKey ks _)
    as [st3' [e|]] eqn:E3; [discriminate |].
  destruct (tw st3') eqn:Etw; [| discriminate].
  intros [= <- <-]. split; [exact Etw |].
  apply emitSpans_ok in E1, E3.
  destruct E3 as (H3 & _). destruct E1 as (H1 & _).
  rewrite H3. unfold finishedOutputs in *. cbn in *. exact H1.
Qed.

Lemma set_lastMeta_snoc (st : outputState) (fin : list newFileEntry)
    (e : newFileEntry) (m : fileMetadata) :
  ve_NewFiles st = fin ++ [e] ->
  ve_NewFiles (set_lastMeta st m)
  = fin ++ [ {| nfLevel := nfLevel e; nfMeta := m |} ]
  /\ tw (set_lastMeta st m) = tw st.
Proof.
  intros H. unfold set_lastMeta. rewrite H, reverse_snoc. cbn.
  rewrite reverse_involutive. tauto.
Qed.

(** The output that [closeOutput] completes without error has passed the
    checks, against the output before it. *)
Lemma closeOutput_ok (splitKey : Bytes) (st3 st' : outputState) (w : Writer) :
  tw st3 = Some w ->
  closeOutput cmp ext c splitKey st3 w = Some (st', None) ->
  exists e m,
    tw st' = None
    /\ ve_NewFiles st'
       = removelast (ve_NewFiles st3) ++ [ {| nfLevel := nfLevel e; nfMeta := m |} ]
    /\ outputChecked cmp ext c
         (List.last (map Some (map nfMeta (removelast (ve_NewFiles st3)))) None) m.
Proof.
  intros Htw. unfold closeOutput.
  destruct (closeErr ext w); [discriminate |].
  destruct (metadataErr ext w); [discriminate |].
  cbn [ve_NewFiles set_tw].
  destruct (reverse (ve_NewFiles st3)) as [|e before] eqn:Erev; [discriminate |].
  assert (Hnf : ve_NewFiles st3 = reverse before ++ [e]).
  { rewrite <- (reverse_involutive (ve_NewFiles st3)), Erev.
    apply reverse_cons. }
  set (meta1 := {| FileNum := FileNum (nfMeta e) |}).
  destruct (set_lastMeta_snoc (set_tw st3 None) (reverse before) e meta1 Hnf)
    as [Hnf5 Htw5].
  set (st5 := set_lastMeta (set_tw st3 None) meta1) in *.
  destruct (checkSmallestRangeDel cmp (ve_NewFiles st5) _); [discriminate |].
  destruct (checkLargestRangeDel cmp splitKey _); [discriminate |].
  match goal with
  | |- context [checkInputBounds cmp c ?m] => set (meta4 := m)
  end.
  destruct (set_lastMeta_snoc st5 (reverse before)
              {| nfLevel := nfLevel e; nfMeta := meta1 |} meta4 Hnf5)
    as [Hnf6 Htw6].
  set (st6 := set_lastMeta st5 meta4) in *.
  destruct (checkInputBounds cmp c meta4) eqn:Ebounds; [discriminate |].
  destruct (errorOnUserKeyOverlap cmp (ve_NewFiles st6)) eqn:Eoverlap;
    [discriminate |].
  intros [= <- Hval].
  exists e, meta4. rewrite Hnf, removelast_last.
  split; [rewrite Htw6, Htw5; reflexivity |].
  split; [exact Hnf6 |].
  unfold outputChecked. repeat split.
  - intros Hs. unfold checkInputBounds in Ebounds. rewrite Hs in Ebounds.
    cbn [negb andb] in Ebounds.
    destruct (Z.ltb_spec (cmp (UserKey (Smallest meta4)) (UserKey (smallest c))) 0);
      [discriminate | lia].
  - intros Hl. unfold checkInputBounds in Ebounds. rewrite Hl in Ebounds.
    cbn [negb andb] in Ebounds.
    destruct (negb (isNil (UserKey (smallest c)))
              && (cmp (UserKey (Smallest meta4)) (UserKey (smallest c)) <? 0));
      [discriminate |].
    destruct (Z.gtb_spec (cmp (UserKey (Largest meta4)) (UserKey (largest c))) 0);
      [discriminate | lia].
  - intros p Hp Hsent. unfold errorOnUserKeyOverlap in Eoverlap.
    rewrite Hnf6, reverse_snoc in Eoverlap.
    destruct (reverse (reverse before)) as [|ePrev rest] eqn:Er.
    { rewrite reverse_involutive in Er. subst before. discriminate Hp. }
    rewrite reverse_involutive in Er. subst before.
    rewrite reverse_cons, !map_app in Hp. cbn in Hp.
    rewrite last_last in Hp. injection Hp as <-.
    cbn [nfMeta] in Eoverlap. rewrite Hsent in Eoverlap. cbn [negb andb] in Eoverlap.
    destruct (Z.geb_spec (cmp (UserKey (Largest (nfMeta ePrev)))
                            (UserKey (Smallest meta4))) 0);
      [discriminate | lia].
  - exact Hval.
Qed.

(** The outputs that [finishOutput] has completed without error have each
    passed its checks: one more call keeps that, and leaves no writer
    open. *)
Lemma finishOutput_checks (splitKey : Bytes) (st st' : outputState) :
  outputsChecked cmp ext c None (map nfMeta (finishedOutputs st)) ->
  finishOutput cmp ext c splitKey st = Some (st', None) ->
  tw st' = None
  /\ outputsChecked cmp ext c None (map nfMeta (ve_NewFiles st')).
Proof.
  intros Hinv. unfold finishOutput.
  destruct (emitPending cmp ext c splitKey st) as [st1 err|st3 w] eqn:E.
  - intros [= <- ->]. apply emitPending_return in E.
    destruct E as (Htw & Hnf & Htw0). split; [exact Htw |].
    unfold finishedOutputs in Hinv. rewrite Htw0 in Hinv. now rewrite Hnf.
  - intros Hclose. apply emitPending_continue in E. destruct E as [Htw Hfin].
    destruct (closeOutput_ok splitKey st3 st' w Htw Hclose)
      as (e & m & Htw' & Hnf & Hchk).
    split; [exact Htw' |].
    rewrite Hnf, map_app. cbn [map nfMeta].
    apply outputsChecked_snoc. split; [| exact Hchk].
    unfold finishedOutputs in Hfin. rewrite Htw in Hfin.
    rewrite Hfin. exact Hinv.
Qed.
End OutputChecks.

(** ** The spans that [finishOutput] writes *)

Section EmitPending.
Variable cmp : Compare.
Variable ext : externals.
Variable c : compaction.

(** The comparer finds a key equal to itself. *)
Hypothesis cmp_refl : forall k, cmp k k = 0.
(** Nothing fails: the compaction is not cancelled, the object is created
    and the spans are encoded. *)
Hypothesis not_cancelled : cancel c = false.
Hypothesis create_ok : forall n, createErr ext n = None.
Hypothesis encodeRangeDel_ok : forall v, encodeRangeDelErr ext v = None.
Hypothesis encodeRangeKey_ok : forall v, encodeRangeKeyErr ext v = None.

Lemma SpansUpTo_below (key : Bytes) (pending : list keyspan_Span) :
  isNil key = false ->
  Forall (fun t => cmp (spStart t) key < 0 /\ cmp (spEnd t) key <= 0)
    (fst (SpansUpTo cmp key pending)).
Proof.
  intros Hk. unfold SpansUpTo. rewrite Hk. cbn [fst].
  induction pending as [|s pending IH]; cbn; [constructor |].
  destruct (Z.ltb_spec (cmp (spStart s) key) 0) as [Hlt|Hge]; [| exact IH].
  cbn. constructor; [| exact IH].
  cbn. split; [exact Hlt |].
  destruct (Z.gtb_spec (cmp (spEnd s) key) 0); [rewrite cmp_refl |]; lia.
Qed.

(** The spans handed out are the pending spans that start strictly below
    the key, each one cut at the key. *)
Lemma SpansUpTo_spec (key : Bytes) (pending : list keyspan_Span)
    (t : keyspan_Span) :
  In t (fst (SpansUpTo cmp key pending)) <->
  exists s, In s pending
            /\ (isNil key = false -> cmp (spStart s) key < 0)
            /\ t = if isNil key then s else truncateBelow cmp key s.
Proof.
  unfold SpansUpTo. destruct (isNil key) eqn:Hk; cbn [fst].
  - split.
    + intros H. exists t. repeat split; [exact H | discriminate].
    + intros (s & Hs & _ & ->). exact Hs.
  - rewrite in_map_iff. split.
    + intros (s & <- & Hs). apply filter_In in Hs as [Hs Hlt].
      exists s. repeat split; [exact Hs | intros _; lia].
    + intros (s & Hs & Hlt & ->). exists s. split; [reflexivity |].
      apply filter_In. split; [exact Hs |].
      apply Z.ltb_lt. auto.
Qed.

Lemma emitSpans_total (encodeErr : keyspan_Span -> option error)
    (add : Writer -> keyspan_Span -> Writer) (vs : list keyspan_Span)
    (st : outputState) :
  (forall v, encodeErr v = None) ->
  vs <> [] ->
  exists st',
    emitSpans ext c encodeErr add vs st = (st', None)
    /\ tw st' = Some (fold_left add vs (default emptyWriter (tw st)))
    /\ pendingTombstones st' = pendingTombstones st
    /\ pendingRangeKeys st' = pendingRangeKeys st
    /\ ve_NewFiles st' = ve_NewFiles st ++ newEntry c st.
Proof.
  intros Henc. revert st. induction vs as [|v vs IH]; intros st Hne;
    [congruence |].
  assert (Hstep : exists st1 w,
             (match tw st with
              | None => newOutput ext c st
              | Some _ => (st, None)
              end) = (st1, None)
             /\ tw st1 = Some w /\ w = default emptyWriter (tw st)
             /\ pendingTombstones st1 = pendingTombstones st
             /\ pendingRangeKeys st1 = pendingRangeKeys st
             /\ ve_NewFiles st1 = ve_NewFiles st ++ newEntry c st).
  { unfold newEntry. destruct (tw st) as [w|] eqn:Etw.
    - exists st, w. rewrite app_nil_r. repeat split; assumption.
    - unfold newOutput. rewrite not_cancelled, create_ok.
      eexists _, emptyWriter. repeat split. }
  destruct Hstep as (st1 & w & E1 & Htw1 & Hw & Ht1 & Hk1 & Hnf1).
  cbn [emitSpans]. rewrite E1, Htw1, Henc.
  destruct vs as [|v' vs'].
  - cbn. eexists. split; [reflexivity |]. cbn. rewrite Hw. repeat split; assumption.
  - destruct (IH (set_tw st1 (Some (add w v)))) as (st' & E & Htw & Ht & Hk & Hnf);
      [congruence |].
    exists st'. split; [exact E |]. cbn in *. unfold newEntry in Hnf. cbn in Hnf.
    rewrite app_nil_r in Hnf. rewrite Htw, <- Hw. repeat split; congruence.
Qed.

Lemma fold_addRangeDel (ts : list keyspan_Span) (w : Writer) :
  fold_left addRangeDel ts w = writerAfter w ts [].
Proof.
  revert w. induction ts as [|t ts IH]; intros w; cbn.
  - unfold writerAfter. rewrite !app_nil_r. now destruct w.
  - rewrite IH. unfold writerAfter, addRangeDel. cbn.
    now rewrite <- app_assoc.
Qed.

Lemma fold_addRangeKey (ks : list keyspan_Span) (w : Writer) :
  fold_left addRangeKey ks w = writerAfter w [] ks.
Proof.
  revert w. induction ks as [|k ks IH]; intros w; cbn.
  - unfold writerAfter. rewrite !app_nil_r. now destruct w.
  - rewrite IH. unfold writerAfter, addRangeKey. cbn.
    now rewrite <- app_assoc.
Qed.

(** The truncated range tombstones never trip the check of the largest
    range deletion. *)
Lemma checkLargestRangeDel_truncated (splitKey : Bytes) (w : Writer)
    (ts ks : list keyspan_Span) :
  wRangeDels w = [] ->
  (isNil splitKey = false -> Forall (fun t => cmp (spEnd t) splitKey <= 0) ts) ->
  checkLargestRangeDel cmp splitKey (Writer_Metadata (writerAfter w ts ks))
  = None.
Proof.
  intros Hw Hts. unfold checkLargestRangeDel.
  destruct (isNil splitKey) eqn:Hk; [reflexivity |]. cbn [negb andb].
  specialize (Hts Logic.eq_refl).
  unfold Writer_Metadata, writerAfter. cbn -[List.last]. rewrite Hw.
  cbn -[List.last].
  destruct ts as [|t0 ts0] eqn:Ets; [reflexivity |].
  set (dflt := {| spStart := None; spEnd := None; spKeys := [] |}).
  assert (Hin : In (List.last (t0 :: ts0) dflt) (t0 :: ts0)).
  { destruct (exists_last (l := t0 :: ts0)) as (l' & a & Heq); [congruence |].
    rewrite Heq, last_last. apply in_app_iff. right. now left. }
  rewrite Forall_forall in Hts. specialize (Hts _ Hin).
  assert (Hu : UserKey (spanLargestKey (List.last (t0 :: ts0) dflt))
               = spEnd (List.last (t0 :: ts0) dflt)).
  { unfold spanLargestKey. now destruct (spKeys _). }
  rewrite Hu.
  destruct (isNil (spEnd _)); [reflexivity |]. cbn -[List.last].
  destruct (Z.gtb_spec (cmp (spEnd (List.last (t0 :: ts0) dflt)) splitKey) 0);
    [lia | reflexivity].
Qed.

(** C5, as the code has it.  With no writer and the first pending start
    key (of the range tombstones, or of the range keys when no tombstone is
    pending) equal to a non-nil split key, [finishOutput] returns at once
    and emits nothing.  Otherwise the pending range tombstones and range
    keys that start strictly below the split key are written, cut at the
    split key, into the writer, which is opened when it was absent and
    there is such a span; with no writer and no such span nothing is
    written.  The spans written start strictly below the split key and end
    at or below it, so an output of spans only starts at a key other than
    the split key, and the check of the largest range deletion against the
    split key does not fail. *)
Theorem emitPending_spec (splitKey : Bytes) (st : outputState) :
  let ts := fst (SpansUpTo cmp splitKey (pendingTombstones st)) in
  let ks := fst (SpansUpTo cmp splitKey (pendingRangeKeys st)) in
  let guard :=
    bool_decide (tw st = None) && negb (isNil splitKey)
    && (cmp (firstPendingStart st) splitKey =? 0) in
  (guard = true ->
   emitPending cmp ext c splitKey st = EmitReturn st None
   /\ finishOutput cmp ext c splitKey st = Some (st, None))
  /\ (guard = false ->
      match tw st, ts ++ ks with
      | None, [] =>
          exists st',
            emitPending cmp ext c splitKey st = EmitReturn st' None
            /\ tw st' = None
            /\ ve_NewFiles st' = ve_NewFiles st
      | _, _ =>
          exists st',
            emitPending cmp ext c splitKey st
            = EmitContinue st' (writerAfter (default emptyWriter (tw st)) ts ks)
            /\ ve_NewFiles st' = ve_NewFiles st ++ newEntry c st
      end)
  /\ (isNil splitKey = false ->
      Forall (fun t => cmp (spStart t) splitKey < 0
                       /\ cmp (spEnd t) splitKey <= 0) (ts ++ ks))
  /\ (wRangeDels (default emptyWriter (tw st)) = [] ->
      checkLargestRangeDel cmp splitKey
        (Writer_Metadata (writerAfter (default emptyWriter (tw st)) ts ks))
      = None).
Proof.
  intros ts ks guard. split; [| split; [| split]].
  - intros G. unfold finishOutput, emitPending.
    fold (firstPendingStart st). fold guard. rewrite G. tauto.
  - intros G.
    remember (emitPending cmp ext c splitKey st) as R eqn:HR.
    unfold emitPending in HR. fold (firstPendingStart st) in HR.
    fold guard in HR. rewrite G in HR.
    destruct (SpansUpTo cmp splitKey (pendingTombstones st)) as [ts' restT] eqn:ET.
    assert (Hts : ts = ts') by reflexivity.
    clearbody ts. subst ts'.
    set (st0 := set_pending st restT (pendingRangeKeys st)) in HR.
    assert (H1 : exists st1,
               emitSpans ext c (encodeRangeDelErr ext) addRangeDel ts st0
               = (st1, None)
               /\ pendingRangeKeys st1 = pendingRangeKeys st
               /\ tw st1 = match ts with
                           | [] => tw st
                           | _ => Some (writerAfter (default emptyWriter (tw st)) ts [])
                           end
               /\ ve_NewFiles st1
                  = ve_NewFiles st ++ match ts with [] => [] | _ => newEntry c st end).
    { destruct ts as [|t0 ts0].
      - exists st0. cbn. rewrite app_nil_r. tauto.
      - destruct (emitSpans_total (encodeRangeDelErr ext) addRangeDel
                    (t0 :: ts0) st0 encodeRangeDel_ok)
          as (st1 & E1 & Htw1 & _ & Hk1 & Hnf1); [congruence |].
        exists st1. rewrite fold_addRangeDel in Htw1. tauto. }
    destruct H1 as (st1 & E1 & Hk1 & Htw1 & Hnf1).
    rewrite E1, Hk1 in HR.
    destruct (SpansUpTo cmp splitKey (pendingRangeKeys st)) as [ks' restK] eqn:EK.
    assert (Hks : ks = ks') by reflexivity.
    clearbody ks. subst ks'.
    set (st2 := set_pending st1 (pendingTombstones st1) restK) in HR.
    assert (H3 : exists st3,
               emitSpans ext c (encodeRangeKeyErr ext) addRangeKey ks st2
               = (st3, None)
               /\ tw st3 = match ks with
                           | [] => tw st1
                           | _ => Some (writerAfter (default emptyWriter (tw st1)) [] ks)
                           end
               /\ ve_NewFiles st3
                  = ve_NewFiles st1
                    ++ match ks with
                       | [] => []
                       | _ => match tw st1 with
                              | None => newEntry c st
                              | Some _ => []
                              end
                       end).
    { destruct ks as [|k0 ks0].
      - exists st2. cbn. rewrite app_nil_r. tauto.
      - destruct (emitSpans_total (encodeRangeKeyErr ext) addRangeKey
                    (k0 :: ks0) st2 encodeRangeKey_ok)
          as (st3 & E3 & Htw3 & _ & _ & Hnf3); [congruence |].
        exists st3. rewrite fold_addRangeKey in Htw3.
        split; [exact E3 |]. split; [exact Htw3 |].
        rewrite Hnf3. unfold newEntry, st2. cbn [ve_NewFiles tw nextFileNum set_pending].
        f_equal.
        destruct (tw st1) eqn:E; [reflexivity |].
        destruct ts; [| discriminate]. rewrite <- Htw1.
        assert (Hn : nextFileNum st1 = nextFileNum st).
        { cbn in E1. injection E1 as <-. reflexivity. }
        now rewrite Hn. }
    destruct H3 as (st3 & E3 & Htw3 & Hnf3).
    rewrite E3 in HR.
    destruct ts as [|t0 ts0]; destruct ks as [|k0 ks0]; cbn [app].
    + rewrite Htw3, Htw1 in HR.
      destruct (tw st) as [w|] eqn:Etw.
      * exists st3. subst R. split.
        -- f_equal. unfold writerAfter. cbn. rewrite !app_nil_r. now destruct w.
        -- rewrite Hnf3, Hnf1, !app_nil_r. unfold newEntry.
           now rewrite Etw, app_nil_r.
      * exists st3. subst R. split; [reflexivity |].
        split; [congruence |]. now rewrite Hnf3, Hnf1, !app_nil_r.
    + rewrite Htw3, Htw1 in HR.
      assert (Hres : exists st', R = EmitContinue st'
                   (writerAfter (default emptyWriter (tw st)) [] (k0 :: ks0))
                 /\ ve_NewFiles st' = ve_NewFiles st ++ newEntry c st).
      { exists st3. split; [exact HR |].
        rewrite Hnf3, Hnf1, app_nil_r, Htw1. unfold newEntry.
        destruct (tw st); [now rewrite app_nil_r | reflexivity]. }
      destruct (tw st); exact Hres.
    + rewrite Htw3, Htw1 in HR.
      assert (Hres : exists st', R = EmitContinue st'
                   (writerAfter (default emptyWriter (tw st)) (t0 :: ts0) [])
                 /\ ve_NewFiles st' = ve_NewFiles st ++ newEntry c st).
      { exists st3. split; [exact HR |].
        now rewrite Hnf3, Hnf1, app_nil_r. }
      destruct (tw st); exact Hres.
    + rewrite Htw3, Htw1 in HR. cbn [default] in HR.
      assert (Hres : exists st', R = EmitContinue st'
                   (writerAfter (default emptyWriter (tw st)) (t0 :: ts0) (k0 :: ks0))
                 /\ ve_NewFiles st' = ve_NewFiles st ++ newEntry c st).
      { exists st3. split.
        - rewrite HR. f_equal. unfold writerAfter. cbn. now rewrite !app_nil_r.
        - now rewrite Hnf3, Hnf1, Htw1, app_nil_r. }
      destruct (tw st); exact Hres.
  - intros Hk. apply Forall_app. split; apply SpansUpTo_below; exact Hk.
  - intros Hw. apply checkLargestRangeDel_truncated; [exact Hw |].
    intros Hk. eapply Forall_impl; [| apply SpansUpTo_below; exact Hk].
    cbn. intros t [_ H]. exact H.
Qed.
End EmitPending.

Lemma bytes_Compare_refl (k : Bytes) : bytes_Compare k k = 0.
Proof.
  unfold bytes_Compare.
  assert (H : forall s, String.compare s s = Eq).
  { induction s as [|a s IH]; cbn; [reflexivity |].
    unfold Ascii.compare. now rewrite N.compare_refl. }
  now rewrite H.
Qed.

Lemma emitPending_spec_witness :
  exists st',
    emitPending bytes_Compare noErrors sampleBounds (Some "m") sampleOut0
    = EmitContinue st' (writerAfter emptyWriter [rangeDelSpan "a" "m" 7] [])
    /\ ve_NewFiles st'
       = [ {| nfLevel := 2; nfMeta := emptyFileMetadata 41 |} ].
Proof.
  exact (proj1 (proj2
           (emitPending_spec bytes_Compare noErrors sampleBounds
              bytes_Compare_refl Logic.eq_refl
              (fun _ => Logic.eq_refl) (fun _ => Logic.eq_refl)
              (fun _ => Logic.eq_refl) (Some "m") sampleOut0))
           Logic.eq_refl).
Defined.

(** The claim as stated fails: with no writer, a pending range tombstone
    that starts at the split key c and a pending range key that starts
    strictly below it, at a, [finishOutput] returns at once; the range key
    is not written, no writer is opened and the state is left as it was. *)
Lemma finishOutput_guard_counterexample :
  finishOutput bytes_Compare noErrors sampleBounds (Some "c") sampleGuarded
  = Some (sampleGuarded, None)
  /\ tw sampleGuarded = None
  /\ ve_NewFiles sampleGuarded = []
  /\ exists s,
       In s (pendingRangeKeys sampleGuarded)
       /\ bytes_Compare (spStart s) (Some "c") < 0
       /\ In (truncateBelow bytes_Compare (Some "c") s)
            (fst (SpansUpTo bytes_Compare (Some "c")
                    (pendingRangeKeys sampleGuarded))).
Proof.
  split; [vm_compute; reflexivity |].
  split; [reflexivity |]. split; [reflexivity |].
  exists (rangeKeySpan "a" "e" 6).
  split; [now left |]. split; [vm_compute; reflexivity |].
  vm_compute. now left.
Qed.

(** ** The range-key snapshot transform *)

Section TransformFacts.
Variable eq : Equal.
Variable elideRangeKey : Bytes -> Bytes -> bool.
Variable snapshots : list Z.
Variable s : keyspan_Span.

Hypothesis snapshots_ascending : StronglySorted Z.le snapshots.



Lemma Coalesce_nil : Coalesce eq [] = [].
Proof. reflexivity. Qed.

Lemma elideInLastStripe_nil : elideInLastStripe elideRangeKey s [] = [].
Proof. reflexivity. Qed.











End TransformFacts.



(** ** Checkpoints *)

Section CheckpointFacts.
Variable env : ckEnv.

Lemma ck_bind_inv {A B : Type} (m : CK A) (k : A -> CK B) (s s' : ckState)
    (r : B) :
  (m ≫= k) s = (inl r, s') ->
  exists a s1, m s = (inl a, s1) /\ k a s1 = (inl r, s').
Proof.
  unfold mbind, CK_bind. destruct (m s) as [[a|e] s1]; intros H;
    [eauto | discriminate].
Qed.

Lemma ck_step_inv (st : ckStep) (s s' : ckState) (a : unit) :
  ck_step env st s = (inl a, s') -> s' = s.
Proof.
  unfold ck_step. destruct (fails env st); [discriminate |]. now intros [= _ <-].
Qed.

Tactic Notation "ck_peel" hyp(H) :=
  let a := fresh "a" in
  let s1 := fresh "s" in
  let E := fresh "E" in
  let H' := fresh "H" in
  destruct (ck_bind_inv _ _ _ _ _ H) as (a & s1 & E & H');
  clear H; rename H' into H.

Lemma ck_step_bind {B : Type} (st : ckStep) (k : unit -> CK B)
    (s s' : ckState) (r : B) :
  (ck_step env st ≫= k) s = (inl r, s') -> k tt s = (inl r, s').
Proof.
  intros H. apply ck_bind_inv in H as ([] & s1 & E & H).
  apply ck_step_inv in E. now subst s1.
Qed.

Ltac ck_steps H := repeat apply ck_step_bind in H.

Lemma appendRecord_run (path : string) (r : recordData) (s : ckState)
    (content : list recordData) :
  ck_fs s !! path = Some (File content) ->
  appendRecord path r s
  = (inl tt, {| ck_fs := <[path := File (content ++ [r])]> (ck_fs s);
                ck_trace := ck_trace s;
                ck_disableFileDeletions := ck_disableFileDeletions s |}).
Proof.
  intros H. unfold appendRecord, mbind, CK_bind, ck_get, ck_setFile.
  now rewrite H.
Qed.

(** The copying loop appends the records to the destination, in order. *)
Lemma copyRecords_ok (path : string) (rs : list recordData) (i : nat)
    (s s' : ckState) (content : list recordData) (u : unit) :
  ck_fs s !! path = Some (File content) ->
  copyRecords env path i rs s = (inl u, s') ->
  s' = {| ck_fs := <[path := File (content ++ rs)]> (ck_fs s);
          ck_trace := ck_trace s;
          ck_disableFileDeletions := ck_disableFileDeletions s |}.
Proof.
  revert i s content. induction rs as [|r rs IH]; intros i s content Hc H.
  - cbn in H. apply ck_step_inv in H. subst s'.
    rewrite app_nil_r, insert_id by exact Hc. now destruct s.
  - cbn [copyRecords] in H. ck_steps H.
    ck_peel H. rewrite (appendRecord_run _ _ _ _ Hc) in E.
    injection E as _ <-.
    eapply IH in H; [| cbn; apply lookup_insert_eq].
    subst s'. cbn. rewrite insert_insert_eq, <- app_assoc. reflexivity.
Qed.

Lemma setMarker_ok (dir name value : string) (s s' : ckState) (u : unit) :
  setMarker env dir name value s = (inl u, s') ->
  s' = {| ck_fs := ck_fs s;
          ck_trace := ck_trace s ++ [OpSetMarker dir name value];
          ck_disableFileDeletions := ck_disableFileDeletions s |}.
Proof.
  unfold setMarker. intros H. ck_steps H.
  ck_peel H. unfold ck_log in E. injection E as _ <-.
  apply ck_step_inv in H. now subst s'.
Qed.

(** The manifest that [writeCheckpointManifest] leaves when it returns
    nil. *)
Lemma writeCheckpointManifest_ok (d : DB) (destDirPath : string)
    (fileNum manifestSize : Z) (excluded : gmap (Z * Z) fileMetadata)
    (removeBackingTables : list Z) (s s' : ckState) :
  writeCheckpointManifest env d destDirPath fileNum manifestSize excluded
    removeBackingTables s = (inl tt, s') ->
  let destPath :=
    PathJoin destDirPath
      (PathBase env (MakeFilepath env (dirname d) fileTypeManifest fileNum)) in
  ck_fs s'
  = <[destPath :=
        File (recordsUpTo manifestSize (manifest d)
              ++ if (0 <? size excluded)%nat
                 then [Encoded {| DeletedFiles := excluded; NewFiles := [];
                                  RemovedBackingTables := removeBackingTables |}]
                 else [])]> (ck_fs s)
  /\ ck_trace s'
     = ck_trace s
       ++ [OpCreate destPath;
           OpSetMarker destDirPath (manifestMarkerName env)
             (MakeFilename env fileTypeManifest fileNum)].
Proof.
  intros H destPath. unfold writeCheckpointManifest in H.
  fold destPath in H. ck_steps H.
  ck_peel H. unfold ck_log in E. injection E as _ <-.
  ck_peel H. unfold ck_setFile in E. injection E as _ <-. cbn [ck_fs ck_trace ck_disableFileDeletions] in H.
  ck_peel H.
  eapply copyRecords_ok in E; [| cbn; apply lookup_insert_eq]. subst.
  cbn [ck_fs ck_trace ck_disableFileDeletions] in H. rewrite insert_insert_eq in H.
  ck_peel H.
  assert (Hs0 : s0 = {| ck_fs :=
                          <[destPath :=
                              File (recordsUpTo manifestSize (manifest d)
                                    ++ if (0 <? size excluded)%nat
                                       then [Encoded {| DeletedFiles := excluded;
                                                        NewFiles := [];
                                                        RemovedBackingTables :=
                                                          removeBackingTables |}]
                                       else [])]> (ck_fs s);
                        ck_trace := ck_trace s ++ [OpCreate destPath];
                        ck_disableFileDeletions := ck_disableFileDeletions s |}).
  { destruct (0 <? size excluded)%nat.
    - ck_steps E.
      erewrite appendRecord_run in E by (cbn; apply lookup_insert_eq).
      injection E as _ <-. cbn. now rewrite insert_insert_eq.
    - injection E as _ <-. now rewrite app_nil_r. }
  subst s0. do 2 apply ck_step_bind in H. apply setMarker_ok in H. subst s'. cbn.
  split; [reflexivity |]. now rewrite <- app_assoc.
Qed.

(** The backings handed to [writeCheckpointManifest] for removal are the
    virtual backings that are not required. *)
Lemma removeBackingTablesOf_spec (virtualBackingFiles required : gset Z)
    (n : Z) :
  In n (removeBackingTablesOf virtualBackingFiles required)
  <-> n ∈ virtualBackingFiles /\ n ∉ required.
Proof.
  unfold removeBackingTablesOf. rewrite filter_In, bool_decide_eq_true.
  rewrite <- list_elem_of_In, elem_of_elements. reflexivity.
Qed.

(** What one sstable adds to the sets that the loop accumulates. *)
Lemma checkpointFile_acc (d : DB) (opt : checkpointOptions) (destDir : string)
    (l : Z) (f : fileMetadata) (acc acc' : tablesAcc) (s s' : ckState) :
  checkpointFile env d opt destDir l f acc s = (inl acc', s') ->
  excludedFiles acc'
  = (if excludeFromCheckpoint f opt (db_cmp d)
     then <[(l, FileNum f) := f]> (excludedFiles acc)
     else excludedFiles acc)
  /\ requiredVirtualBackingFiles acc'
     = (if negb (excludeFromCheckpoint f opt (db_cmp d)) && Virtual f
        then {[ BackingDiskFileNum f ]} ∪ requiredVirtualBackingFiles acc
        else requiredVirtualBackingFiles acc).
Proof.
  unfold checkpointFile.
  destruct (excludeFromCheckpoint f opt (db_cmp d)); cbn [negb andb].
  { intros [= <- _]. split; reflexivity. }
  destruct (Virtual f); cbn [andb].
  - case_bool_decide as Hin.
    + intros [= <- _]. split; [reflexivity |].
      symmetry. apply subseteq_union_1_L, singleton_subseteq_l, Hin.
    + destruct (objLookup env (BackingDiskFileNum f)) as [meta|err];
        [| discriminate].
      destruct (omIsRemote meta).
      * intros [= <- _]. split; reflexivity.
      * intros H. ck_peel H. injection H as <- _. split; reflexivity.
  - destruct (objLookup env (BackingDiskFileNum f)) as [meta|err];
      [| discriminate].
    destruct (omIsRemote meta).
    + intros [= <- _]. split; reflexivity.
    + intros H. ck_peel H. injection H as <- _. split; reflexivity.
Qed.

Lemma checkpointLevel_acc (d : DB) (opt : checkpointOptions)
    (destDir : string) (l : Z) (fs : LevelSlice) :
  forall (acc acc' : tablesAcc) (s s' : ckState),
  checkpointLevel env d opt destDir l fs acc s = (inl acc', s') ->
  (forall n, n ∈ requiredVirtualBackingFiles acc'
             <-> n ∈ requiredVirtualBackingFiles acc
                 \/ exists f, In f fs /\ Virtual f = true
                              /\ excludeFromCheckpoint f opt (db_cmp d) = false
                              /\ BackingDiskFileNum f = n)
  /\ (forall k f, excludedFiles acc' !! k = Some f ->
                  excludedFiles acc !! k = Some f
                  \/ (In f fs /\ excludeFromCheckpoint f opt (db_cmp d) = true
                      /\ k = (l, FileNum f)))
  /\ (forall k, is_Some (excludedFiles acc !! k)
                \/ (exists f, In f fs
                              /\ excludeFromCheckpoint f opt (db_cmp d) = true
                              /\ k = (l, FileNum f)) ->
                is_Some (excludedFiles acc' !! k)).
Proof.
  induction fs as [|f fs IH]; intros acc acc' s s' H.
  - injection H as <- _. split; [| split].
    + intros n. split; [tauto | intros [?|(f & [] & _)]; assumption].
    + intros k f Hk. now left.
    + intros k [Hk|(f & [] & _)]. exact Hk.
  - cbn [checkpointLevel] in H. ck_peel H.
    apply checkpointFile_acc in E as [Hex Hreq].
    apply IH in H as (IHreq & IHex & IHsome). split; [| split].
    + intros n. rewrite IHreq, Hreq. split.
      * intros [Hn|(g & Hg & Hrest)].
        -- destruct (excludeFromCheckpoint f opt (db_cmp d)) eqn:Ee;
             destruct (Virtual f) eqn:Ev; cbn [negb andb] in Hn;
             try (now left).
           apply elem_of_union in Hn as [Hn|Hn]; [| now left].
           apply elem_of_singleton in Hn. right. exists f.
           cbn [In]. auto.
        -- right. exists g. cbn [In]. tauto.
      * intros [Hn|(g & [<-|Hg] & Hv & He & Hb)].
        -- left. destruct (negb _ && _); [| exact Hn].
           apply elem_of_union. now right.
        -- left. rewrite He, Hv. cbn [negb andb].
           apply elem_of_union. left. now apply elem_of_singleton.
        -- right. exists g. auto.
    + intros k g Hk. apply IHex in Hk as [Hk|(Hg & He & ->)].
      * rewrite Hex in Hk.
        destruct (excludeFromCheckpoint f opt (db_cmp d)) eqn:Ee;
          [| now left].
        destruct (decide (k = (l, FileNum f))) as [->|Hne].
        -- rewrite lookup_insert_eq in Hk. injection Hk as <-.
           right. cbn [In]. auto.
        -- rewrite lookup_insert_ne in Hk by congruence. now left.
      * right. cbn [In]. auto.
    + intros k Hk. apply IHsome. rewrite Hex.
      destruct Hk as [Hk|(g & [<-|Hg] & He & ->)].
      * left. destruct (excludeFromCheckpoint f opt (db_cmp d));
          [| exact Hk].
        destruct (decide (k = (l, FileNum f))) as [->|Hne].
        -- rewrite lookup_insert_eq. eauto.
        -- rewrite lookup_insert_ne by congruence. exact Hk.
      * left. rewrite He, lookup_insert_eq. eauto.
      * right. exists g. auto.
Qed.

Lemma checkpointLevels_acc (d : DB) (opt : checkpointOptions)
    (destDir : string) (levels : list LevelSlice) :
  forall (l : Z) (acc acc' : tablesAcc) (s s' : ckState),
  checkpointLevels env d opt destDir l levels acc s = (inl acc', s') ->
  (forall n, n ∈ requiredVirtualBackingFiles acc'
             <-> n ∈ requiredVirtualBackingFiles acc
                 \/ includedVirtual d opt levels n)
  /\ (forall k f, excludedFiles acc' !! k = Some f ->
                  excludedFiles acc !! k = Some f
                  \/ excludedAt d opt l levels k f)
  /\ (forall k, is_Some (excludedFiles acc !! k)
                \/ (exists f, excludedAt d opt l levels k f) ->
                is_Some (excludedFiles acc' !! k)).
Proof.
  unfold includedVirtual, excludedAt.
  induction levels as [|fs levels IH]; intros l acc acc' s s' H.
  - injection H as <- _. split; [| split].
    + intros n. split; [tauto | intros [?|(fs & f & [] & _)]; assumption].
    + intros k f Hk. now left.
    + intros k [Hk|(f & i & fs & Hi & _)]; [exact Hk |].
      now rewrite lookup_nil in Hi.
  - cbn [checkpointLevels] in H. ck_peel H.
    apply checkpointLevel_acc in E as (Lreq & Lex & Lsome).
    apply IH in H as (IHreq & IHex & IHsome). split; [| split].
    + intros n. rewrite IHreq, Lreq. split.
      * intros [[Hn|(f & Hf & Hrest)]|(gs & f & Hgs & Hrest)].
        -- now left.
        -- right. exists fs, f. cbn [In]. tauto.
        -- right. exists gs, f. cbn [In]. tauto.
      * intros [Hn|(gs & f & [<-|Hgs] & Hrest)].
        -- left. now left.
        -- left. right. exists f. exact Hrest.
        -- right. exists gs, f. tauto.
    + intros k f Hk. apply IHex in Hk as [Hk|(i & gs & Hi & Hf & He & ->)].
      * apply Lex in Hk as [Hk|(Hf & He & ->)]; [now left |].
        right. exists 0%nat, fs. repeat split; try assumption.
        f_equal. lia.
      * right. exists (S i), gs. repeat split; try assumption.
        f_equal. lia.
    + intros k Hk. apply IHsome.
      destruct Hk as [Hk|(f & [|i] & gs & Hi & Hf & He & ->)].
      * left. apply Lsome. now left.
      * injection Hi as <-. left. apply Lsome. right. exists f.
        repeat split; try assumption. f_equal. lia.
      * right. exists f, i, gs. repeat split; try assumption.
        f_equal. lia.
Qed.

Lemma ck_step_run (st : ckStep) (s : ckState) :
  fails env st = None -> ck_step env st s = (inl tt, s).
Proof. unfold ck_step. now intros ->. Qed.

Lemma ck_bind_run {A B : Type} (m : CK A) (k : A -> CK B) (s s1 : ckState)
    (a : A) :
  m s = (inl a, s1) -> (m ≫= k) s = k a s1.
Proof. unfold mbind, CK_bind. now intros ->. Qed.

Section NoFailure.
Hypothesis no_failure : forall st, fails env st = None.

Lemma copyRecords_run (path : string) (rs : list recordData) :
  forall (i : nat) (s : ckState) (content : list recordData),
  ck_fs s !! path = Some (File content) ->
  copyRecords env path i rs s
  = (inl tt, {| ck_fs := <[path := File (content ++ rs)]> (ck_fs s);
                ck_trace := ck_trace s;
                ck_disableFileDeletions := ck_disableFileDeletions s |}).
Proof.
  induction rs as [|r rs IH]; intros i s content Hc.
  - cbn. rewrite ck_step_run by apply no_failure.
    rewrite app_nil_r, insert_id by exact Hc. now destruct s.
  - cbn [copyRecords].
    do 3 (erewrite ck_bind_run by (apply ck_step_run, no_failure)).
    erewrite ck_bind_run by (apply appendRecord_run, Hc).
    erewrite IH by (cbn; apply lookup_insert_eq). cbn.
    now rewrite insert_insert_eq, <- app_assoc.
Qed.

(** With no failure from outside, [writeCheckpointManifest] returns nil. *)
Lemma writeCheckpointManifest_returns (d : DB) (destDirPath : string)
    (fileNum manifestSize : Z) (excluded : gmap (Z * Z) fileMetadata)
    (removeBackingTables : list Z) (s : ckState) :
  exists s',
    writeCheckpointManifest env d destDirPath fileNum manifestSize excluded
      removeBackingTables s = (inl tt, s').
Proof.
  unfold writeCheckpointManifest.
  do 2 (erewrite ck_bind_run by (apply ck_step_run, no_failure)).
  erewrite ck_bind_run by reflexivity.
  erewrite ck_bind_run by reflexivity.
  erewrite ck_bind_run
    by (apply copyRecords_run with (content := []); cbn;
        apply lookup_insert_eq).
  destruct (0 <? size excluded)%nat.
  - erewrite (ck_bind_run (_ ≫= _)).
    2:{ do 2 (erewrite ck_bind_run by (apply ck_step_run, no_failure)).
        apply appendRecord_run. cbn. apply lookup_insert_eq. }
    do 2 (erewrite ck_bind_run by (apply ck_step_run, no_failure)).
    unfold setMarker.
    do 2 (erewrite ck_bind_run by (apply ck_step_run, no_failure)).
    erewrite ck_bind_run by reflexivity.
    rewrite ck_step_run by apply no_failure. eauto.
  - erewrite ck_bind_run by reflexivity.
    do 2 (erewrite ck_bind_run by (apply ck_step_run, no_failure)).
    unfold setMarker.
    do 2 (erewrite ck_bind_run by (apply ck_step_run, no_failure)).
    erewrite ck_bind_run by reflexivity.
    rewrite ck_step_run by apply no_failure. eauto.
Qed.
End NoFailure.

(** C8, as the code has it: [Checkpoint] hands to
    [writeCheckpointManifest] the sets that the loop over the sstables of
    the version leaves.  When [writeCheckpointManifest] returns nil, the
    manifest of the checkpoint holds the records of the source manifest
    that lie whole within the manifest size, in order, followed, only when
    at least one sstable was excluded, by one version edit; that edit
    deletes the excluded sstables and removes the virtual backings that no
    virtual sstable kept by the checkpoint stands on.  When no sstable was
    excluded nothing is appended, whatever the backings to remove.  With
    no failure from outside [writeCheckpointManifest] does return nil. *)
Theorem checkpoint_manifest (d : DB) (opt : checkpointOptions)
    (destDir : string) (s0 s : ckState) (acc : tablesAcc) :
  checkpointLevels env d opt destDir 0 (currentVersion_Levels d) noTables s0
  = (inl acc, s) ->
  let removed :=
    removeBackingTablesOf (list_to_set (virtualBackings d))
      (requiredVirtualBackingFiles acc) in
  let destPath :=
    PathJoin destDir
      (PathBase env
         (MakeFilepath env (dirname d) fileTypeManifest (manifestFileNum d))) in
  (forall s',
     writeCheckpointManifest env d destDir (manifestFileNum d)
       (manifestSize d) (excludedFiles acc) removed s = (inl tt, s') ->
     ck_fs s'
     = <[destPath :=
           File (recordsUpTo (manifestSize d) (manifest d)
                 ++ if (0 <? size (excludedFiles acc))%nat
                    then [Encoded {| DeletedFiles := excludedFiles acc;
                                     NewFiles := [];
                                     RemovedBackingTables := removed |}]
                    else [])]> (ck_fs s))
  /\ ((forall st, fails env st = None) ->
      exists s',
        writeCheckpointManifest env d destDir (manifestFileNum d)
          (manifestSize d) (excludedFiles acc) removed s = (inl tt, s'))
  /\ (forall k f, excludedFiles acc !! k = Some f ->
                  excludedAt d opt 0 (currentVersion_Levels d) k f)
  /\ (forall k f, excludedAt d opt 0 (currentVersion_Levels d) k f ->
                  is_Some (excludedFiles acc !! k))
  /\ (forall n, In n removed
                <-> In n (virtualBackings d)
                    /\ ~ includedVirtual d opt (currentVersion_Levels d) n).
Proof.
  intros Hloop removed destPath.
  apply checkpointLevels_acc in Hloop as (Hreq & Hex & Hsome).
  split; [| split; [| split; [| split]]].
  - intros s' H. now apply writeCheckpointManifest_ok in H as [H _].
  - intros Hok. now apply writeCheckpointManifest_returns.
  - intros k f Hk. apply Hex in Hk as [Hk|Hk]; [| exact Hk].
    cbn in Hk. now rewrite lookup_empty in Hk.
  - intros k f Hk. apply Hsome. right. now exists f.
  - intros n. unfold removed. rewrite removeBackingTablesOf_spec, Hreq.
    rewrite elem_of_list_to_set, list_elem_of_In. cbn.
    split; intros [Hn Hnot]; (split; [exact Hn |]).
    + intros Hi. apply Hnot. now right.
    + intros [Hi|Hi]; [now apply not_elem_of_empty in Hi | now apply Hnot].
Qed.
End CheckpointFacts.

Lemma checkpoint_manifest_witness :
  exists s',
    writeCheckpointManifest sampleEnv sampleDB "ckpt" 1 22
      (excludedFiles (tablesOf sampleTables))
      (removeBackingTablesOf (list_to_set (virtualBackings sampleDB))
         (requiredVirtualBackingFiles (tablesOf sampleTables)))
      (snd sampleTables) = (inl tt, s')
    /\ ck_fs s' !! "ckpt/MANIFEST-1"
       = Some (File [ Raw "edit-1"; Raw "edit-2";
                      Encoded {| DeletedFiles := {[ (1, 6) := sampleVirtual ]};
                                 NewFiles := [];
                                 RemovedBackingTables := [8] |} ]).
Proof.
  destruct (checkpoint_manifest sampleEnv sampleDB
              (checkpointOptionsOf restrictToAD) "ckpt" sampleFSTables
              (snd sampleTables) (tablesOf sampleTables))
    as (Hm & Hret & _); [vm_compute; reflexivity |].
  destruct Hret as [s' E]; [reflexivity |].
  exists s'. split; [exact E |].
  rewrite (Hm s' E). vm_compute. reflexivity.
Defined.

(** The claim as stated fails: the backing 7 is used by no sstable of the
    version and no sstable is excluded; [Checkpoint] returns nil and the
    manifest of the checkpoint holds the two copied records and no edit
    that removes the backing. *)
Lemma checkpoint_manifest_unused_backing_counterexample :
  exists s',
    Checkpoint sampleEnv sampleDBUnused "ckpt" [] sampleFS = (inl tt, s')
    /\ removeBackingTablesOf (list_to_set (virtualBackings sampleDBUnused))
         (requiredVirtualBackingFiles
            (tablesOf
               (checkpointLevels sampleEnv sampleDBUnused
                  (checkpointOptionsOf []) "ckpt" 0
                  (currentVersion_Levels sampleDBUnused) noTables
                  sampleFSTables)))
       = [7]
    /\ ck_fs s' !! "ckpt/MANIFEST-1"
       = Some (File [ Raw "edit-1"; Raw "edit-2" ]).
Proof.
  eexists. split; [vm_compute; reflexivity |].
  split; vm_compute; reflexivity.
Qed.

(** The copy is record-aligned: a manifest size that ends within the third
    record keeps the first two. *)
Example recordsUpTo_sample :
  recordsUpTo 25 sampleManifest = [ Raw "edit-1"; Raw "edit-2" ].
Proof. reflexivity. Qed.

(** ** An existing destination *)

Section ExistingDestination.
Variable env : ckEnv.

(** When [Stat] gives anything but a not-exist error, [Checkpoint] returns
    before the cleanup is deferred: an error, and the filesystem and the
    count of [disableFileDeletions] as they were. *)
Lemma Checkpoint_stat_returns (d : DB) (destDir : string)
    (opts : list CheckpointOption) (s : ckState) :
  IsNotExist (statResult env (ck_fs s) destDir) = false ->
  Checkpoint env d destDir opts s
  = (inr (default (PathError "checkpoint" destDir ErrExist)
            (statResult env (ck_fs s) destDir)),
     {| ck_fs := ck_fs s; ck_trace := ck_trace s ++ [OpStat destDir];
        ck_disableFileDeletions := ck_disableFileDeletions s |}).
Proof.
  intros H. unfold Checkpoint, mbind, CK_bind, fsStat.
  rewrite H. cbn [negb].
  now destruct (statResult env (ck_fs s) destDir).
Qed.

(** C10: when the destination exists and [Stat] reports it, [Checkpoint]
    returns the path error that wraps [ErrExist]; the filesystem is as it
    was, the count of [disableFileDeletions] too, and the only operation
    performed is the [Stat]: nothing is created and nothing removed. *)
Theorem Checkpoint_existing_destination (d : DB) (destDir : string)
    (opts : list CheckpointOption) (s : ckState) :
  is_Some (ck_fs s !! destDir) ->
  fails env (StepStat destDir) = None ->
  Checkpoint env d destDir opts s
  = (inr (PathError "checkpoint" destDir ErrExist),
     {| ck_fs := ck_fs s; ck_trace := ck_trace s ++ [OpStat destDir];
        ck_disableFileDeletions := ck_disableFileDeletions s |}).
Proof.
  intros [node Hnode] Hstat.
  assert (E : statResult env (ck_fs s) destDir = None)
    by (unfold statResult; now rewrite Hstat, Hnode).
  rewrite Checkpoint_stat_returns by now rewrite E.
  now rewrite E.
Qed.
End ExistingDestination.

Lemma Checkpoint_existing_destination_witness :
  Checkpoint sampleEnv sampleDB "ckpt" [] sampleFSExisting
  = (inr (PathError "checkpoint" "ckpt" ErrExist),
     {| ck_fs := ck_fs sampleFSExisting; ck_trace := [OpStat "ckpt"];
        ck_disableFileDeletions := 0 |})
  /\ ck_fs sampleFSExisting !! "ckpt/keep" = Some (File [Raw "precious"]).
Proof.
  split; [| vm_compute; reflexivity].
  apply (Checkpoint_existing_destination sampleEnv sampleDB "ckpt" []
           sampleFSExisting).
  - exists Dir. vm_compute. reflexivity.
  - reflexivity.
Defined.


(** * Further properties of compaction.go *)

(** ** The comparer *)

Lemma String_compare_le_trans (s1 : string) :
  forall s2 s3 : string,
  String.compare s1 s2 <> Gt -> String.compare s2 s3 <> Gt ->
  String.compare s1 s3 <> Gt.
Proof.
  induction s1 as [|a s1 IH]; intros [|b s2] [|c s3]; cbn;
    try congruence.
  destruct (Ascii.compare a b) eqn:E1; [| | congruence].
  - apply Ascii.compare_eq_iff in E1. subst b.
    destruct (Ascii.compare a c); [apply IH | congruence | congruence].
  - destruct (Ascii.compare b c) eqn:E2; [| | congruence].
    + apply Ascii.compare_eq_iff in E2. subst c. rewrite E1. congruence.
    + intros _ _. unfold Ascii.compare in *.
      apply N.compare_lt_iff in E1, E2.
      pose proof (N.lt_trans _ _ _ E1 E2) as E3.
      apply N.compare_lt_iff in E3. rewrite E3. congruence.
Qed.

(** The comparison of the byte strings is a total preorder. *)
Lemma bytes_Compare_TotalOrder : TotalOrder bytes_Compare.
Proof.
  split.
  - intros a b. unfold bytes_Compare.
    rewrite (String.compare_antisym (bytesOf a) (bytesOf b)).
    now destruct (String.compare (bytesOf b) (bytesOf a)).
  - intros a b c. unfold bytes_Compare.
    pose proof (String_compare_le_trans (bytesOf a) (bytesOf b) (bytesOf c)).
    destruct (String.compare (bytesOf a) (bytesOf b));
      destruct (String.compare (bytesOf b) (bytesOf c));
      destruct (String.compare (bytesOf a) (bytesOf c));
      intros; try lia; exfalso; apply H; congruence.
Qed.

Section OrderFacts.
Variable cmp : Compare.
Hypothesis cmp_order : TotalOrder cmp.

Lemma cmp_refl_le (a : Bytes) : cmp a a <= 0.
Proof. pose proof (cmp_antisym cmp cmp_order a a). lia. Qed.

Lemma cmp_flip_lt (a b : Bytes) : cmp a b < 0 <-> cmp b a > 0.
Proof. pose proof (cmp_antisym cmp cmp_order a b). lia. Qed.

Lemma cmp_flip_le (a b : Bytes) : cmp a b <= 0 <-> cmp b a >= 0.
Proof. pose proof (cmp_antisym cmp cmp_order a b). lia. Qed.

Lemma cmp_lt_le_trans (a b c : Bytes) :
  cmp a b < 0 -> cmp b c <= 0 -> cmp a c < 0.
Proof.
  intros Hab Hbc. destruct (Z_lt_dec (cmp a c) 0) as [|Hn]; [assumption |].
  assert (Hca : cmp c a <= 0) by (apply cmp_flip_le; lia).
  pose proof (cmp_trans cmp cmp_order b c a Hbc Hca) as Hba.
  apply cmp_flip_le in Hba. lia.
Qed.

Lemma cmp_le_lt_trans (a b c : Bytes) :
  cmp a b <= 0 -> cmp b c < 0 -> cmp a c < 0.
Proof.
  intros Hab Hbc. destruct (Z_lt_dec (cmp a c) 0) as [|Hn]; [assumption |].
  assert (Hca : cmp c a <= 0) by (apply cmp_flip_le; lia).
  pose proof (cmp_trans cmp cmp_order c a b Hca Hab) as Hcb.
  apply cmp_flip_le in Hcb. lia.
Qed.

Lemma cmp_lt_trans (a b c : Bytes) :
  cmp a b < 0 -> cmp b c < 0 -> cmp a c < 0.
Proof. intros Hab Hbc. apply (cmp_lt_le_trans a b c); lia. Qed.
End OrderFacts.

(** ** [sort.Search] *)

Lemma search_loop_spec (f : Z -> bool) (n : Z) (fuel : nat) :
  (forall a b, 0 <= a <= b -> b < n -> f a = true -> f b = true) ->
  forall i j,
  0 <= i <= j -> j <= n -> j - i < Z.of_nat fuel ->
  (forall k, 0 <= k < i -> f k = false) ->
  (forall k, j <= k < n -> f k = true) ->
  let r := search_loop fuel f i j in
  i <= r <= j
  /\ (forall k, 0 <= k < r -> f k = false)
  /\ (forall k, r <= k < n -> f k = true).
Proof.
  intros Hmono. induction fuel as [|fuel IH]; intros i j Hij Hjn Hfuel Hlo Hhi.
  - lia.
  - cbn [search_loop]. destruct (i <? j) eqn:E.
    + apply Z.ltb_lt in E. rewrite Z.shiftr_div_pow2 by lia.
      change (2 ^ 1) with 2.
      assert (Hh : i <= (i + j) / 2 < j).
      { split; [apply Z.div_le_lower_bound | apply Z.div_lt_upper_bound];
          lia. }
      set (h := (i + j) / 2) in *.
      destruct (f h) eqn:Fh; cbn [negb].
      * destruct (IH i h) as (Hr & Hl & Hu); try lia; try assumption.
        { intros k Hk. apply (Hmono h k); [lia | lia | exact Fh]. }
        cbv zeta in *. repeat split; try lia; assumption.
      * destruct (IH (h + 1) j) as (Hr & Hl & Hu); try lia; try assumption.
        { intros k Hk. destruct (f k) eqn:Fk; [| reflexivity].
          assert (f h = true) by (apply (Hmono k h); [lia | lia | exact Fk]).
          congruence. }
        cbv zeta in *. repeat split; try lia; assumption.
    + apply Z.ltb_ge in E. assert (i = j) by lia. subst j.
      cbv zeta. repeat split; try lia; assumption.
Qed.

(** On a predicate that is false up to some index and true from it on,
    [sort.Search] returns that index: the least one where the predicate
    holds, or [n]. *)
Lemma sort_Search_spec (f : Z -> bool) (n : Z) :
  0 <= n ->
  (forall a b, 0 <= a <= b -> b < n -> f a = true -> f b = true) ->
  0 <= sort_Search n f <= n
  /\ (forall k, 0 <= k < sort_Search n f -> f k = false)
  /\ (forall k, sort_Search n f <= k < n -> f k = true).
Proof.
  intros Hn Hmono. unfold sort_Search.
  apply (search_loop_spec f n (S (Z.to_nat n)) Hmono 0 n); try lia.
Qed.

Lemma StronglySorted_nth {A : Type} (R : A -> A -> Prop) (l : list A)
    (d : A) :
  StronglySorted R l ->
  forall i j : nat, (i < j)%nat -> (j < length l)%nat ->
  R (nth i l d) (nth j l d).
Proof.
  induction 1 as [|a l Hs IH Hall]; intros i j Hij Hj; cbn in Hj; [lia |].
  destruct j as [|j]; [lia |]. destruct i as [|i]; cbn [nth].
  - rewrite Forall_forall in Hall. apply Hall, nth_In. lia.
  - apply IH; lia.
Qed.

Lemma nth_split_at {A : Type} (l : list A) (d : A) (i : nat) :
  (i < length l)%nat ->
  l = firstn i l ++ nth i l d :: skipn (S i) l.
Proof.
  revert i. induction l as [|a l IH]; intros [|i] Hi; cbn in *; try lia.
  - reflexivity.
  - f_equal. apply IH. lia.
Qed.

Lemma Forall_firstn_nth {A : Type} (P : A -> Prop) (l : list A) (d : A)
    (i : nat) :
  (i <= length l)%nat ->
  (forall k : nat, (k < i)%nat -> P (nth k l d)) ->
  Forall P (firstn i l).
Proof.
  revert i. induction l as [|a l IH]; intros [|i] Hi H; cbn in *;
    try constructor.
  - apply (H 0%nat). lia.
  - apply IH; [lia |]. intros k Hk. apply (H (S k)). lia.
Qed.

(** ** Output limits *)

Section OutputLimitFacts.
Variable cmp : Compare.
Hypothesis cmp_order : TotalOrder cmp.

(** [findL0Limit]: nil unless the compaction is a flush into L0 with
    limits; for such a flush, over limits in ascending order, the first
    limit strictly above [start], and nil when there is none. *)
Theorem findL0Limit_spec (c : compaction) (l0Limits : list Bytes)
    (start : Bytes) (sl ol : compactionLevel) :
  levelAt c (startLevel c) = Some sl ->
  levelAt c (outputLevel c) = Some ol ->
  StronglySorted (fun a b => cmp a b <= 0) l0Limits ->
  exists r,
    findL0Limit cmp c l0Limits start = Some r
    /\ (level sl > -1 \/ level ol <> 0 -> r = None)
    /\ (level sl <= -1 -> level ol = 0 ->
        (Forall (fun l => cmp l start <= 0) l0Limits /\ r = None)
        \/ (exists pre post,
              l0Limits = pre ++ r :: post
              /\ Forall (fun l => cmp l start <= 0) pre
              /\ cmp r start > 0)).
Proof.
  intros Hsl Hol Hsorted. unfold findL0Limit. rewrite Hsl.
  destruct (level sl >? -1) eqn:E1.
  { exists None. split; [reflexivity |]. split; [reflexivity |].
    apply Z.gtb_lt in E1. intros ? ?. exfalso. lia. }
  rewrite Hol.
  assert (Hle : level sl <= -1).
  { destruct (Z.gtb_spec (level sl) (-1)); [discriminate | lia]. }
  destruct (level ol =? 0) eqn:E2; cbn [negb orb].
  2:{ exists None. split; [reflexivity |]. split; [reflexivity |].
      apply Z.eqb_neq in E2. intros ? ?. exfalso. lia. }
  apply Z.eqb_eq in E2.
  destruct (length l0Limits =? 0)%nat eqn:E3.
  { apply Nat.eqb_eq in E3. destruct l0Limits; [| discriminate].
    exists None. split; [reflexivity |]. split; [reflexivity |].
    intros _ _. left. split; [constructor | reflexivity]. }
  remember (Z.of_nat (length l0Limits)) as n eqn:Hn.
  destruct (sort_Search_spec
              (fun i => cmp (nth (Z.to_nat i) l0Limits None) start >? 0) n)
    as (Hr & Hlo & Hhi); [lia | |].
  { intros a b Hab Hb Fa. cbv beta in *.
    apply Z.gtb_lt in Fa. apply Z.gtb_lt.
    destruct (Z.eq_dec a b) as [->|Hne]; [lia |].
    assert (G1 : (Z.to_nat a < Z.to_nat b)%nat) by (clear Fa; lia).
    assert (G2 : (Z.to_nat b < length l0Limits)%nat) by (clear Fa; lia).
    pose proof (StronglySorted_nth (A:=Bytes) _ _ None Hsorted _ _ G1 G2) as Hs.
    cbv beta in Hs.
    destruct (Z_le_dec (cmp (nth (Z.to_nat b) l0Limits None) start) 0)
      as [Hbs|Hnb]; [| now apply Z.nle_gt].
    pose proof (cmp_trans cmp cmp_order _ _ _ Hs Hbs) as Has.
    exfalso. exact (Z.lt_irrefl _ (Z.lt_le_trans _ _ _ Fa Has)). }
  remember (sort_Search n _) as index eqn:Hindex.
  assert (Hpre : Forall (fun l => cmp l start <= 0)
                   (firstn (Z.to_nat index) l0Limits)).
  { apply (Forall_firstn_nth (A:=Bytes) _ _ None); [lia |].
    intros k Hk. specialize (Hlo (Z.of_nat k)). cbv beta in Hlo.
    rewrite Nat2Z.id in Hlo.
    destruct (Z.gtb_spec (cmp (nth k l0Limits None) start) 0);
      [| lia]. discriminate Hlo. lia. }
  destruct (index <? n) eqn:E4.
  - apply Z.ltb_lt in E4. eexists. split; [reflexivity |].
    split; [lia |]. intros _ _. right.
    exists (firstn (Z.to_nat index) l0Limits),
           (skipn (S (Z.to_nat index)) l0Limits).
    split; [apply nth_split_at; lia |]. split; [exact Hpre |].
    specialize (Hhi index). cbv beta in Hhi.
    apply Z.gtb_lt in Hhi; lia.
  - apply Z.ltb_ge in E4. exists None. split; [reflexivity |].
    split; [reflexivity |]. intros _ _. left. split; [| reflexivity].
    assert (index = n) by lia.
    replace (Z.to_nat index) with (length l0Limits) in Hpre by lia.
    now rewrite firstn_all in Hpre.
Qed.
End OutputLimitFacts.

(** ** Elision against the in-use key ranges *)

Section ElisionFacts.
Variable cmp : Compare.
Hypothesis cmp_order : TotalOrder cmp.

Lemma rangesSorted_cons (r : UserKeyRange) (rs : list UserKeyRange) :
  rangesSorted cmp (r :: rs) ->
  cmp (Start r) (End_ r) <= 0
  /\ Forall (fun r2 => cmp (End_ r) (Start r2) < 0) rs
  /\ rangesSorted cmp rs.
Proof.
  intros [Hwf Hs]. inversion Hwf; subst. inversion Hs; subst.
  repeat split; assumption.
Qed.

Lemma rangesSorted_nth (rs : list UserKeyRange) (d : UserKeyRange)
    (i j : nat) :
  rangesSorted cmp rs -> (i <= j)%nat -> (j < length rs)%nat ->
  cmp (End_ (nth i rs d)) (End_ (nth j rs d)) <= 0
  /\ cmp (Start (nth i rs d)) (Start (nth j rs d)) <= 0.
Proof.
  intros [Hwf Hs] Hij Hj.
  assert (Hwfn : forall k, (k < length rs)%nat ->
                           cmp (Start (nth k rs d)) (End_ (nth k rs d)) <= 0).
  { intros k Hk. rewrite Forall_forall in Hwf. apply Hwf, nth_In, Hk. }
  destruct (Nat.eq_dec i j) as [->|Hne].
  - split; apply (cmp_refl_le cmp cmp_order).
  - assert (Hlt : cmp (End_ (nth i rs d)) (Start (nth j rs d)) < 0)
      by (apply (StronglySorted_nth _ _ d Hs); lia).
    split.
    + apply Z.lt_le_incl.
      apply (cmp_lt_le_trans cmp cmp_order _ _ _ Hlt), Hwfn, Hj.
    + apply Z.lt_le_incl.
      apply (cmp_le_lt_trans cmp cmp_order _ (End_ (nth i rs d)));
        [apply Hwfn; lia | exact Hlt].
Qed.

(** [elideRangeTombstone], outside a flush and with span elision on: over
    in-use ranges in ascending order it returns true exactly when no
    in-use range has a key in common with the tombstone. *)
Theorem elideRangeTombstone_spec (c : compaction) (start end_ : Bytes) :
  rangesSorted cmp (inuseKeyRanges c) ->
  disableSpanElision c = false ->
  flushing c = [] ->
  elideRangeTombstone cmp c start end_ = true
  <-> forall r, In r (inuseKeyRanges c) -> ~ rangeOverlaps cmp r start end_.
Proof.
  intros Hrs Hdis Hfl. unfold elideRangeTombstone.
  rewrite Hdis, Hfl. cbn [length Nat.eqb negb orb].
  remember (Z.of_nat (length (inuseKeyRanges c))) as n eqn:Hn.
  set (d := {| Start := None; End_ := None |}).
  assert (Hat : forall i, rangeAt c i = nth (Z.to_nat i) (inuseKeyRanges c) d)
    by reflexivity.
  destruct (sort_Search_spec
              (fun i => cmp (End_ (rangeAt c i)) start >=? 0) n)
    as (Hl & Hllo & Hlhi); [lia | |].
  { intros a b Hab Hb Fa. rewrite Hat in *.
    apply Z.geb_le in Fa. apply Z.geb_le.
    destruct (rangesSorted_nth (inuseKeyRanges c) d (Z.to_nat a) (Z.to_nat b))
      as [He _]; [exact Hrs | lia | lia |].
    apply (cmp_flip_le cmp cmp_order) in He.
    apply Z.ge_le in He.
    destruct (Z_le_dec 0 (cmp (End_ (nth (Z.to_nat b) (inuseKeyRanges c) d))
                            start)) as [|Hn0]; [assumption |].
    exfalso. apply Z.nle_gt in Hn0.
    assert (H1 : cmp start (End_ (nth (Z.to_nat a) (inuseKeyRanges c) d)) <= 0)
      by (apply (cmp_flip_le cmp cmp_order); apply Z.le_ge; exact Fa).
    assert (H2 : cmp (End_ (nth (Z.to_nat a) (inuseKeyRanges c) d))
                   (End_ (nth (Z.to_nat b) (inuseKeyRanges c) d)) <= 0)
      by (apply (cmp_flip_le cmp cmp_order); apply Z.le_ge; exact He).
    pose proof (cmp_trans cmp cmp_order _ _ _ H1 H2) as H3.
    apply (cmp_flip_le cmp cmp_order) in H3. apply Z.ge_le in H3.
    exact (Z.lt_irrefl _ (Z.lt_le_trans _ _ _ Hn0 H3)). }
  destruct (sort_Search_spec
              (fun i => cmp (Start (rangeAt c i)) end_ >? 0) n)
    as (Hu & Hulo & Huhi); [lia | |].
  { intros a b Hab Hb Fa. rewrite Hat in *.
    apply Z.gtb_lt in Fa. apply Z.gtb_lt.
    destruct (rangesSorted_nth (inuseKeyRanges c) d (Z.to_nat a) (Z.to_nat b))
      as [_ Hs]; [exact Hrs | lia | lia |].
    apply Z.gt_lt. apply (cmp_flip_lt cmp cmp_order).
    apply (cmp_lt_le_trans cmp cmp_order _ _ _
             (proj2 (cmp_flip_lt cmp cmp_order _ _) (Z.lt_gt _ _ Fa)) Hs). }
  remember (sort_Search n (fun i => cmp (End_ (rangeAt c i)) start >=? 0))
    as lower eqn:Hlower.
  remember (sort_Search n (fun i => cmp (Start (rangeAt c i)) end_ >? 0))
    as upper eqn:Hupper.
  cbv beta in *. split.
  - intros Hge r Hin [Ho1 Ho2]. apply Z.geb_le in Hge.
    destruct (In_nth _ _ d Hin) as (k & Hk & <-).
    destruct (Z_lt_dec (Z.of_nat k) lower) as [Hlt|Hnlt].
    + specialize (Hllo (Z.of_nat k)). rewrite Hat, Nat2Z.id in Hllo.
      assert (Hf : (cmp (End_ (nth k (inuseKeyRanges c) d)) start >=? 0)
                   = false) by (apply Hllo; lia).
      apply (cmp_flip_le cmp cmp_order) in Ho1. apply Z.ge_le in Ho1.
      apply Z.geb_le in Ho1. congruence.
    + specialize (Huhi (Z.of_nat k)). rewrite Hat, Nat2Z.id in Huhi.
      assert (Hf : (cmp (Start (nth k (inuseKeyRanges c) d)) end_ >? 0)
                   = true) by (apply Huhi; lia).
      apply Z.gtb_lt in Hf.
      exact (Z.lt_irrefl _ (Z.lt_le_trans _ _ _ Hf Ho2)).
  - intros Hnone. apply Z.geb_le.
    destruct (Z_le_dec upper lower) as [|Hlt]; [assumption |]. exfalso.
    assert (Hk : (Z.to_nat lower < length (inuseKeyRanges c))%nat) by lia.
    apply (Hnone (nth (Z.to_nat lower) (inuseKeyRanges c) d));
      [apply nth_In, Hk |].
    specialize (Hlhi lower). specialize (Hulo lower). rewrite Hat in *.
    split.
    + apply (cmp_flip_le cmp cmp_order). apply Z.le_ge.
      apply Z.geb_le. apply Hlhi. lia.
    + assert (Hf : (cmp (Start (nth (Z.to_nat lower) (inuseKeyRanges c) d))
                      end_ >? 0) = false) by (apply Hulo; lia).
      destruct (Z.gtb_spec
                  (cmp (Start (nth (Z.to_nat lower) (inuseKeyRanges c) d))
                     end_) 0); [discriminate | assumption].
Qed.
End ElisionFacts.

Section ElideTombstoneFacts.
Variable cmp : Compare.
Hypothesis cmp_order : TotalOrder cmp.

(** The scan of [elideTombstone] over in-use ranges in ascending order:
    the ranges that the cursor passes end below the key, and the result is
    true exactly when none of the ranges scanned holds the key. *)
Lemma elideTombstone_loop_spec (key : Bytes) (rs : list UserKeyRange) :
  forall idx : nat,
  rangesSorted cmp rs ->
  let res := elideTombstone_loop cmp key rs idx in
  (idx <= snd res <= idx + length rs)%nat
  /\ Forall (fun r => cmp (End_ r) key < 0) (firstn (snd res - idx) rs)
  /\ (fst res = true <-> forall r, In r rs -> ~ rangeContains cmp r key).
Proof.
  induction rs as [|r rs IH]; intros idx Hrs; cbn [elideTombstone_loop].
  - cbn. split; [lia |]. split; [rewrite firstn_nil; constructor |].
    split; [intros _ r [] | reflexivity].
  - destruct (rangesSorted_cons cmp r rs Hrs) as (Hwf & Hall & Hrs').
    destruct (cmp key (End_ r) <=? 0) eqn:E1.
    + apply Z.leb_le in E1.
      assert (Hlater : forall r2, In r2 rs -> ~ rangeContains cmp r2 key).
      { intros r2 Hin [Hc _]. rewrite Forall_forall in Hall.
        pose proof (cmp_le_lt_trans cmp cmp_order _ _ _ E1 (Hall r2 Hin))
          as Hlt.
        apply (cmp_flip_lt cmp cmp_order) in Hlt. lia. }
      destruct (cmp key (Start r) >=? 0) eqn:E2; cbn [fst snd].
      * apply Z.geb_le in E2. split; [cbn; lia |].
        rewrite Nat.sub_diag. split; [constructor |].
        split; [discriminate |]. intros Hnone. exfalso.
        apply (Hnone r); [now left |]. split; [| exact E1].
        apply (cmp_flip_le cmp cmp_order). lia.
      * split; [cbn; lia |]. rewrite Nat.sub_diag.
        split; [constructor |]. split; [| reflexivity].
        intros _ r2 [<-|Hin]; [| now apply Hlater].
        intros [Hc _]. apply (cmp_flip_le cmp cmp_order) in Hc.
        destruct (Z.geb_spec (cmp key (Start r)) 0); [discriminate | lia].
    + destruct (IH (S idx) Hrs') as (Hidx & Hpassed & Hres).
      cbv zeta in *. split; [cbn [length]; lia |].
      assert (E1' : cmp (End_ r) key < 0).
      { apply (cmp_flip_lt cmp cmp_order).
        destruct (Z.leb_spec (cmp key (End_ r)) 0); [discriminate | lia]. }
      split.
      * replace (snd (elideTombstone_loop cmp key rs (S idx)) - idx)%nat
          with (S (snd (elideTombstone_loop cmp key rs (S idx)) - S idx))
          by lia.
        cbn [firstn]. constructor; assumption.
      * rewrite Hres. split.
        -- intros Hnone r2 [<-|Hin]; [| now apply Hnone].
           intros [_ Hc]. lia.
        -- intros Hnone r2 Hin. apply Hnone. now right.
Qed.

(** [elideTombstone] on keys supplied in order, outside a flush and
    without the whole-range shortcut.  When the ranges before the cursor
    end below the key, the result is true exactly when no in-use range
    holds the key; only the cursor changes, it does not move back, and
    the ranges before it end below every later key. *)
Theorem elideTombstone_in_order (c : compaction) (key : Bytes) :
  rangesSorted cmp (inuseKeyRanges c) ->
  inuseEntireRange c = false ->
  flushing c = [] ->
  Forall (fun r => cmp (End_ r) key < 0)
    (firstn (elideTombstoneIndex c) (inuseKeyRanges c)) ->
  let res := fst (elideTombstone cmp c key) in
  let c' := snd (elideTombstone cmp c key) in
  (res = true
   <-> forall r, In r (inuseKeyRanges c) -> ~ rangeContains cmp r key)
  /\ c' = set_elideTombstoneIndex c (elideTombstoneIndex c')
  /\ (elideTombstoneIndex c <= elideTombstoneIndex c')%nat
  /\ forall key', cmp key key' <= 0 ->
       Forall (fun r => cmp (End_ r) key' < 0)
         (firstn (elideTombstoneIndex c') (inuseKeyRanges c)).
Proof.
  intros Hrs Hent Hfl Hcur. unfold elideTombstone.
  rewrite Hent, Hfl. cbn [length Nat.eqb negb orb].
  assert (Hdrop : rangesSorted cmp
                    (skipn (elideTombstoneIndex c) (inuseKeyRanges c))).
  { destruct Hrs as [Hwf Hs].
    rewrite <- (firstn_skipn (elideTombstoneIndex c) (inuseKeyRanges c))
      in Hwf, Hs.
    split.
    - now apply Forall_app in Hwf as [_ Hwf].
    - clear Hwf Hcur. revert Hs.
      generalize (skipn (elideTombstoneIndex c) (inuseKeyRanges c)).
      induction (firstn (elideTombstoneIndex c) (inuseKeyRanges c))
        as [|a l IHl]; intros l' Hs; [exact Hs |].
      cbn in Hs. inversion Hs; subst. now apply IHl. }
  pose proof (elideTombstone_loop_spec key
                (skipn (elideTombstoneIndex c) (inuseKeyRanges c))
                (elideTombstoneIndex c) Hdrop) as Hloop.
  change (drop (elideTombstoneIndex c) (inuseKeyRanges c))
    with (skipn (elideTombstoneIndex c) (inuseKeyRanges c)).
  destruct (elideTombstone_loop cmp key
              (skipn (elideTombstoneIndex c) (inuseKeyRanges c))
              (elideTombstoneIndex c)) as [res idx'].
  cbn [fst snd] in *. destruct Hloop as (Hidx & Hpassed & Hres).
  split; [| split; [reflexivity | split; [cbn; lia |]]].
  - rewrite Hres. split.
    + intros Hnone r Hin.
      rewrite <- (firstn_skipn (elideTombstoneIndex c) (inuseKeyRanges c))
        in Hin.
      apply in_app_or in Hin as [Hin|Hin]; [| now apply Hnone].
      rewrite Forall_forall in Hcur. intros [_ Hc].
      pose proof (Hcur r Hin) as Hlt.
      apply (cmp_flip_lt cmp cmp_order) in Hlt. lia.
    + intros Hnone r Hin. apply Hnone.
      rewrite <- (firstn_skipn (elideTombstoneIndex c) (inuseKeyRanges c)).
      apply in_or_app. now right.
  - intros key' Hk. cbn [set_elideTombstoneIndex elideTombstoneIndex].
    assert (Hall : Forall (fun r => cmp (End_ r) key < 0)
                     (firstn idx' (inuseKeyRanges c))).
    { replace idx' with (elideTombstoneIndex c
                         + (idx' - elideTombstoneIndex c))%nat by lia.
      rewrite <- take_take_drop. apply Forall_app. split; assumption. }
    eapply Forall_impl; [| exact Hall]. intros r Hr. cbv beta in *.
    exact (cmp_lt_le_trans cmp cmp_order _ _ _ Hr Hk).
Qed.

(** When [setupInuseKeyRanges] sets [inuseEntireRange], the first in-use
    range holds every key within the bounds of the compaction: the
    shortcut of [elideTombstone] answers as the scan would. *)
Theorem setupInuseKeyRanges_entire (v : version) (outLevel : Z)
    (sm lg : InternalKey) (rs : list UserKeyRange) (key : Bytes) :
  setupInuseKeyRanges cmp v outLevel sm lg = (rs, true) ->
  cmp (UserKey sm) key <= 0 ->
  cmp key (UserKey lg) <= 0 ->
  exists r0 rest,
    rs = r0 :: rest /\ rangeContains cmp r0 key
    /\ fst (elideTombstone_loop cmp key rs 0) = false.
Proof.
  unfold setupInuseKeyRanges. intros H Hs Hl.
  destruct (CalculateInuseKeyRanges v _ _ _ _) as [|r0 rest];
    [discriminate |].
  injection H as <- H. apply andb_true_iff in H as [H1 H2].
  apply Z.leb_le in H1. apply Z.geb_le in H2.
  assert (Hc : rangeContains cmp r0 key).
  { split.
    - exact (cmp_trans cmp cmp_order _ _ _ H1 Hs).
    - apply (cmp_trans cmp cmp_order _ _ _ Hl).
      apply (cmp_flip_le cmp cmp_order). lia. }
  exists r0, rest. split; [reflexivity |]. split; [exact Hc |].
  destruct Hc as [Hc1 Hc2]. cbn [elideTombstone_loop].
  apply Z.leb_le in Hc2. rewrite Hc2.
  apply (cmp_flip_le cmp cmp_order) in Hc1. apply Z.ge_le in Hc1.
  apply Z.geb_le in Hc1. now rewrite Hc1.
Qed.
End ElideTombstoneFacts.

Section GrandparentLimitFacts.
Variable cmp : Compare.
Hypothesis cmp_order : TotalOrder cmp.

Lemma findGrandparentLimit_loop_spec (maxOverlap : Z) (start : Bytes)
    (fs : list fileMetadata) :
  forall (acc : Z) (greater : bool),
  filesSorted cmp fs ->
  (greater = true ->
   Forall (fun f => cmp (UserKey (Smallest f)) start > 0) fs) ->
  let Q := fun pre f =>
    cmp (UserKey (Smallest f)) start > 0
    /\ fold_left (fun a g => uint64_add a (Size g)) (pre ++ [f]) acc
       > maxOverlap in
  (exists pre f post,
      fs = pre ++ f :: post
      /\ findGrandparentLimit_loop cmp maxOverlap start fs acc greater
         = UserKey (Smallest f)
      /\ Q pre f
      /\ forall p1 g p2, pre = p1 ++ g :: p2 -> ~ Q p1 g)
  \/ (findGrandparentLimit_loop cmp maxOverlap start fs acc greater = None
      /\ forall pre f post, fs = pre ++ f :: post -> ~ Q pre f).
Proof.
  induction fs as [|f fs IH]; intros acc greater Hs Hg Q.
  - right. split; [reflexivity |]. intros [|? ?] ? ? [=].
  - cbn [findGrandparentLimit_loop].
    inversion Hs as [|? ? Hs' Hall]; subst.
    assert (Hgreater :
              greater || (cmp (UserKey (Smallest f)) start >? 0) = true
              <-> cmp (UserKey (Smallest f)) start > 0).
    { rewrite orb_true_iff, Z.gtb_lt. split; [| intros; right; lia].
      intros [->|]; [| lia]. specialize (Hg eq_refl).
      now inversion Hg. }
    assert (Hg' :
              greater || (cmp (UserKey (Smallest f)) start >? 0) = true ->
              Forall (fun f => cmp (UserKey (Smallest f)) start > 0) fs).
    { intros Ht. apply Hgreater in Ht. eapply Forall_impl; [| exact Hall].
      intros g Hfg. cbv beta in *.
      apply (cmp_flip_lt cmp cmp_order).
      apply (cmp_lt_le_trans cmp cmp_order _ (UserKey (Smallest f)));
        [| exact Hfg].
      apply (cmp_flip_lt cmp cmp_order). exact Ht. }
    specialize (IH (uint64_add acc (Size f))
                  (greater || (cmp (UserKey (Smallest f)) start >? 0))
                  Hs' Hg').
    cbv zeta in IH.
    assert (Hrec :
              ~ Q [] f ->
              (exists pre f0 post,
                  f :: fs = pre ++ f0 :: post
                  /\ findGrandparentLimit_loop cmp maxOverlap start fs
                       (uint64_add acc (Size f))
                       (greater || (cmp (UserKey (Smallest f)) start >? 0))
                     = UserKey (Smallest f0)
                  /\ Q pre f0
                  /\ forall p1 g p2, pre = p1 ++ g :: p2 -> ~ Q p1 g)
              \/ (findGrandparentLimit_loop cmp maxOverlap start fs
                    (uint64_add acc (Size f))
                    (greater || (cmp (UserKey (Smallest f)) start >? 0))
                  = None
                  /\ forall pre f0 post,
                       f :: fs = pre ++ f0 :: post -> ~ Q pre f0)).
    { intros HnQ.
      destruct IH as [(pre & f0 & post & -> & Hres & HQ & Hfirst)|[Hres Hnone]].
      - left. exists (f :: pre), f0, post.
        split; [reflexivity |]. split; [exact Hres |]. split; [exact HQ |].
        intros [|g' p1] g p2 Heq; injection Heq as <- Heq.
        + exact HnQ.
        + now apply (Hfirst p1 g p2).
      - right. split; [exact Hres |].
        intros [|g' pre] f0 post Heq; injection Heq as <- Heq.
        + exact HnQ.
        + now apply (Hnone pre f0 post). }
    destruct (greater || (cmp (UserKey (Smallest f)) start >? 0)) eqn:Eg;
      cbn [negb].
    + destruct (uint64_add acc (Size f) >? maxOverlap) eqn:Eo.
      * left. exists [], f, fs. split; [reflexivity |].
        split; [reflexivity |]. split.
        -- split; [now apply Hgreater |]. cbn. now apply Z.lt_gt, Z.gtb_lt.
        -- intros [|? ?] ? ? [=].
      * apply Hrec. intros [_ Hover]. cbn in Hover.
        apply Z.gt_lt, Z.gtb_lt in Hover. congruence.
    + apply Hrec. intros [Hgt _]. apply Hgreater in Hgt. discriminate.
Qed.

(** [findGrandparentLimit] over grandparents in ascending order: the limit
    is the smallest user key of the first file that starts above [start]
    and with which the sizes of the files from the seek position exceed
    [maxOverlapBytes]; it is above [start].  It is nil when there is no
    such file. *)
Theorem findGrandparentLimit_spec
    (SeekGE : Compare -> Bytes -> LevelSlice -> LevelSlice)
    (c : compaction) (start : Bytes) :
  filesSorted cmp (SeekGE cmp start (grandparents c)) ->
  (exists pre f post,
      SeekGE cmp start (grandparents c) = pre ++ f :: post
      /\ findGrandparentLimit cmp SeekGE c start = UserKey (Smallest f)
      /\ overlapExceeded cmp (maxOverlapBytes c) start pre f
      /\ forall p1 g p2,
           pre = p1 ++ g :: p2 ->
           ~ overlapExceeded cmp (maxOverlapBytes c) start p1 g)
  \/ (findGrandparentLimit cmp SeekGE c start = None
      /\ forall pre f post,
           SeekGE cmp start (grandparents c) = pre ++ f :: post ->
           ~ overlapExceeded cmp (maxOverlapBytes c) start pre f).
Proof.
  intros Hs. unfold findGrandparentLimit, overlapExceeded, SizeSum.
  apply (findGrandparentLimit_loop_spec (maxOverlapBytes c) start _ 0 false
           Hs).
  discriminate.
Qed.
End GrandparentLimitFacts.

(** ** Sample runs of the limits and of the elision *)

Lemma sampleRanges_sorted : rangesSorted bytes_Compare sampleRanges.
Proof.
  split; repeat constructor; vm_compute; first [reflexivity | discriminate].
Qed.

Lemma findL0Limit_spec_witness :
  exists r,
    findL0Limit bytes_Compare sampleFlush sampleL0Limits (Some "e") = Some r
    /\ r = Some "h".
Proof.
  destruct (findL0Limit_spec bytes_Compare bytes_Compare_TotalOrder
              sampleFlush sampleL0Limits (Some "e")
              {| level := -1; files := [] |} {| level := 0; files := [] |})
    as (r & Hr & _ & _).
  - reflexivity.
  - reflexivity.
  - repeat constructor; vm_compute; discriminate.
  - exists r. split; [exact Hr |].
    vm_compute in Hr. now injection Hr as <-.
Defined.

Lemma elideRangeTombstone_spec_witness :
  elideRangeTombstone bytes_Compare (sampleScan 0) (Some "f") (Some "j")
  = true.
Proof.
  apply (proj2 (elideRangeTombstone_spec bytes_Compare
                  bytes_Compare_TotalOrder (sampleScan 0) (Some "f")
                  (Some "j") sampleRanges_sorted eq_refl eq_refl)).
  intros r [<-|[<-|[]]] [H1 H2]; vm_compute in H1, H2;
    first [now apply H1 | now apply H2].
Defined.

Lemma elideTombstone_in_order_witness :
  fst (elideTombstone bytes_Compare (sampleScan 1) (Some "g")) = true
  /\ elideTombstoneIndex
       (snd (elideTombstone bytes_Compare (sampleScan 1) (Some "g")))
     = 1%nat.
Proof.
  assert (Hcur : Forall (fun r => bytes_Compare (End_ r) (Some "g") < 0)
                   (firstn (elideTombstoneIndex (sampleScan 1))
                      (inuseKeyRanges (sampleScan 1))))
    by (repeat constructor).
  pose proof (elideTombstone_in_order bytes_Compare bytes_Compare_TotalOrder
                (sampleScan 1) (Some "g") sampleRanges_sorted eq_refl
                eq_refl Hcur) as H.
  cbv zeta in H. destruct H as (Hres & _ & _ & _).
  split; [| reflexivity]. apply Hres.
  intros r [<-|[<-|[]]] [H1 H2]; vm_compute in H1, H2;
    first [now apply H1 | now apply H2].
Defined.

Lemma setupInuseKeyRanges_entire_witness :
  exists r0 rest,
    [ {| Start := Some "a"; End_ := Some "z" |} ] = r0 :: rest
    /\ rangeContains bytes_Compare r0 (Some "m")
    /\ fst (elideTombstone_loop bytes_Compare (Some "m")
              [ {| Start := Some "a"; End_ := Some "z" |} ] 0) = false.
Proof.
  apply (setupInuseKeyRanges_entire bytes_Compare bytes_Compare_TotalOrder
           sampleVersionInUse 2 (ikey "b" 9 InternalKeyKindSet)
           (ikey "y" 1 InternalKeyKindSet)).
  - reflexivity.
  - vm_compute. discriminate.
  - vm_compute. discriminate.
Defined.

Lemma findGrandparentLimit_spec_witness :
  findGrandparentLimit bytes_Compare sampleSeekGE (sampleScan 0) (Some "b")
  = Some "d".
Proof.
  destruct (findGrandparentLimit_spec bytes_Compare bytes_Compare_TotalOrder
              sampleSeekGE (sampleScan 0) (Some "b"))
    as [(pre & f & post & _ & Hres & _)|[Hres _]].
  - repeat constructor; vm_compute; discriminate.
  - reflexivity.
  - discriminate Hres.
Defined.

(** ** Deletion hints and delete-only compactions *)

Lemma compactionHintFromKeys_loop_spec (keys : list keyspan_Key) :
  forall t : deleteCompactionHintType,
  compactionHintFromKeys_loop keys t
  = if forallb (fun k => isKind k InternalKeyKindRangeDelete
                         || isKind k InternalKeyKindRangeKeyDelete) keys
    then Some (hintTypeOr t
                 (hintTypeOfKinds
                    (existsb (fun k => isKind k InternalKeyKindRangeDelete)
                       keys)
                    (existsb (fun k => isKind k InternalKeyKindRangeKeyDelete)
                       keys)))
    else None.
Proof.
  induction keys as [|k keys IH]; intros t; cbn [compactionHintFromKeys_loop
    forallb existsb].
  - now destruct t.
  - change (isKind k InternalKeyKindRangeDelete)
      with (bool_decide (kKind k = InternalKeyKindRangeDelete)).
    change (isKind k InternalKeyKindRangeKeyDelete)
      with (bool_decide (kKind k = InternalKeyKindRangeKeyDelete)).
    destruct (kKind k); cbn; try reflexivity; rewrite IH;
      destruct (forallb _ keys); try reflexivity;
      destruct (existsb _ keys), (existsb _ keys), t; reflexivity.
Qed.

(** [compactionHintFromKeys] panics exactly when some key is neither a
    range deletion nor a range key deletion; otherwise the type says which
    of the two kinds occur: unknown for no key at all, point-key-only or
    range-key-only for one kind, point-and-range-key for both. *)
Theorem compactionHintFromKeys_spec (keys : list keyspan_Key) :
  compactionHintFromKeys keys
  = if forallb (fun k => isKind k InternalKeyKindRangeDelete
                         || isKind k InternalKeyKindRangeKeyDelete) keys
    then Some (hintTypeOfKinds
                 (existsb (fun k => isKind k InternalKeyKindRangeDelete) keys)
                 (existsb (fun k => isKind k InternalKeyKindRangeKeyDelete)
                    keys))
    else None.
Proof.
  unfold compactionHintFromKeys. rewrite compactionHintFromKeys_loop_spec.
  destruct (forallb _ keys); [| reflexivity].
  now destruct (existsb _ keys), (existsb _ keys).
Qed.

(** A hint whose type [compactionHintFromKeys] computed from at least one
    key is of a known type: [canDelete] returns on it, it does not
    panic. *)
Theorem canDelete_on_hint_from_keys (cmp : Compare) (keys : list keyspan_Key)
    (h : deleteCompactionHint) (m : fileMetadata) (snapshots : list Z) :
  keys <> [] ->
  compactionHintFromKeys keys = Some (hintType h) ->
  exists b, canDelete cmp h m snapshots = Some b.
Proof.
  intros Hne Hk. apply canDelete_returns.
  unfold compactionHintFromKeys in Hk.
  rewrite compactionHintFromKeys_loop_spec in Hk.
  destruct keys as [|k keys]; [congruence |].
  cbn [forallb existsb] in Hk. intros Hu. rewrite Hu in Hk.
  destruct (isKind k InternalKeyKindRangeDelete) eqn:E1;
    destruct (isKind k InternalKeyKindRangeKeyDelete) eqn:E2;
    cbn [orb andb] in Hk; try discriminate Hk;
    (destruct (forallb _ keys); [| discriminate Hk]);
    repeat (match type of Hk with
            | context [existsb ?f ?l] => destruct (existsb f l)
            end);
    discriminate Hk.
Qed.

Lemma deleteLevelFiles_lookup (l : Z) (fs : LevelSlice) :
  forall (deleted : gmap (Z * Z) fileMetadata) (k : Z * Z) (f : fileMetadata),
  deleteLevelFiles l fs deleted !! k = Some f ->
  deleted !! k = Some f \/ (In f fs /\ k = (l, FileNum f)).
Proof.
  unfold deleteLevelFiles.
  induction fs as [|g fs IH]; intros deleted k f H; cbn in H; [now left |].
  apply IH in H as [H|[Hin ->]].
  - destruct (decide (k = (l, FileNum g))) as [->|Hne].
    + rewrite lookup_insert_eq in H. injection H as <-. right.
      split; [now left | reflexivity].
    + rewrite lookup_insert_ne in H by congruence. now left.
  - right. split; [now right | reflexivity].
Qed.

Lemma deleteLevelFiles_is_Some (l : Z) (fs : LevelSlice) :
  forall (deleted : gmap (Z * Z) fileMetadata) (k : Z * Z),
  is_Some (deleted !! k) \/ (exists f, In f fs /\ k = (l, FileNum f)) ->
  is_Some (deleteLevelFiles l fs deleted !! k).
Proof.
  unfold deleteLevelFiles.
  induction fs as [|g fs IH]; intros deleted k H; cbn.
  - destruct H as [H|(f & [] & _)]. exact H.
  - apply IH. destruct H as [H|(f & [<-|Hin] & ->)].
    + left. destruct (decide (k = (l, FileNum g))) as [->|Hne].
      * rewrite lookup_insert_eq. eauto.
      * rewrite lookup_insert_ne by congruence. exact H.
    + left. rewrite lookup_insert_eq. eauto.
    + right. eauto.
Qed.

Lemma deleteInputs_spec (ins : list compactionLevel) :
  forall (deleted : gmap (Z * Z) fileMetadata) (metrics : gmap Z LevelMetrics),
  let res := deleteInputs ins deleted metrics in
  (forall k f, fst res !! k = Some f ->
               deleted !! k = Some f
               \/ (inputFileAt ins (fst k) f /\ snd k = FileNum f))
  /\ (forall k, is_Some (deleted !! k)
                \/ (exists f, inputFileAt ins (fst k) f /\ snd k = FileNum f) ->
                is_Some (fst res !! k))
  /\ (forall l, is_Some (snd res !! l)
                <-> is_Some (metrics !! l) \/ exists cl, In cl ins /\ level cl = l).
Proof.
  unfold inputFileAt.
  induction ins as [|cl ins IH]; intros deleted metrics; cbn [deleteInputs].
  - cbn. split; [auto |]. split.
    + intros k [H|(f & (cl & [] & _) & _)]. exact H.
    + intros l. split; [auto | intros [H|(cl & [] & _)]; exact H].
  - destruct (IH (deleteLevelFiles (level cl) (files cl) deleted)
                (<[level cl := {| BytesMoved := 0; TablesMoved := 0 |}]>
                   metrics)) as (H1 & H2 & H3).
    cbv zeta in *. split; [| split].
    + intros k f Hk. apply H1 in Hk as [Hk|((cl' & Hin & Hl & Hf) & Hn)].
      * apply deleteLevelFiles_lookup in Hk as [Hk|[Hf ->]]; [now left |].
        right. split; [| reflexivity]. exists cl. cbn. auto.
      * right. split; [| exact Hn]. exists cl'. cbn. auto.
    + intros k Hk. apply H2.
      destruct Hk as [Hk|(f & (cl' & [<-|Hin] & Hl & Hf) & Hn)].
      * left. apply deleteLevelFiles_is_Some. now left.
      * left. apply deleteLevelFiles_is_Some. right. exists f.
        split; [exact Hf |]. destruct k; cbn in *. congruence.
      * right. exists f. split; [| exact Hn]. exists cl'. auto.
    + intros l. rewrite H3. split.
      * intros [Hm|(cl' & Hin & Hl)].
        -- destruct (decide (level cl = l)) as [<-|Hne].
           ++ right. exists cl. cbn. auto.
           ++ rewrite lookup_insert_ne in Hm by congruence. now left.
        -- right. exists cl'. cbn. auto.
      * intros [Hm|(cl' & [<-|Hin] & Hl)].
        -- left. destruct (decide (level cl = l)) as [<-|Hne].
           ++ rewrite lookup_insert_eq. eauto.
           ++ rewrite lookup_insert_ne by congruence. exact Hm.
        -- left. subst l. rewrite lookup_insert_eq. eauto.
        -- right. exists cl'. auto.
Qed.

(** [runDeleteOnlyCompaction] returns no error, no pending output and an
    edit that adds no file and deletes the input files and nothing else,
    each under its own level and number; the metrics get an entry for
    every input level and for no other. *)
Theorem runDeleteOnlyCompaction_spec (c : compaction) :
  exists ve metrics,
    runDeleteOnlyCompaction c
    = {| r_ve := Some ve; r_pendingOutputs := []; r_err := None;
         r_metrics := Some metrics |}
    /\ NewFiles ve = []
    /\ RemovedBackingTables ve = []
    /\ (forall l n f, DeletedFiles ve !! (l, n) = Some f ->
                      inputFileAt (inputs c) l f /\ n = FileNum f)
    /\ (forall l f, inputFileAt (inputs c) l f ->
                    is_Some (DeletedFiles ve !! (l, FileNum f)))
    /\ (forall l, is_Some (metrics !! l)
                  <-> exists cl, In cl (inputs c) /\ level cl = l).
Proof.
  unfold runDeleteOnlyCompaction.
  destruct (deleteInputs_spec (inputs c) ∅ ∅) as (H1 & H2 & H3).
  destruct (deleteInputs (inputs c) ∅ ∅) as [deleted metrics].
  cbn [fst snd] in *.
  exists {| DeletedFiles := deleted; NewFiles := [];
            RemovedBackingTables := [] |}, metrics.
  split; [reflexivity |]. split; [reflexivity |]. split; [reflexivity |].
  cbn [DeletedFiles]. split; [| split].
  - intros l n f Hk. apply H1 in Hk as [Hk|Hk]; [| exact Hk].
    now rewrite lookup_empty in Hk.
  - intros l f Hf. apply H2. right. exists f. cbn. auto.
  - intros l. rewrite H3. split; [| auto].
    intros [[x Hx]|H]; [| exact H]. now rewrite lookup_empty in Hx.
Qed.

Lemma concat_insert_snoc {A : Type} (L : list (list A)) :
  forall (i : nat) (fs : list A) (m : A),
  L !! i = Some fs ->
  Permutation (concat (<[i := fs ++ [m]]> L)) (m :: concat L).
Proof.
  induction L as [|x L IH]; intros [|i] fs m H; cbn in H; try discriminate.
  - injection H as ->. cbn. rewrite <- app_assoc. cbn.
    symmetry. apply Permutation_middle.
  - cbn. rewrite (IH i fs m H). symmetry. apply Permutation_middle.
Qed.

Section CheckHintsFacts.
Variable cmp : Compare.
Variable NewLevelSliceKeySorted : Compare -> list fileMetadata -> LevelSlice.
Variable v : version.
Variable st : fileStore.
Variable snapshots : list Z.
Variable hints : list deleteCompactionHint.

Lemma checkHintFiles_spec (h : deleteCompactionHint) (l : Z)
    (ms : list fileMetadata) :
  forall acc acc' : hintScan,
  checkHintFiles cmp st snapshots h l ms acc = Some acc' ->
  hintScanInv cmp v st snapshots hints acc ->
  In h hints ->
  hintResolvable snapshots h = true ->
  tombstoneLevel h < l < numLevels ->
  (forall m, In m ms ->
             In m (Overlaps v l (UserKeyBoundsEndExclusive (start h) (end_ h)))) ->
  hintScanInv cmp v st snapshots hints acc'
  /\ hs_files acc ⊆ hs_files acc'
  /\ (forall m, In m ms -> IsCompacting st m = false ->
                canDelete cmp h m snapshots = Some true ->
                FileNum m ∈ hs_files acc').
Proof.
  induction ms as [|m ms IH]; intros acc acc' H Hinv Hh Hres Hl Hov;
    cbn [checkHintFiles] in H.
  - injection H as <-. split; [exact Hinv |]. split; [reflexivity |].
    intros m [].
  - assert (Hov' : forall m0, In m0 ms ->
                     In m0 (Overlaps v l
                              (UserKeyBoundsEndExclusive (start h) (end_ h))))
      by (intros m0 Hm0; apply Hov; now right).
    assert (Hskip :
              checkHintFiles cmp st snapshots h l ms acc = Some acc' ->
              (IsCompacting st m = false ->
               canDelete cmp h m snapshots = Some true ->
               FileNum m ∈ hs_files acc) ->
              hintScanInv cmp v st snapshots hints acc'
              /\ hs_files acc ⊆ hs_files acc'
              /\ (forall m0, In m0 (m :: ms) -> IsCompacting st m0 = false ->
                             canDelete cmp h m0 snapshots = Some true ->
                             FileNum m0 ∈ hs_files acc')).
    { intros H' Hm.
      destruct (IH acc acc' H' Hinv Hh Hres Hl Hov') as (Hi & Hsub & Hall).
      split; [exact Hi |]. split; [exact Hsub |].
      intros m0 [<-|Hin] Hc Hd; [apply Hsub, Hm; assumption |].
      now apply Hall. }
    destruct (IsCompacting st m) eqn:Ec.
    { apply Hskip; [exact H | discriminate]. }
    destruct (canDelete cmp h m snapshots) as [[|]|] eqn:Ed;
      [| apply Hskip; [exact H | discriminate] | discriminate].
    case_bool_decide as Hin.
    { apply Hskip; [exact H | intros _ _; exact Hin]. }
    destruct (l <? 0) eqn:El; [discriminate |]. apply Z.ltb_ge in El.
    destruct (hs_byLevel acc !! Z.to_nat l) as [fs|] eqn:Efs;
      [| discriminate].
    destruct Hinv as (I1 & I2 & I3 & I4).
    pose proof (concat_insert_snoc (hs_byLevel acc) (Z.to_nat l) fs m Efs)
      as Hperm.
    assert (Hinv' :
              hintScanInv cmp v st snapshots hints
                {| hs_files := {[ FileNum m ]} ∪ hs_files acc;
                   hs_byLevel :=
                     <[Z.to_nat l := fs ++ [m]]> (hs_byLevel acc) |}).
    { unfold hintScanInv. cbn [hs_files hs_byLevel].
      split; [now rewrite length_insert |]. split; [| split].
      - intros i fs' m' Hi Hm'.
        apply list_lookup_insert_Some in Hi as [(<- & <- & _)|[Hne Hi]].
        + apply in_app_or in Hm' as [Hm'|[<-|[]]].
          * now apply (I2 _ fs).
          * exists h. split; [exact Hh |]. rewrite Z2Nat.id by lia.
            unfold hintCovers. repeat split; try assumption; try lia.
            apply Hov. now left.
        + now apply (I2 _ fs').
      - intros n. rewrite elem_of_union, elem_of_singleton, I3.
        split.
        + intros Hn. apply (Permutation_in _ (Permutation_sym
                              (Permutation_map FileNum Hperm))).
          cbn. destruct Hn as [->|Hn]; [now left | now right].
        + intros Hn.
          apply (Permutation_in _ (Permutation_map FileNum Hperm)) in Hn.
          cbn in Hn. destruct Hn as [<-|Hn]; [now left | now right].
      - rewrite (Permutation_map FileNum Hperm). cbn.
        apply list.NoDup_cons. split; [| exact I4].
        rewrite list_elem_of_In, <- I3. exact Hin. }
    destruct (IH _ acc' H Hinv' Hh Hres Hl Hov') as (Hi & Hsub & Hall).
    cbn [hs_files] in Hsub.
    split; [exact Hi |].
    split; [intros x Hx; apply Hsub, elem_of_union; now right |].
    intros m0 [<-|Hm0] Hc Hd; [| now apply Hall].
    apply Hsub. apply elem_of_union. left. now apply elem_of_singleton.
Qed.

Lemma checkHintLevels_spec (h : deleteCompactionHint) (ls : list Z) :
  forall acc acc' : hintScan,
  checkHintLevels cmp v st snapshots h ls acc = Some acc' ->
  hintScanInv cmp v st snapshots hints acc ->
  In h hints ->
  hintResolvable snapshots h = true ->
  (forall l, In l ls -> tombstoneLevel h < l < numLevels) ->
  hintScanInv cmp v st snapshots hints acc'
  /\ hs_files acc ⊆ hs_files acc'
  /\ (forall l m, In l ls -> hintCovers cmp v st snapshots h l m ->
                  FileNum m ∈ hs_files acc').
Proof.
  induction ls as [|l ls IH]; intros acc acc' H Hinv Hh Hres Hls;
    cbn [checkHintLevels] in H.
  - injection H as <-. split; [exact Hinv |]. split; [reflexivity |].
    intros l m [].
  - destruct (checkHintFiles cmp st snapshots h l _ acc) as [acc1|] eqn:E1;
      [| discriminate].
    destruct (checkHintFiles_spec h l _ acc acc1 E1 Hinv Hh Hres)
      as (Hi1 & Hsub1 & Hall1); [apply Hls; now left | auto |].
    destruct (IH acc1 acc' H Hi1 Hh Hres) as (Hi & Hsub & Hall);
      [intros l0 Hl0; apply Hls; now right |].
    split; [exact Hi |]. split; [intros x Hx; apply Hsub, Hsub1, Hx |].
    intros l0 m [<-|Hl0] (_ & _ & Hov & Hc & Hd).
    + apply Hsub. now apply Hall1.
    + apply (Hall l0 m Hl0). unfold hintCovers.
      repeat split; try assumption; apply Hls; now right.
Qed.

Lemma levelsFrom_spec (l l' : Z) :
  In l' (levelsFrom l) <-> l <= l' < numLevels.
Proof.
  unfold levelsFrom. rewrite in_map_iff. split.
  - intros (i & <- & Hi). apply in_seq in Hi. lia.
  - intros Hl. exists (Z.to_nat (l' - l)). split; [lia |].
    apply in_seq. lia.
Qed.

Lemma checkHints_spec (hs : list deleteCompactionHint) :
  forall (unres unres' : list deleteCompactionHint) (acc acc' : hintScan),
  checkHints cmp v st snapshots hs unres acc = Some (acc', unres') ->
  hintScanInv cmp v st snapshots hints acc ->
  (forall h, In h hs -> In h hints) ->
  hintScanInv cmp v st snapshots hints acc'
  /\ unres' = unres ++ List.filter (fun h => negb (hintResolvable snapshots h)) hs
  /\ hs_files acc ⊆ hs_files acc'
  /\ (forall h l m, In h hs -> hintCovers cmp v st snapshots h l m ->
                    FileNum m ∈ hs_files acc').
Proof.
  induction hs as [|h hs IH]; intros unres unres' acc acc' H Hinv Hsub;
    cbn [checkHints List.filter] in *.
  - injection H as <- <-. split; [exact Hinv |].
    split; [now rewrite app_nil_r |]. split; [reflexivity |].
    intros h l m [].
  - assert (Hsub' : forall h0, In h0 hs -> In h0 hints)
      by (intros h0 Hh0; apply Hsub; now right).
    destruct (hintResolvable snapshots h) eqn:Er; cbn [negb] in *.
    + destruct (checkHintLevels cmp v st snapshots h _ acc) as [acc1|] eqn:E1;
        [| discriminate].
      destruct (checkHintLevels_spec h _ acc acc1 E1 Hinv)
        as (Hi1 & Hs1 & Hall1); [apply Hsub; now left | exact Er | |].
      { intros l Hl. apply levelsFrom_spec in Hl. lia. }
      destruct (IH unres unres' acc1 acc' H Hi1 Hsub')
        as (Hi & -> & Hs & Hall).
      split; [exact Hi |]. split; [reflexivity |].
      split; [intros x Hx; apply Hs, Hs1, Hx |].
      intros h0 l m [<-|Hh0] Hc; [| now apply (Hall h0 l m)].
      apply Hs, (Hall1 l m); [| exact Hc].
      apply levelsFrom_spec. destruct Hc as (_ & Hl & _). lia.
    + destruct (IH (unres ++ [h]) unres' acc acc' H Hinv Hsub')
        as (Hi & -> & Hs & Hall).
      split; [exact Hi |]. split; [now rewrite <- app_assoc |].
      split; [exact Hs |].
      intros h0 l m [<-|Hh0] Hc; [| now apply (Hall h0 l m)].
      destruct Hc as (Hr & _). congruence.
Qed.
End CheckHintsFacts.

Section CheckHintsTotal.
Variable cmp : Compare.
Variable v : version.
Variable st : fileStore.
Variable snapshots : list Z.

Lemma checkHintFiles_total (h : deleteCompactionHint) (l : Z)
    (ms : list fileMetadata) :
  hintType h <> deleteCompactionHintTypeUnknown ->
  0 <= l < numLevels ->
  forall acc : hintScan,
  length (hs_byLevel acc) = Z.to_nat numLevels ->
  exists acc',
    checkHintFiles cmp st snapshots h l ms acc = Some acc'
    /\ length (hs_byLevel acc') = Z.to_nat numLevels.
Proof.
  intros Hk Hl. induction ms as [|m ms IH]; intros acc Hlen;
    cbn [checkHintFiles]; [eauto |].
  destruct (IsCompacting st m); [now apply IH |].
  destruct (canDelete_returns cmp h m snapshots Hk) as [[|] ->];
    [| now apply IH].
  case_bool_decide; [now apply IH |].
  destruct (Z.ltb_spec l 0); [lia |].
  destruct (hs_byLevel acc !! Z.to_nat l) as [fs|] eqn:E.
  - apply IH. cbn. now rewrite length_insert.
  - apply lookup_ge_None in E. lia.
Qed.

Lemma checkHintLevels_total (h : deleteCompactionHint) (ls : list Z) :
  hintType h <> deleteCompactionHintTypeUnknown ->
  (forall l, In l ls -> 0 <= l < numLevels) ->
  forall acc : hintScan,
  length (hs_byLevel acc) = Z.to_nat numLevels ->
  exists acc',
    checkHintLevels cmp v st snapshots h ls acc = Some acc'
    /\ length (hs_byLevel acc') = Z.to_nat numLevels.
Proof.
  intros Hk. induction ls as [|l ls IH]; intros Hls acc Hlen;
    cbn [checkHintLevels]; [eauto |].
  destruct (checkHintFiles_total h l
              (Overlaps v l (UserKeyBoundsEndExclusive (start h) (end_ h)))
              Hk (Hls l (or_introl eq_refl)) acc Hlen) as (acc1 & -> & Hlen1).
  apply IH; [| exact Hlen1]. intros l0 Hl0. apply Hls. now right.
Qed.

Lemma checkHints_total (hs : list deleteCompactionHint) :
  (forall h, In h hs ->
             hintType h <> deleteCompactionHintTypeUnknown
             /\ -1 <= tombstoneLevel h) ->
  forall (unres : list deleteCompactionHint) (acc : hintScan),
  length (hs_byLevel acc) = Z.to_nat numLevels ->
  exists r, checkHints cmp v st snapshots hs unres acc = Some r.
Proof.
  induction hs as [|h hs IH]; intros Hhs unres acc Hlen;
    cbn [checkHints]; [eauto |].
  assert (Hhs' : forall h0, In h0 hs ->
                   hintType h0 <> deleteCompactionHintTypeUnknown
                   /\ -1 <= tombstoneLevel h0)
    by (intros h0 Hh0; apply Hhs; now right).
  destruct (negb (hintResolvable snapshots h)); [now apply IH |].
  destruct (Hhs h (or_introl eq_refl)) as [Hk Hl].
  destruct (checkHintLevels_total h (levelsFrom (tombstoneLevel h + 1)) Hk)
    with (acc := acc) as (acc1 & -> & Hlen1); [| exact Hlen |].
  - intros l Hin. apply levelsFrom_spec in Hin. lia.
  - now apply IH.
Qed.
End CheckHintsTotal.

Section CheckDeleteCompactionHintsFacts.
Variable cmp : Compare.
Variable NewLevelSliceKeySorted : Compare -> list fileMetadata -> LevelSlice.
Variable v : version.
Variable st : fileStore.
Variable snapshots : list Z.
Hypothesis sorted_perm :
  forall fs, Permutation (NewLevelSliceKeySorted cmp fs) fs.

Lemma compactLevelsOf_spec (L : list (list fileMetadata)) :
  forall l : Z,
  (forall cl, In cl (compactLevelsOf cmp NewLevelSliceKeySorted l L) ->
              exists (i : nat) fs,
                L !! i = Some fs /\ level cl = l + Z.of_nat i
                /\ files cl = NewLevelSliceKeySorted cmp fs /\ fs <> [])
  /\ StronglySorted (fun a b => level a < level b)
       (compactLevelsOf cmp NewLevelSliceKeySorted l L)
  /\ Permutation
       (flat_map files (compactLevelsOf cmp NewLevelSliceKeySorted l L))
       (concat L).
Proof.
  induction L as [|fs L IH]; intros l; cbn [compactLevelsOf].
  - split; [intros cl [] |]. split; constructor.
  - destruct (IH (l + 1)) as (H1 & H2 & H3).
    assert (H1' : forall cl,
              In cl (compactLevelsOf cmp NewLevelSliceKeySorted (l + 1) L) ->
              exists (i : nat) fs0,
                (fs :: L) !! i = Some fs0 /\ level cl = l + Z.of_nat i
                /\ files cl = NewLevelSliceKeySorted cmp fs0 /\ fs0 <> []).
    { intros cl Hcl. destruct (H1 cl Hcl) as (i & fs0 & Hi & Hl & Hf & Hne).
      exists (S i), fs0. repeat split; try assumption. lia. }
    destruct (length fs =? 0)%nat eqn:E.
    + apply Nat.eqb_eq in E. destruct fs; [| discriminate].
      split; [exact H1' |]. split; [exact H2 |]. exact H3.
    + split; [| split].
      * intros cl [<-|Hcl]; [| now apply H1'].
        exists 0%nat, fs. cbn. repeat split; try lia.
        intros ->. discriminate.
      * constructor; [exact H2 |]. apply Forall_forall. intros cl Hcl.
        destruct (H1 cl Hcl) as (i & _ & _ & Hl & _). cbn. lia.
      * cbn. apply Permutation_app; [apply sorted_perm | exact H3].
Qed.

(** The state of the loops when [checkDeleteCompactionHints] returns. *)
Lemma checkDeleteCompactionHints_inv (hints : list deleteCompactionHint)
    (levels : list compactionLevel) (unresolved : list deleteCompactionHint) :
  checkDeleteCompactionHints cmp NewLevelSliceKeySorted v st snapshots hints
  = Some (levels, unresolved) ->
  exists acc,
    levels = compactLevelsOf cmp NewLevelSliceKeySorted 0 (hs_byLevel acc)
    /\ hintScanInv cmp v st snapshots hints acc
    /\ unresolved
       = List.filter (fun h => negb (hintResolvable snapshots h)) hints
    /\ (forall h l m, In h hints -> hintCovers cmp v st snapshots h l m ->
                      FileNum m ∈ hs_files acc).
Proof.
  unfold checkDeleteCompactionHints. intros H.
  destruct (checkHints cmp v st snapshots hints [] _) as [[acc unres]|] eqn:E;
    [| discriminate].
  injection H as <- <-.
  destruct (checkHints_spec cmp v st snapshots hints hints [] unres _ acc E)
    as (Hinv & Hunres & _ & Hall).
  { unfold hintScanInv. cbn [hs_files hs_byLevel].
    change (Z.to_nat numLevels) with 7%nat. cbn.
    split; [reflexivity |]. split; [| split].
    - intros i fs m Hi Hm. do 7 (destruct i as [|i]; [injection Hi as <-;
        destruct Hm |]). discriminate.
    - intros n. split; [intros Hn; now apply not_elem_of_empty in Hn |].
      intros [].
    - constructor. }
  { auto. }
  exists acc. split; [reflexivity |]. split; [exact Hinv |].
  split; [exact Hunres | exact Hall].
Qed.

Lemma checkDeleteCompactionHints_returns (hints : list deleteCompactionHint) :
  (forall h, In h hints ->
             hintType h <> deleteCompactionHintTypeUnknown
             /\ -1 <= tombstoneLevel h) ->
  exists r,
    checkDeleteCompactionHints cmp NewLevelSliceKeySorted v st snapshots hints
    = Some r.
Proof.
  intros Hk. unfold checkDeleteCompactionHints.
  destruct (checkHints_total cmp v st snapshots hints Hk []
              {| hs_files := ∅;
                 hs_byLevel := replicate (Z.to_nat numLevels) [] |})
    as [[acc unres] E]; [cbn; now rewrite length_replicate |].
  rewrite E. eauto.
Qed.

(** The files that [checkDeleteCompactionHints] selects, level by level:
    each is covered by a hint at its level, no level is empty, the levels
    ascend and no file comes twice. *)
Lemma selected_files_facts (hints : list deleteCompactionHint)
    (acc : hintScan) :
  hintScanInv cmp v st snapshots hints acc ->
  let levels := compactLevelsOf cmp NewLevelSliceKeySorted 0 (hs_byLevel acc) in
  (forall cl m, In cl levels -> In m (files cl) ->
                exists h, In h hints
                          /\ hintCovers cmp v st snapshots h (level cl) m)
  /\ (forall cl, In cl levels -> files cl <> [])
  /\ StronglySorted (fun a b => level a < level b) levels
  /\ NoDup (map FileNum (flat_map files levels))
  /\ (forall n, In n (map FileNum (flat_map files levels))
                <-> n ∈ hs_files acc).
Proof.
  intros (I1 & I2 & I3 & I4) levels. subst levels.
  destruct (compactLevelsOf_spec (hs_byLevel acc) 0) as (H1 & H2 & H3).
  split; [| split; [| split; [| split]]].
  - intros cl m Hcl Hm.
    destruct (H1 cl Hcl) as (i & fs & Hi & Hl & Hf & _).
    rewrite Hf in Hm. apply (Permutation_in _ (sorted_perm fs)) in Hm.
    destruct (I2 i fs m Hi Hm) as (h & Hh & Hc).
    exists h. split; [exact Hh |]. now rewrite Hl.
  - intros cl Hcl Hnil.
    destruct (H1 cl Hcl) as (i & fs & _ & _ & Hf & Hne).
    rewrite Hf in Hnil. pose proof (sorted_perm fs) as Hp.
    rewrite Hnil in Hp. apply Permutation_nil in Hp. contradiction.
  - exact H2.
  - rewrite (Permutation_map FileNum H3). exact I4.
  - intros n. rewrite I3. split; apply Permutation_in;
      [| symmetry]; apply (Permutation_map FileNum H3).
Qed.

(** [checkDeleteCompactionHints], when it returns.  The hints it hands
    back are the unresolvable ones, in their order.  Every file selected
    for deletion is covered by a hint at the level under which it is
    listed: the hint is resolvable, the level lies below the tombstone's,
    the file overlaps the hint's span, is not being compacted and
    satisfies [canDelete].  No listed level is empty, the levels ascend,
    and no file is selected twice. *)
Theorem checkDeleteCompactionHints_sound (hints : list deleteCompactionHint)
    (levels : list compactionLevel) (unresolved : list deleteCompactionHint) :
  checkDeleteCompactionHints cmp NewLevelSliceKeySorted v st snapshots hints
  = Some (levels, unresolved) ->
  unresolved
  = List.filter (fun h => negb (hintResolvable snapshots h)) hints
  /\ (forall cl m, In cl levels -> In m (files cl) ->
                   exists h, In h hints
                             /\ hintCovers cmp v st snapshots h (level cl) m)
  /\ (forall cl, In cl levels -> files cl <> [])
  /\ StronglySorted (fun a b => level a < level b) levels
  /\ NoDup (map FileNum (flat_map files levels)).
Proof.
  intros H.
  destruct (checkDeleteCompactionHints_inv hints levels unresolved H)
    as (acc & -> & Hinv & Hunres & _).
  destruct (selected_files_facts hints acc Hinv) as (F1 & F2 & F3 & F4 & _).
  split; [exact Hunres |]. split; [exact F1 |]. split; [exact F2 |].
  split; [exact F3 | exact F4].
Qed.

(** [checkDeleteCompactionHints] on hints of a known type returns, and it
    misses no file: every file that a hint covers at some level is among
    the files selected. *)
Theorem checkDeleteCompactionHints_complete
    (hints : list deleteCompactionHint) :
  (forall h, In h hints ->
             hintType h <> deleteCompactionHintTypeUnknown
             /\ -1 <= tombstoneLevel h) ->
  exists levels unresolved,
    checkDeleteCompactionHints cmp NewLevelSliceKeySorted v st snapshots hints
    = Some (levels, unresolved)
    /\ forall h l m,
         In h hints -> hintCovers cmp v st snapshots h l m ->
         In (FileNum m) (map FileNum (flat_map files levels)).
Proof.
  intros Hk.
  destruct (checkDeleteCompactionHints_returns hints Hk)
    as [[levels unresolved] E].
  exists levels, unresolved. split; [exact E |].
  destruct (checkDeleteCompactionHints_inv hints levels unresolved E)
    as (acc & -> & Hinv & _ & Hall).
  destruct (selected_files_facts hints acc Hinv) as (_ & _ & _ & _ & F5).
  intros h l m Hh Hc. apply F5. exact (Hall h l m Hh Hc).
Qed.

End CheckDeleteCompactionHintsFacts.

(** ** Starting a compaction *)

Lemma insertBy_perm {A : Type} (le : A -> A -> bool) (x : A) (l : list A) :
  Permutation (insertBy le x l) (x :: l).
Proof.
  induction l as [|y l IH]; cbn; [reflexivity |].
  destruct (le x y); [reflexivity |].
  rewrite IH. apply perm_swap.
Qed.

Lemma sortBy_perm {A : Type} (le : A -> A -> bool) (l : list A) :
  Permutation (sortBy le l) l.
Proof.
  induction l as [|x l IH]; cbn; [reflexivity |].
  rewrite insertBy_perm. now constructor.
Qed.

Section AddInProgressFacts.
Variable fatalExits : bool.
Variable UpdateStateForStartedCompaction :
  option (list LevelSlice -> bool -> option error).
Variable c : compaction.

Lemma addFile_lookup (st : fileStore) (flags : addFlags) (f : fileMetadata)
    (n : Z) :
  fst (addFile c st flags f) n
  = if decide (n = FileNum f) then startedState c (st n) else st n.
Proof.
  unfold addFile, startedState, isIntraL0Compaction, SetCompactionState.
  destruct (levelAt c (startLevel c)) as [sl|],
           (levelAt c (outputLevel c)) as [ol|]; cbn [fst];
    try (destruct (level sl =? 0); [destruct (level ol =? 0) |]);
    cbn [fst andb];
    (destruct (decide (n = FileNum f)) as [->|Hne];
     [ rewrite !fn_lookup_insert; cbn; now rewrite ?orb_true_r, ?orb_false_r
     | rewrite !fn_lookup_insert_ne by congruence; reflexivity ]).
Qed.

(** What a run over files leaves when no file was being compacted: the
    files visited are started, the others untouched. *)
Lemma addFiles_idle (fs : LevelSlice) :
  forall (st : fileStore) (flags : addFlags) (reported : list Z),
  (forall f, In f fs -> IsCompacting st f = false) ->
  NoDup (map FileNum fs) ->
  exists st' flags',
    addFiles fatalExits c fs st flags reported = LoopDone st' flags' reported
    /\ (forall n, In n (map FileNum fs) -> st' n = startedState c (st n))
    /\ (forall n, ~ In n (map FileNum fs) -> st' n = st n)
    /\ (isIntraL0 flags' || isBase flags' = true ->
        isIntraL0 flags || isBase flags = true
        \/ (exists sl ol, levelAt c (startLevel c) = Some sl
                          /\ levelAt c (outputLevel c) = Some ol)).
Proof.
  induction fs as [|f fs IH]; intros st flags reported Hidle Hnd;
    cbn [addFiles map].
  - exists st, flags. split; [reflexivity |].
    split; [intros n [] |]. split; [reflexivity | auto].
  - rewrite (Hidle f (or_introl eq_refl)).
    apply list.NoDup_cons in Hnd as [Hf Hnd].
    rewrite list_elem_of_In in Hf.
    pose proof (addFile_lookup st flags f) as Hlk.
    assert (Hfl : isIntraL0 (snd (addFile c st flags f))
                  || isBase (snd (addFile c st flags f)) = true ->
                  isIntraL0 flags || isBase flags = true
                  \/ (exists sl ol, levelAt c (startLevel c) = Some sl
                                    /\ levelAt c (outputLevel c) = Some ol)).
    { unfold addFile.
      destruct (levelAt c (startLevel c)) as [sl|],
               (levelAt c (outputLevel c)) as [ol|]; cbn [snd]; eauto. }
    destruct (addFile c st flags f) as [st1 flags1]. cbn [fst snd] in *.
    destruct (IH st1 flags1 reported) as (st' & flags' & -> & Hin & Hout & Hf');
      [| exact Hnd |].
    { intros g Hg. unfold IsCompacting. rewrite Hlk.
      destruct (decide (FileNum g = FileNum f)) as [E|_].
      - exfalso. apply Hf. rewrite <- E. now apply in_map.
      - apply Hidle. now right. }
    exists st', flags'. split; [reflexivity |]. split; [| split].
    + intros n [<-|Hn].
      * rewrite (Hout _ Hf), Hlk. now rewrite decide_True by reflexivity.
      * rewrite (Hin n Hn), Hlk. rewrite decide_False; [reflexivity |].
        intros ->. contradiction.
    + intros n Hn. rewrite Hout by (intros H; apply Hn; now right).
      rewrite Hlk. rewrite decide_False; [reflexivity |].
      intros ->. apply Hn. now left.
    + intros H. apply Hf' in H as [H|H]; [now apply Hfl | now right].
Qed.

Lemma addLevels_idle (ins : list compactionLevel) :
  forall (st : fileStore) (flags : addFlags) (reported : list Z),
  (forall f, In f (flat_map files ins) -> IsCompacting st f = false) ->
  NoDup (map FileNum (flat_map files ins)) ->
  exists st' flags',
    addLevels fatalExits c ins st flags reported = LoopDone st' flags' reported
    /\ (forall n, In n (map FileNum (flat_map files ins)) ->
                  st' n = startedState c (st n))
    /\ (forall n, ~ In n (map FileNum (flat_map files ins)) -> st' n = st n)
    /\ (isIntraL0 flags' || isBase flags' = true ->
        isIntraL0 flags || isBase flags = true
        \/ (exists sl ol, levelAt c (startLevel c) = Some sl
                          /\ levelAt c (outputLevel c) = Some ol)).
Proof.
  induction ins as [|cl ins IH]; intros st flags reported Hidle Hnd;
    cbn [addLevels flat_map].
  - exists st, flags. split; [reflexivity |].
    split; [intros n [] |]. split; [reflexivity | auto].
  - cbn [flat_map] in Hidle, Hnd. rewrite map_app in Hnd.
    apply list.NoDup_app in Hnd as (Hnd1 & Hdisj & Hnd2).
    destruct (addFiles_idle (files cl) st flags reported)
      as (st1 & flags1 & -> & Hin1 & Hout1 & Hf1); [| exact Hnd1 |].
    { intros f Hf. apply Hidle, in_or_app. now left. }
    destruct (IH st1 flags1 reported) as (st' & flags' & -> & Hin & Hout & Hf');
      [| exact Hnd2 |].
    { intros f Hf. unfold IsCompacting. rewrite Hout1.
      - apply Hidle, in_or_app. now right.
      - intros Hn. apply (Hdisj (FileNum f)).
        + now apply list_elem_of_In.
        + apply list_elem_of_In. now apply in_map. }
    exists st', flags'. split; [reflexivity |]. rewrite map_app.
    split; [| split].
    + intros n Hn. apply in_app_or in Hn as [Hn|Hn].
      * rewrite Hout, (Hin1 n Hn); [reflexivity |].
        intros Hn2. apply (Hdisj n); now apply list_elem_of_In.
      * rewrite (Hin n Hn), Hout1; [reflexivity |].
        intros Hn1. apply (Hdisj n); now apply list_elem_of_In.
    + intros n Hn. rewrite Hout, Hout1; [reflexivity | |];
        intros H; apply Hn, in_or_app; auto.
    + intros H. apply Hf' in H as [H|H]; [now apply Hf1 | now right].
Qed.

(** [addInProgressCompaction] on input files none of which is being
    compacted, each listed once: unless the update of the L0 sublevels
    fails it returns, having reported no file; every input file is then
    being compacted, marked as intra-L0 when the compaction starts in L0
    and writes to L0, and no other file is touched. *)
Theorem addInProgressCompaction_idle (st : fileStore) :
  (forall f, In f (inputFiles c) -> IsCompacting st f = false) ->
  NoDup (map FileNum (inputFiles c)) ->
  (forall update ls b,
      UpdateStateForStartedCompaction = Some update -> update ls b = None) ->
  exists st' l0Update,
    addInProgressCompaction fatalExits UpdateStateForStartedCompaction c st
    = AddReturned st' [] l0Update
    /\ (forall f, In f (inputFiles c) ->
                  st' (FileNum f) = startedState c (st (FileNum f)))
    /\ (forall n, ~ In n (map FileNum (inputFiles c)) -> st' n = st n).
Proof.
  intros Hidle Hnd Hupd. unfold addInProgressCompaction, inputFiles in *.
  destruct (addLevels_idle (inputs c) st
              {| isBase := false; isIntraL0 := false |} [] Hidle Hnd)
    as (st' & flags' & -> & Hin & Hout & Hfl).
  assert (Hfiles : forall f, In f (flat_map files (inputs c)) ->
                     st' (FileNum f) = startedState c (st (FileNum f)))
    by (intros f Hf; apply Hin; now apply in_map).
  destruct UpdateStateForStartedCompaction as [update|]; [| eauto].
  destruct (isIntraL0 flags' || isBase flags') eqn:E; [| eauto].
  destruct (Hfl eq_refl) as [H|(sl & ol & -> & ->)]; [discriminate |].
  rewrite (Hupd update _ _ eq_refl). eauto.
Qed.

(** Starting a compaction and rolling it back gives the store back: after
    [addInProgressCompaction] on idle input files that carry no intra-L0
    mark, [clearCompactingState] with [rollback] returns, reports no file
    and leaves every file in the state it had. *)
Theorem add_then_rollback (st : fileStore) :
  (forall f, In f (inputFiles c) ->
             st (FileNum f) = {| fsCompactionState := CompactionStateNotCompacting;
                                 IsIntraL0Compacting := false |}) ->
  NoDup (map FileNum (inputFiles c)) ->
  (forall update ls b,
      UpdateStateForStartedCompaction = Some update -> update ls b = None) ->
  exists st' l0Update st'',
    addInProgressCompaction fatalExits UpdateStateForStartedCompaction c st
    = AddReturned st' [] l0Update
    /\ clearCompactingState fatalExits c true st' = Returned st'' []
    /\ forall n, st'' n = st n.
Proof.
  intros Hst Hnd Hupd. unfold addInProgressCompaction, inputFiles in *.
  assert (Hidle : forall f, In f (flat_map files (inputs c)) ->
                    IsCompacting st f = false).
  { intros f Hf. unfold IsCompacting. now rewrite (Hst f Hf). }
  destruct (addLevels_idle (inputs c) st
              {| isBase := false; isIntraL0 := false |} [] Hidle Hnd)
    as (st' & flags' & -> & Hin & Hout & Hfl).
  assert (Hclear : exists st'',
            clearCompactingState fatalExits c true st' = Returned st'' []
            /\ forall n, st'' n = st n).
  { destruct (clearLevels_all_compacting fatalExits c true (inputs c) st' [])
      as [st'' E]; [| exact Hnd |].
    { intros f Hf. unfold IsCompacting.
      rewrite (Hin (FileNum f)) by now apply in_map. reflexivity. }
    exists st''. split; [exact E |]. intros n.
    pose proof (clearLevels_returned fatalExits c true _ _ _ _ _ E n)
      as [Hc1 Hc2].
    destruct (in_dec Z.eq_dec n (map FileNum (flat_map files (inputs c))))
      as [Hn|Hn].
    - rewrite (Hc1 Hn). apply in_map_iff in Hn as (f & <- & Hf).
      now rewrite (Hst f Hf).
    - rewrite (Hc2 Hn). now apply Hout. }
  destruct Hclear as (st'' & Hc & Hsame).
  destruct UpdateStateForStartedCompaction as [update|]; [| eauto 6].
  destruct (isIntraL0 flags' || isBase flags') eqn:E; [| eauto 6].
  destruct (Hfl eq_refl) as [H|(sl & ol & -> & ->)]; [discriminate |].
  rewrite (Hupd update _ _ eq_refl). eauto 6.
Qed.
End AddInProgressFacts.

Section ScheduleDeleteOnly.
Variable fatalExits : bool.
Variable UpdateStateForStartedCompaction :
  option (list LevelSlice -> bool -> option error).
Variable KeyRange : Compare -> list LevelSlice -> InternalKey * InternalKey.
Variable cmp : Compare.
Variable NewLevelSliceKeySorted : Compare -> list fileMetadata -> LevelSlice.
Variable v : version.
Variable snapshots : list Z.
Hypothesis sorted_perm :
  forall fs, Permutation (NewLevelSliceKeySorted cmp fs) fs.

Lemma newDeleteOnlyCompaction_fields (ins : list compactionLevel) :
  let c := newDeleteOnlyCompaction KeyRange cmp ins in
  kind c = compactionKindDeleteOnly /\ inputs c = ins
  /\ startLevel c = None /\ outputLevel c = None.
Proof.
  unfold newDeleteOnlyCompaction. destruct (KeyRange cmp (map files ins)).
  cbn. auto.
Qed.

(** [tryScheduleDeleteOnlyCompaction] on hints of a known type neither
    panics nor ends the process: the files selected are idle and distinct,
    so [addInProgressCompaction] finds none of them being compacted.  The
    unresolvable hints stay; when a hint covers a file, a delete-only
    compaction of exactly the covered files is started, the count of
    running compactions goes up by one and these files, and no others,
    are marked as being compacted; otherwise nothing changes. *)
Theorem tryScheduleDeleteOnlyCompaction_spec (s : scheduleState) :
  (forall h, In h (deletionHints s) ->
             hintType h <> deleteCompactionHintTypeUnknown
             /\ -1 <= tombstoneLevel h) ->
  let covered := fun m =>
    exists h l, In h (deletionHints s)
                /\ hintCovers cmp v (sched_files s) snapshots h l m in
  exists s' started,
    tryScheduleDeleteOnlyCompaction fatalExits UpdateStateForStartedCompaction
      KeyRange cmp NewLevelSliceKeySorted v snapshots s
    = Scheduled s' started
    /\ deletionHints s'
       = List.filter (fun h => negb (hintResolvable snapshots h))
           (deletionHints s)
    /\ (started = None ->
        compactingCount s' = compactingCount s
        /\ sched_files s' = sched_files s
        /\ forall m, ~ covered m)
    /\ (forall c, started = Some c ->
        kind c = compactionKindDeleteOnly
        /\ compactingCount s' = int_add (compactingCount s) 1
        /\ (forall m, In m (inputFiles c) -> covered m)
        /\ (forall m, covered m -> In (FileNum m) (map FileNum (inputFiles c)))
        /\ (forall m, In m (inputFiles c) ->
                      fsCompactionState (sched_files s' (FileNum m))
                      = CompactionStateCompacting)
        /\ (forall n, ~ In n (map FileNum (inputFiles c)) ->
                      sched_files s' n = sched_files s n)).
Proof.
  intros Hk covered. unfold tryScheduleDeleteOnlyCompaction.
  destruct (checkDeleteCompactionHints_returns cmp NewLevelSliceKeySorted v
              (sched_files s) snapshots (deletionHints s) Hk)
    as [[levels unresolved] E].
  rewrite E.
  destruct (checkDeleteCompactionHints_inv cmp NewLevelSliceKeySorted v
              (sched_files s) snapshots (deletionHints s) levels unresolved E)
    as (acc & Hlevels & Hinv & Hunres & Hall).
  destruct (selected_files_facts cmp NewLevelSliceKeySorted v (sched_files s)
              snapshots sorted_perm (deletionHints s) acc Hinv)
    as (F1 & _ & _ & F4 & F5).
  cbv zeta in F1, F4, F5. rewrite <- Hlevels in F1, F4, F5.
  assert (Hcov : forall m, covered m ->
                   In (FileNum m) (map FileNum (flat_map files levels))).
  { intros m (h & l & Hh & Hc). apply F5. exact (Hall h l m Hh Hc). }
  destruct (0 <? length levels)%nat eqn:El.
  - destruct (newDeleteOnlyCompaction_fields levels)
      as (Hkind & Hins & Hstart & Hout).
    cbv zeta in *.
    set (c := newDeleteOnlyCompaction KeyRange cmp levels) in *.
    unfold addInProgressCompaction. rewrite Hins.
    destruct (addLevels_idle fatalExits c levels (sched_files s)
                {| isBase := false; isIntraL0 := false |} [])
      as (st' & flags' & -> & Hin & Hsame & Hfl); [| exact F4 |].
    { intros f Hf. apply in_flat_map in Hf as (cl & Hcl & Hf).
      destruct (F1 cl f Hcl Hf) as (h & _ & _ & _ & _ & Hidle & _).
      exact Hidle. }
    assert (Hflags : isIntraL0 flags' || isBase flags' = false).
    { destruct (isIntraL0 flags' || isBase flags') eqn:Ef; [| reflexivity].
      destruct (Hfl eq_refl) as [H|(sl & ol & Hsl & _)]; [discriminate |].
      rewrite Hstart in Hsl. discriminate. }
    rewrite Hflags.
    assert (Hres : exists l0Update,
              match UpdateStateForStartedCompaction with
              | Some _ => AddReturned st' [] None
              | None => AddReturned st' [] None
              end = AddReturned st' [] l0Update)
      by (destruct UpdateStateForStartedCompaction; eauto).
    destruct Hres as [l0Update ->].
    eexists _, (Some c). split; [reflexivity |]. cbn [deletionHints].
    split; [exact Hunres |]. split; [discriminate |].
    intros c0 [= <-]. unfold inputFiles. rewrite Hins.
    cbn [compactingCount sched_files].
    split; [exact Hkind |]. split; [reflexivity |]. split; [| split; [| split]].
    + intros m Hm. apply in_flat_map in Hm as (cl & Hcl & Hm).
      destruct (F1 cl m Hcl Hm) as (h & Hh & Hc). now exists h, (level cl).
    + exact Hcov.
    + intros m Hm. rewrite (Hin (FileNum m)) by now apply in_map.
      reflexivity.
    + exact Hsame.
  - eexists _, None. split; [reflexivity |]. cbn [deletionHints].
    split; [exact Hunres |]. split; [| discriminate].
    intros _. cbn. split; [reflexivity |]. split; [reflexivity |].
    intros m Hm. apply Hcov in Hm.
    destruct levels; [destruct Hm | discriminate].
Qed.
End ScheduleDeleteOnly.

(** *** Sample runs *)

(** The keys of a span deleted both by a range tombstone and by a range
    key deletion give a hint for point and range keys. *)
Example compactionHintFromKeys_sample :
  compactionHintFromKeys
    [ {| kSeqNum := 230; kKind := InternalKeyKindRangeDelete;
         Suffix := None; Value := None |}; keyDel 200 ]
  = Some deleteCompactionHintTypePointAndRangeKey
  /\ compactionHintFromKeys [ keyDel 200; keySet 9 "@3" "x" ] = None.
Proof. split; reflexivity. Qed.

Lemma canDelete_on_hint_from_keys_witness :
  exists b,
    canDelete bytes_Compare (sampleHint deleteCompactionHintTypeRangeKeyOnly)
      sampleMoved [] = Some b.
Proof.
  apply (canDelete_on_hint_from_keys bytes_Compare [ keyDel 200 ]
           (sampleHint deleteCompactionHintTypeRangeKeyOnly) sampleMoved []).
  - discriminate.
  - reflexivity.
Defined.

Lemma sampleKeySorted_perm (fs : list fileMetadata) :
  Permutation (sampleKeySorted bytes_Compare fs) fs.
Proof. apply sortBy_perm. Qed.

Lemma checkDeleteCompactionHints_sound_witness :
  exists levels,
    checkDeleteCompactionHints bytes_Compare sampleKeySorted
      sampleHintVersion idleStore [] (deletionHints sampleSchedule)
    = Some (levels, [])
    /\ map level levels = [1]
    /\ NoDup (map FileNum (flat_map files levels)).
Proof.
  eexists. split; [vm_compute; reflexivity |]. split; [reflexivity |].
  eapply (checkDeleteCompactionHints_sound bytes_Compare sampleKeySorted
            sampleHintVersion idleStore [] sampleKeySorted_perm
            (deletionHints sampleSchedule)).
  vm_compute. reflexivity.
Defined.

Lemma checkDeleteCompactionHints_complete_witness :
  exists levels unresolved,
    checkDeleteCompactionHints bytes_Compare sampleKeySorted
      sampleHintVersion idleStore [] (deletionHints sampleSchedule)
    = Some (levels, unresolved)
    /\ forall h l m,
         In h (deletionHints sampleSchedule) ->
         hintCovers bytes_Compare sampleHintVersion idleStore [] h l m ->
         In (FileNum m) (map FileNum (flat_map files levels)).
Proof.
  apply (checkDeleteCompactionHints_complete bytes_Compare sampleKeySorted
           sampleHintVersion idleStore [] sampleKeySorted_perm
           (deletionHints sampleSchedule)).
  intros h [<-|[]]. split; [discriminate | cbn; lia].
Defined.

Lemma addInProgressCompaction_idle_witness :
  exists st' l0Update,
    addInProgressCompaction true None sampleZeroing idleStore
    = AddReturned st' [] l0Update
    /\ st' 11 = {| fsCompactionState := CompactionStateCompacting;
                   IsIntraL0Compacting := false |}
    /\ st' 13 = idleStore 13.
Proof.
  destruct (addInProgressCompaction_idle true None sampleZeroing idleStore)
    as (st' & l0Update & E & Hin & Hout).
  - intros f _. reflexivity.
  - apply (bool_decide_unpack _). vm_compute. exact I.
  - discriminate.
  - exists st', l0Update. split; [exact E |]. split.
    + apply (Hin (sampleFile 11 (ikey "c" 150 InternalKeyKindSet)
                    (ikey "f" 205 InternalKeyKindSet) 150 205)).
      cbn. now left.
    + apply Hout. cbn. intros [H|[H|[]]]; discriminate.
Defined.

Lemma add_then_rollback_witness :
  exists st' l0Update st'',
    addInProgressCompaction true None sampleZeroing idleStore
    = AddReturned st' [] l0Update
    /\ clearCompactingState true sampleZeroing true st' = Returned st'' []
    /\ forall n, st'' n = idleStore n.
Proof.
  apply (add_then_rollback true None sampleZeroing idleStore).
  - intros f _. reflexivity.
  - apply (bool_decide_unpack _). vm_compute. exact I.
  - discriminate.
Defined.

Lemma tryScheduleDeleteOnlyCompaction_spec_witness :
  exists s' c,
    tryScheduleDeleteOnlyCompaction true None sampleKeyRange bytes_Compare
      sampleKeySorted sampleHintVersion [] sampleSchedule
    = Scheduled s' (Some c)
    /\ deletionHints s' = []
    /\ compactingCount s' = 1
    /\ map FileNum (inputFiles c) = [2; 3].
Proof.
  destruct (tryScheduleDeleteOnlyCompaction_spec true None sampleKeyRange
              bytes_Compare sampleKeySorted sampleHintVersion []
              sampleKeySorted_perm sampleSchedule)
    as (s' & started & E & Hhints & _ & Hc).
  - intros h [<-|[]]. split; [discriminate | cbn; lia].
  - vm_compute in E. injection E as <- <-.
    eexists _, _. split; [vm_compute; reflexivity |].
    split; [reflexivity |]. split; reflexivity.
Defined.

(** * The outputs of a compaction run *)

Section RunOutputs.
Variable cmp : Compare.
Variable ext : externals.
Variable lx : loopExternals.
Variable c : compaction.

Lemma newOutput_fresh (st st' : outputState) :
  newOutput ext c st = (st', None) ->
  tw st' = Some emptyWriter
  /\ pendingTombstones st' = pendingTombstones st
  /\ pendingRangeKeys st' = pendingRangeKeys st
  /\ ve_NewFiles st'
     = ve_NewFiles st
       ++ [ {| nfLevel := outputLevelNum c;
               nfMeta := emptyFileMetadata (nextFileNum st) |} ].
Proof.
  unfold newOutput. destruct (cancel c); [discriminate |].
  destruct (createErr ext (nextFileNum st)); [discriminate |].
  intros [= <-]. cbn. tauto.
Qed.

(** The inner loop leaves the finished outputs alone and hands back a
    suffix of the keys. *)
Lemma addKeys_finished (input input1 : list iterEntry)
    (st st1 : outputState) :
  addKeys ext lx c input st = (input1, st1, None) ->
  finishedOutputs st1 = finishedOutputs st
  /\ exists pre, input = pre ++ input1.
Proof.
  revert st. induction input as [|e rest IH]; intros st H; cbn in H.
  - injection H as <- <-. split; [reflexivity | now exists []].
  - destruct (ShouldSplitBefore lx (e :: rest) st (ieKey e)).
    { injection H as <- <-. split; [reflexivity | now exists []]. }
    assert (Hcons : forall st0,
               addKeys ext lx c rest st0 = (input1, st1, None) ->
               finishedOutputs st0 = finishedOutputs st ->
               finishedOutputs st1 = finishedOutputs st
               /\ exists pre, e :: rest = pre ++ input1).
    { intros st0 H0 Hf. apply IH in H0 as [Hf1 [pre ->]].
      split; [congruence | now exists (e :: pre)]. }
    destruct (bool_decide (Kind (ieKey e) = InternalKeyKindRangeDelete)).
    { apply Hcons in H; [exact H | reflexivity]. }
    destruct (isRangeKeyKind (Kind (ieKey e))).
    { apply Hcons in H; [exact H | reflexivity]. }
    destruct (tw st) as [w|] eqn:Etw.
    + rewrite Etw in H. destruct (addErr lx w (ieKey e)); [discriminate |].
      apply Hcons in H; [exact H |].
      unfold finishedOutputs. cbn. now rewrite Etw.
    + destruct (newOutput ext c st) as [st0 [er|]] eqn:En; [discriminate |].
      apply newOutput_fresh in En as (Htw0 & _ & _ & Hnf).
      rewrite Htw0 in H. destruct (addErr lx emptyWriter (ieKey e));
        [discriminate |].
      apply Hcons in H; [exact H |].
      unfold finishedOutputs. cbn. rewrite Etw, Hnf. apply removelast_last.
Qed.

(** The outputs that have passed the checks lie within the bounds of the
    compaction, when these are set and [Validate] rejects a file whose
    smallest user key is above its largest. *)
Lemma outputsChecked_within (prev : option fileMetadata)
    (ms : list fileMetadata) :
  TotalOrder cmp ->
  (forall m, validateErr ext m = None ->
             cmp (UserKey (Smallest m)) (UserKey (Largest m)) <= 0) ->
  isNil (UserKey (smallest c)) = false ->
  isNil (UserKey (largest c)) = false ->
  outputsChecked cmp ext c prev ms ->
  Forall (withinInputBounds cmp c) ms.
Proof.
  intros Hord Hval Hs Hl. revert prev.
  induction ms as [|m ms IH]; intros prev H; [constructor |].
  destruct H as [(Hsm & Hlg & _ & Hv) H]. constructor; [| exact (IH _ H)].
  split; [| split].
  - apply (cmp_flip_le cmp Hord). specialize (Hsm Hs). lia.
  - exact (Hval m Hv).
  - exact (Hlg Hl).
Qed.
End RunOutputs.

Section OutputBoundsFacts.
Variable cmp : Compare.

(** Extending the bounds of a file picks, for each bound, the given key or
    the bound the file had. *)
Lemma extendOverallBounds_pick (P Q : InternalKey -> Prop) (m : fileMetadata)
    (sm lg : InternalKey) (hp hr : bool) :
  P sm -> Q lg ->
  (HasPointKeys m || HasRangeKeys m = true -> P (Smallest m) /\ Q (Largest m)) ->
  P (Smallest (extendOverallBounds cmp m sm lg hp hr))
  /\ Q (Largest (extendOverallBounds cmp m sm lg hp hr))
  /\ HasPointKeys (extendOverallBounds cmp m sm lg hp hr) = hp
  /\ HasRangeKeys (extendOverallBounds cmp m sm lg hp hr) = hr.
Proof.
  intros Hsm Hlg Hm. unfold extendOverallBounds.
  destruct (HasPointKeys m || HasRangeKeys m) eqn:E; cbn; [| tauto].
  destruct (Hm Logic.eq_refl) as [Hp Hq].
  destruct (_ <? 0); destruct (_ >? 0); tauto.
Qed.

Lemma hd_In {A : Type} (d : A) (l : list A) : l <> [] -> In (List.hd d l) l.
Proof. destruct l; [congruence | now left]. Qed.

Lemma last_In {A : Type} (d : A) (l : list A) : l <> [] -> In (List.last l d) l.
Proof.
  intros Hne. destruct (exists_last Hne) as (l' & a & ->).
  rewrite last_last. apply in_app_iff. right. now left.
Qed.

Lemma length_eqb_nil {A : Type} (l : list A) :
  negb (length l =? 0)%nat = true <-> l <> [].
Proof. destruct l; cbn; split; congruence. Qed.

Lemma firstSpan_In (l : list keyspan_Span) :
  l <> [] ->
  exists s, In s l
            /\ match l with
               | s :: _ => spanSmallestKey s
               | [] => zeroKey
               end = spanSmallestKey s.
Proof. destruct l as [|s l]; [congruence |]. exists s. split; [now left | reflexivity]. Qed.

Lemma lastSpan_In (l : list keyspan_Span) :
  l <> [] ->
  exists s, In s l
            /\ match l with
               | _ :: _ =>
                   spanLargestKey
                     (List.last l {| spStart := None; spEnd := None; spKeys := [] |})
               | [] => zeroKey
               end = spanLargestKey s.
Proof.
  intros Hne.
  exists (List.last l {| spStart := None; spEnd := None; spKeys := [] |}).
  split; [apply (last_In _ l Hne) |].
  destruct l; [congruence | reflexivity].
Qed.

(** The bounds of an output are bounds of what its writer holds: the
    smallest key is the first point key or the start of the first span of
    a class, the largest key the last point key or the end of the last
    span of a class. *)
Lemma outputBounds_pick (P Q : InternalKey -> Prop) (meta1 : fileMetadata)
    (w : Writer) :
  HasPointKeys meta1 = false -> HasRangeKeys meta1 = false ->
  wPoints w <> [] \/ wRangeDels w <> [] \/ wRangeKeys w <> [] ->
  (forall k, In k (wPoints w) -> P k /\ Q k) ->
  (forall s, In s (wRangeDels w ++ wRangeKeys w) ->
             P (spanSmallestKey s) /\ Q (spanLargestKey s)) ->
  P (Smallest (outputBounds cmp meta1 (Writer_Metadata w)))
  /\ Q (Largest (outputBounds cmp meta1 (Writer_Metadata w))).
Proof.
  intros Hp1 Hr1 Hne Hpts Hspans.
  set (wm := Writer_Metadata w).
  set (good := fun m : fileMetadata =>
         HasPointKeys m || HasRangeKeys m = true ->
         P (Smallest m) /\ Q (Largest m)).
  assert (G1 : good meta1).
  { unfold good. rewrite Hp1, Hr1. discriminate. }
  (* the point keys *)
  set (meta2 := if wmHasPointKeys wm
                then ExtendPointKeyBounds cmp meta1
                       (wmSmallestPoint wm) (wmLargestPoint wm)
                else meta1).
  assert (G2 : good meta2
               /\ (wPoints w <> [] -> HasPointKeys meta2 = true)).
  { unfold meta2. destruct (wmHasPointKeys wm) eqn:E.
    - apply length_eqb_nil in E.
      destruct (extendOverallBounds_pick P Q meta1 (wmSmallestPoint wm)
                  (wmLargestPoint wm) true (HasRangeKeys meta1))
        as (Hs & Hl & Hp & _).
      + exact (proj1 (Hpts _ (hd_In zeroKey _ E))).
      + exact (proj2 (Hpts _ (last_In zeroKey _ E))).
      + exact G1.
      + split; [intros _; split; [exact Hs | exact Hl] | intros _; exact Hp].
    - split; [exact G1 |]. intros Hn. apply length_eqb_nil in Hn.
      cbn in E. congruence. }
  destruct G2 as [G2 F2].
  (* the range deletions *)
  set (meta3 := if wmHasRangeDelKeys wm
                then ExtendPointKeyBounds cmp meta2
                       (wmSmallestRangeDel wm) (wmLargestRangeDel wm)
                else meta2).
  assert (G3 : good meta3
               /\ (wPoints w <> [] \/ wRangeDels w <> [] ->
                   HasPointKeys meta3 = true)).
  { unfold meta3. destruct (wmHasRangeDelKeys wm) eqn:E.
    - apply length_eqb_nil in E.
      destruct (extendOverallBounds_pick P Q meta2 (wmSmallestRangeDel wm)
                  (wmLargestRangeDel wm) true (HasRangeKeys meta2))
        as (Hs & Hl & Hp & _).
      + destruct (firstSpan_In _ E) as (s & Hs & Heq).
        change (wmSmallestRangeDel wm) with
          (match wRangeDels w with
           | s :: _ => spanSmallestKey s
           | [] => zeroKey
           end).
        rewrite Heq. apply Hspans. apply in_app_iff. now left.
      + destruct (lastSpan_In _ E) as (s & Hs & Heq).
        change (Q (wmLargestRangeDel wm)) with
          (Q (match wRangeDels w with
              | _ :: _ =>
                  spanLargestKey
                    (List.last (wRangeDels w)
                       {| spStart := None; spEnd := None; spKeys := [] |})
              | [] => zeroKey
              end)).
        rewrite Heq. apply Hspans. apply in_app_iff. now left.
      + exact G2.
      + split; [intros _; split; [exact Hs | exact Hl] | intros _; exact Hp].
    - split; [exact G2 |]. intros [Hn|Hn]; [exact (F2 Hn) |].
      apply length_eqb_nil in Hn. cbn in E. congruence. }
  destruct G3 as [G3 F3].
  (* the range keys *)
  change (outputBounds cmp meta1 wm)
    with (if wmHasRangeKeys wm
          then ExtendRangeKeyBounds cmp meta3
                 (wmSmallestRangeKey wm) (wmLargestRangeKey wm)
          else meta3).
  destruct (wmHasRangeKeys wm) eqn:E.
  - apply length_eqb_nil in E.
    destruct (extendOverallBounds_pick P Q meta3 (wmSmallestRangeKey wm)
                (wmLargestRangeKey wm) (HasPointKeys meta3) true)
      as (Hs & Hl & _).
    + destruct (firstSpan_In _ E) as (s & Hs & Heq).
      change (wmSmallestRangeKey wm) with
        (match wRangeKeys w with
         | s :: _ => spanSmallestKey s
         | [] => zeroKey
         end).
      rewrite Heq. apply Hspans. apply in_app_iff. now right.
    + destruct (lastSpan_In _ E) as (s & Hs & Heq).
      change (Q (wmLargestRangeKey wm)) with
        (Q (match wRangeKeys w with
            | _ :: _ =>
                spanLargestKey
                  (List.last (wRangeKeys w)
                     {| spStart := None; spEnd := None; spKeys := [] |})
            | [] => zeroKey
            end)).
      rewrite Heq. apply Hspans. apply in_app_iff. now right.
    + exact G3.
    + split; [exact Hs | exact Hl].
  - apply G3. rewrite F3; [reflexivity |].
    destruct Hne as [Hn|[Hn|Hn]]; [now left | now right |].
    apply length_eqb_nil in Hn. cbn in E. congruence.
Qed.
End OutputBoundsFacts.

Section FinishOutputRuns.
Variable cmp : Compare.
Variable ext : externals.
Variable c : compaction.

(** What a loop over spans has done when it ends without error: with no
    span nothing, else the spans are in the writer, which was opened when
    absent. *)
Lemma emitSpans_run (encodeErr : keyspan_Span -> option error)
    (add : Writer -> keyspan_Span -> Writer) (vs : list keyspan_Span)
    (st st' : outputState) :
  emitSpans ext c encodeErr add vs st = (st', None) ->
  pendingTombstones st' = pendingTombstones st
  /\ pendingRangeKeys st' = pendingRangeKeys st
  /\ match vs with
     | [] => st' = st
     | _ :: _ =>
         tw st' = Some (fold_left add vs (default emptyWriter (tw st)))
         /\ ve_NewFiles st' = ve_NewFiles st ++ newEntry c st
     end.
Proof.
  revert st. induction vs as [|v vs IH]; intros st H; cbn in H.
  - injection H as <-. tauto.
  - assert (Hstep : forall st1 w,
               tw st1 = Some w ->
               w = default emptyWriter (tw st) ->
               pendingTombstones st1 = pendingTombstones st ->
               pendingRangeKeys st1 = pendingRangeKeys st ->
               ve_NewFiles st1 = ve_NewFiles st ++ newEntry c st ->
               emitSpans ext c encodeErr add vs (set_tw st1 (Some (add w v)))
               = (st', None) ->
               pendingTombstones st' = pendingTombstones st
               /\ pendingRangeKeys st' = pendingRangeKeys st
               /\ tw st' = Some (fold_left add (v :: vs)
                                   (default emptyWriter (tw st)))
               /\ ve_NewFiles st' = ve_NewFiles st ++ newEntry c st).
    { intros st1 w Htw Hw Ht Hk Hnf H1. apply IH in H1 as (Ht' & Hk' & Hvs).
      cbn [pendingTombstones pendingRangeKeys set_tw] in Ht', Hk'.
      split; [congruence |]. split; [congruence |].
      cbn [fold_left]. rewrite <- Hw.
      destruct vs as [|v' vs'].
      - subst st'. cbn. split; [reflexivity | exact Hnf].
      - destruct Hvs as [Htw' Hnf']. cbn in Htw', Hnf'.
        unfold newEntry in Hnf'. cbn in Hnf'. rewrite app_nil_r in Hnf'.
        split; [exact Htw' | congruence]. }
    destruct (tw st) as [w|] eqn:Etw.
    + cbn in H. rewrite Etw in H. destruct (encodeErr v); [discriminate |].
      apply (Hstep st w) in H; try reflexivity; [exact H | exact Etw |].
      unfold newEntry. now rewrite Etw, app_nil_r.
    + destruct (newOutput ext c st) as [st1 [e|]] eqn:En; [discriminate |].
      unfold newOutput in En. destruct (cancel c); [discriminate |].
      destruct (createErr ext (nextFileNum st)); [discriminate |].
      injection En as <-. cbn in H.
      destruct (encodeErr v); [discriminate |].
      apply (Hstep _ emptyWriter) in H; try reflexivity; [exact H |].
      unfold newEntry. now rewrite Etw.
Qed.

(** What the first part of [finishOutput] has done when it does not fail. *)
Lemma emitPending_run (splitKey : Bytes) (st : outputState) :
  let ts := fst (SpansUpTo cmp splitKey (pendingTombstones st)) in
  let ks := fst (SpansUpTo cmp splitKey (pendingRangeKeys st)) in
  let restT := snd (SpansUpTo cmp splitKey (pendingTombstones st)) in
  let restK := snd (SpansUpTo cmp splitKey (pendingRangeKeys st)) in
  match emitPending cmp ext c splitKey st with
  | EmitReturn st' None =>
      tw st = None /\ tw st' = None /\ ve_NewFiles st' = ve_NewFiles st
      /\ (pendingTombstones st' = pendingTombstones st
          /\ pendingRangeKeys st' = pendingRangeKeys st
          \/ pendingTombstones st' = restT /\ pendingRangeKeys st' = restK)
  | EmitReturn _ (Some _) => True
  | EmitContinue st3 w =>
      tw st3 = Some w
      /\ w = writerAfter (default emptyWriter (tw st)) ts ks
      /\ (tw st = None -> ts ++ ks <> [])
      /\ ve_NewFiles st3 = ve_NewFiles st ++ newEntry c st
      /\ pendingTombstones st3 = restT
      /\ pendingRangeKeys st3 = restK
  end.
Proof.
  intros ts ks restT restK. unfold emitPending.
  destruct (bool_decide (tw st = None) && negb (isNil splitKey)
            && (cmp _ splitKey =? 0)) eqn:G.
  { apply andb_true_iff in G as [G _]. apply andb_true_iff in G as [G _].
    apply bool_decide_eq_true in G. tauto. }
  subst ts restT.
  destruct (SpansUpTo cmp splitKey (pendingTombstones st)) as [ts restT].
  cbn [fst snd].
  destruct (emitSpans ext c (encodeRangeDelErr ext) addRangeDel ts _)
    as [st1 [e|]] eqn:E1; [exact I |].
  apply emitSpans_run in E1 as (Ht1 & Hk1 & Hts).
  cbn [pendingTombstones pendingRangeKeys set_pending] in Ht1, Hk1.
  rewrite Hk1. subst ks restK.
  destruct (SpansUpTo cmp splitKey (pendingRangeKeys st)) as [ks restK].
  cbn [fst snd].
  destruct (emitSpans ext c (encodeRangeKeyErr ext) addRangeKey ks _)
    as [st3 [e|]] eqn:E3; [exact I |].
  apply emitSpans_run in E3 as (Ht3 & Hk3 & Hks).
  cbn [pendingTombstones pendingRangeKeys set_pending] in Ht3, Hk3.
  assert (Hstate : tw st3 = match ts ++ ks with
                            | [] => tw st
                            | _ :: _ =>
                                Some (writerAfter (default emptyWriter (tw st)) ts ks)
                            end
                   /\ ve_NewFiles st3
                      = ve_NewFiles st
                        ++ match ts ++ ks with
                           | [] => []
                           | _ :: _ => newEntry c st
                           end).
  { destruct ts as [|t0 ts0]; destruct ks as [|k0 ks0];
      cbn [app] in *.
    - subst st3 st1. cbn. now rewrite app_nil_r.
    - subst st1. destruct Hks as [Htw Hnf].
      cbn [tw ve_NewFiles set_pending] in Htw, Hnf.
      rewrite Htw, fold_addRangeKey. split; [reflexivity |].
      rewrite Hnf. unfold newEntry. reflexivity.
    - subst st3. destruct Hts as [Htw Hnf].
      cbn [tw ve_NewFiles set_pending] in *.
      rewrite Htw, fold_addRangeDel. split; [reflexivity |].
      rewrite Hnf. unfold newEntry. reflexivity.
    - destruct Hts as [Htw1 Hnf1]. destruct Hks as [Htw3 Hnf3].
      cbn [tw ve_NewFiles set_pending] in *.
      rewrite Htw3, Htw1, fold_addRangeKey, fold_addRangeDel. split.
      + f_equal. unfold writerAfter. cbn. now rewrite !app_nil_r.
      + rewrite Hnf3, Hnf1. unfold newEntry at 2.
        cbn [tw set_pending]. rewrite Htw1. now rewrite app_nil_r. }
  destruct Hstate as [Htw Hnf].
  destruct (tw st3) as [w3|] eqn:Etw3.
  - split; [exact Etw3 |]. destruct (ts ++ ks) as [|x l] eqn:Eapp.
    + apply app_eq_nil in Eapp as [-> ->].
      split; [| split; [| split; [| split]]].
      * destruct (tw st) as [w|]; [| discriminate]. injection Htw as ->.
        unfold writerAfter. cbn. rewrite !app_nil_r. now destruct w.
      * intros Hn. rewrite Hn in Htw. discriminate.
      * rewrite Hnf, app_nil_r. unfold newEntry.
        destruct (tw st); [now rewrite app_nil_r | discriminate].
      * congruence.
      * congruence.
    + injection Htw as ->. split; [reflexivity |].
      split; [intros _; discriminate |].
      split; [exact Hnf |]. split; congruence.
  - destruct (ts ++ ks) as [|x l]; [| discriminate].
    rewrite app_nil_r in Hnf.
    split; [congruence |]. split; [exact Etw3 |]. split; [exact Hnf |].
    right. split; congruence.
Qed.

Lemma set_lastMeta_pending (st : outputState) (m : fileMetadata) :
  pendingTombstones (set_lastMeta st m) = pendingTombstones st
  /\ pendingRangeKeys (set_lastMeta st m) = pendingRangeKeys st.
Proof. unfold set_lastMeta. destruct (reverse _); cbn; tauto. Qed.

(** What the second part of [finishOutput] has done when it ends without
    error: the last entry of [ve.NewFiles] has the bounds of the writer,
    and the check of the user-key overlap has passed. *)
Lemma closeOutput_run (splitKey : Bytes) (st3 st' : outputState)
    (w : Writer) (fin : list newFileEntry) (e : newFileEntry) :
  ve_NewFiles st3 = fin ++ [e] ->
  closeOutput cmp ext c splitKey st3 w = Some (st', None) ->
  exists meta1 m,
    HasPointKeys meta1 = HasPointKeys (nfMeta e)
    /\ HasRangeKeys meta1 = HasRangeKeys (nfMeta e)
    /\ m = outputBounds cmp meta1 (Writer_Metadata w)
    /\ tw st' = None
    /\ pendingTombstones st' = pendingTombstones st3
    /\ pendingRangeKeys st' = pendingRangeKeys st3
    /\ ve_NewFiles st' = fin ++ [ {| nfLevel := nfLevel e; nfMeta := m |} ]
    /\ errorOnUserKeyOverlap cmp (ve_NewFiles st') = None.
Proof.
  intros Hnf. unfold closeOutput.
  destruct (closeErr ext w); [discriminate |].
  destruct (metadataErr ext w); [discriminate |].
  cbn [ve_NewFiles set_tw].
  rewrite Hnf, reverse_snoc.
  set (meta1 := {| FileNum := FileNum (nfMeta e) |}).
  assert (Hnf4 : ve_NewFiles (set_tw st3 None) = fin ++ [e]) by exact Hnf.
  destruct (set_lastMeta_snoc (set_tw st3 None) fin e meta1 Hnf4)
    as [Hnf5 Htw5].
  destruct (set_lastMeta_pending (set_tw st3 None) meta1) as [Ht5 Hk5].
  set (st5 := set_lastMeta (set_tw st3 None) meta1) in *.
  destruct (checkSmallestRangeDel cmp (ve_NewFiles st5) _); [discriminate |].
  destruct (checkLargestRangeDel cmp splitKey _); [discriminate |].
  match goal with
  | |- context [checkInputBounds cmp c ?m] => set (meta4 := m)
  end.
  destruct (set_lastMeta_snoc st5 fin
              {| nfLevel := nfLevel e; nfMeta := meta1 |} meta4 Hnf5)
    as [Hnf6 Htw6].
  destruct (set_lastMeta_pending st5 meta4) as [Ht6 Hk6].
  set (st6 := set_lastMeta st5 meta4) in *.
  destruct (checkInputBounds cmp c meta4); [discriminate |].
  destruct (errorOnUserKeyOverlap cmp (ve_NewFiles st6)) eqn:Eoverlap;
    [discriminate |].
  intros [= <- _]. exists meta1, meta4.
  split; [reflexivity |]. split; [reflexivity |]. split; [reflexivity |].
  split; [rewrite Htw6, Htw5; reflexivity |].
  split; [rewrite Ht6, Ht5; reflexivity |].
  split; [rewrite Hk6, Hk5; reflexivity |].
  split; [exact Hnf6 | exact Eoverlap].
Qed.
End FinishOutputRuns.

Section RunOrder.
Variable cmp : Compare.
Variable ext : externals.
Variable lx : loopExternals.
Variable c : compaction.
Hypothesis Hord : TotalOrder cmp.

Lemma cmp_refl_eq (k : Bytes) : cmp k k = 0.
Proof. pose proof (cmp_antisym cmp Hord k k). lia. Qed.

Lemma aboveLast_le (prev : option fileMetadata) (u v : Bytes) :
  aboveLast cmp prev u -> cmp u v <= 0 -> aboveLast cmp prev v.
Proof.
  destruct prev as [p|]; cbn; [| trivial]. intros H Huv Hs.
  exact (cmp_trans cmp Hord _ _ _ (H Hs) Huv).
Qed.

(** The spans that [SpansUpTo] keeps start at or above the key, and not
    below the pending span they come from. *)
Lemma SpansUpTo_rest (key : Bytes) (pending : list keyspan_Span)
    (s : keyspan_Span) :
  In s (snd (SpansUpTo cmp key pending)) ->
  isNil key = false
  /\ cmp key (spStart s) <= 0
  /\ exists s0, In s0 pending /\ cmp (spStart s0) (spStart s) <= 0.
Proof.
  unfold SpansUpTo. destruct (isNil key); cbn [snd]; [intros [] |].
  intros H. apply in_map_iff in H as (s0 & <- & Hs0).
  apply filter_In in Hs0 as [Hs0 _]. split; [reflexivity |].
  unfold truncateAbove. cbn [spStart].
  destruct (Z.ltb_spec (cmp (spStart s0) key) 0) as [Hlt|Hge].
  - split; [apply (cmp_refl_le cmp Hord) |]. exists s0. split; [exact Hs0 | lia].
  - split; [apply (cmp_flip_le cmp Hord); lia |].
    exists s0. split; [exact Hs0 | apply (cmp_refl_le cmp Hord)].
Qed.

(** The spans that [SpansUpTo] hands out start where a pending span
    starts, and end at or below the key. *)
Lemma SpansUpTo_out (key : Bytes) (pending : list keyspan_Span)
    (t : keyspan_Span) :
  In t (fst (SpansUpTo cmp key pending)) ->
  (exists s0, In s0 pending /\ spStart t = spStart s0)
  /\ (isNil key = false -> cmp (spEnd t) key <= 0).
Proof.
  intros H. split.
  - apply SpansUpTo_spec in H as (s0 & Hs0 & _ & ->). exists s0.
    split; [exact Hs0 |]. now destruct (isNil key).
  - intros Hk.
    pose proof (SpansUpTo_below cmp cmp_refl_eq key pending Hk) as Hall.
    rewrite Forall_forall in Hall. exact (proj2 (Hall t H)).
Qed.

Lemma outputsApart_snoc (prev : option fileMetadata)
    (ms : list fileMetadata) (m : fileMetadata) :
  outputsApart cmp prev (ms ++ [m]) <->
  outputsApart cmp prev ms
  /\ match List.last (map Some ms) prev with
     | Some p => startsAfter cmp p m
     | None => True
     end.
Proof.
  revert prev. induction ms as [|a ms IH]; intros prev.
  - cbn. tauto.
  - rewrite <- app_comm_cons. cbn [outputsApart map].
    rewrite last_cons_default, IH. tauto.
Qed.

Lemma spanSmallestKey_UserKey (s : keyspan_Span) :
  UserKey (spanSmallestKey s) = spStart s.
Proof. unfold spanSmallestKey. now destruct (spKeys s). Qed.

Lemma spanLargestKey_UserKey (s : keyspan_Span) :
  UserKey (spanLargestKey s) = spEnd s.
Proof. unfold spanLargestKey. now destruct (spKeys s). Qed.

Lemma inputInOrder_suffix (pre input : list iterEntry) :
  inputInOrder cmp (pre ++ input) -> inputInOrder cmp input.
Proof.
  induction pre as [|e pre IH]; [trivial |].
  intros [Hall Hs]. apply IH. rewrite <- app_comm_cons in Hall, Hs.
  apply Forall_cons_iff in Hall as [_ Hall].
  apply StronglySorted_inv in Hs as [Hs _]. split; assumption.
Qed.

(** The inner loop keeps what the loop keeps. *)
Lemma addKeys_inv (input input1 : list iterEntry) (st st1 : outputState) :
  inputInOrder cmp input ->
  loopInv cmp input st ->
  addKeys ext lx c input st = (input1, st1, None) ->
  loopInv cmp input1 st1.
Proof.
  revert st. induction input as [|e rest IH]; intros st Hio Hinv H; cbn in H.
  - injection H as <- <-. exact Hinv.
  - destruct (ShouldSplitBefore lx (e :: rest) st (ieKey e)).
    { injection H as <- <-. exact Hinv. }
    pose proof (inputInOrder_suffix [e] rest Hio) as Hio'.
    destruct Hio as [Hall _]. apply Forall_cons_iff in Hall as [[_ Hspan] _].
    destruct Hinv as (Hin & Hpend & Hw & Hap).
    assert (He : aboveLast cmp (lastOutput st) (UserKey (ieKey e)))
      by (apply Hin; now left).
    assert (Hrest : forall e', In e' rest ->
              aboveLast cmp (lastOutput st) (UserKey (ieKey e')))
      by (intros e' He'; apply Hin; now right).
    destruct (bool_decide (Kind (ieKey e) = InternalKeyKindRangeDelete))
      eqn:Erd.
    { apply bool_decide_eq_true in Erd. apply (IH _ Hio') in H; [exact H |].
      split; [exact Hrest |]. split; [| split; [exact Hw | exact Hap]].
      intros s Hs. cbn in Hs. rewrite <- app_assoc in Hs.
      apply in_app_iff in Hs as [Hs|Hs];
        [apply Hpend, in_app_iff; now left |].
      destruct Hs as [<-|Hs];
        [| apply Hpend, in_app_iff; now right].
      apply (aboveLast_le _ _ _ He). apply Hspan. now left. }
    destruct (isRangeKeyKind (Kind (ieKey e))) eqn:Erk.
    { apply (IH _ Hio') in H; [exact H |].
      split; [exact Hrest |]. split; [| split; [exact Hw | exact Hap]].
      intros s Hs. cbn in Hs. rewrite app_assoc in Hs.
      apply in_app_iff in Hs as [Hs|Hs]; [apply Hpend, Hs |].
      destruct Hs as [<-|[]].
      apply (aboveLast_le _ _ _ He). apply Hspan. now right. }
    assert (Hsent : IsExclusiveSentinel (ieKey e) = false).
    { apply bool_decide_eq_false in Erd. unfold IsExclusiveSentinel.
      destruct (Kind (ieKey e)); cbn in Erk; congruence. }
    destruct (tw st) as [w|] eqn:Etw.
    + rewrite Etw in H. destruct (addErr lx w (ieKey e)); [discriminate |].
      apply (IH _ Hio') in H; [exact H |].
      assert (Hlast : lastOutput (set_tw st (Some (addPoint w (ieKey e))))
                      = lastOutput st).
      { unfold lastOutput, finishedOutputs. cbn. now rewrite Etw. }
      unfold loopInv. rewrite Hlast.
      split; [exact Hrest |]. split; [exact Hpend |].
      destruct Hw as (Hd & Hk & _ & Hpts & Hentry).
      split.
      * cbn. split; [exact Hd |]. split; [exact Hk |].
        split; [now destruct (wPoints w) |].
        split; [| exact Hentry].
        intros k Hin'. apply in_app_iff in Hin' as [Hin'|[<-|[]]];
          [now apply Hpts | tauto].
      * unfold finishedOutputs in *. cbn. rewrite Etw in Hap. exact Hap.
    + destruct (newOutput ext c st) as [st0 [er|]] eqn:En; [discriminate |].
      apply newOutput_fresh in En as (Htw0 & Ht0 & Hk0 & Hnf0).
      rewrite Htw0 in H.
      destruct (addErr lx emptyWriter (ieKey e)); [discriminate |].
      apply (IH _ Hio') in H; [exact H |].
      assert (Hfin : finishedOutputs
                       (set_tw st0 (Some (addPoint emptyWriter (ieKey e))))
                     = finishedOutputs st).
      { unfold finishedOutputs. cbn. rewrite Etw, Hnf0.
        apply removelast_last. }
      unfold loopInv, lastOutput. rewrite Hfin. fold (lastOutput st).
      split; [exact Hrest |]. split; [| split; [| exact Hap]].
      * cbn. rewrite Ht0, Hk0. exact Hpend.
      * cbn. split; [reflexivity |]. split; [reflexivity |].
        split; [discriminate |]. split.
        -- intros k [<-|[]]. tauto.
        -- eexists _, _. split; [exact Hnf0 |]. cbn. tauto.
Qed.

(** The split key is not above the keys left, and is nil only when none is
    left. *)
Lemma chooseSplitKey_spec (suggestion : Bytes) (input : list iterEntry) :
  inputInOrder cmp input ->
  (isNil (chooseSplitKey cmp suggestion input) = true -> input = [])
  /\ (isNil (chooseSplitKey cmp suggestion input) = false ->
      forall e, In e input ->
        cmp (chooseSplitKey cmp suggestion input) (UserKey (ieKey e)) <= 0).
Proof.
  intros [Hall Hs]. destruct input as [|e rest]; cbn.
  - split; [reflexivity | intros _ e []].
  - apply Forall_cons_iff in Hall as [[He _] _].
    apply StronglySorted_inv in Hs as [_ Hs]. rewrite Forall_forall in Hs.
    assert (Hle : forall k, cmp k (UserKey (ieKey e)) <= 0 ->
              forall e', e = e' \/ In e' rest ->
                cmp k (UserKey (ieKey e')) <= 0).
    { intros k Hk e' [<-|He']; [exact Hk |].
      exact (cmp_trans cmp Hord _ _ _ Hk (Hs e' He')). }
    destruct (isNil suggestion) eqn:En; cbn [orb].
    + split; [congruence |]. intros _. apply Hle, (cmp_refl_le cmp Hord).
    + destruct (Z.gtb_spec (cmp suggestion (UserKey (ieKey e))) 0).
      * split; [congruence |]. intros _. apply Hle, (cmp_refl_le cmp Hord).
      * split; [congruence |]. intros _. apply Hle. lia.
Qed.

Lemma lastOutput_snoc (st : outputState) (fin : list newFileEntry)
    (e : newFileEntry) :
  tw st = None -> ve_NewFiles st = fin ++ [e] ->
  lastOutput st = Some (nfMeta e).
Proof.
  intros Htw Hnf. unfold lastOutput, finishedOutputs.
  rewrite Htw, Hnf, !map_app. cbn. apply last_last.
Qed.

(** [finishOutput] keeps what the loop keeps, when the split key is not
    above the keys left and is nil only when none is left. *)
Lemma finishOutput_inv (input : list iterEntry) (splitKey : Bytes)
    (st st' : outputState) :
  loopInv cmp input st ->
  (isNil splitKey = true -> input = []) ->
  (isNil splitKey = false ->
   forall e, In e input -> cmp splitKey (UserKey (ieKey e)) <= 0) ->
  finishOutput cmp ext c splitKey st = Some (st', None) ->
  tw st' = None /\ loopInv cmp input st'.
Proof.
  intros (Hin & Hpend & Hw & Hap) Hnil Hsk H. unfold finishOutput in H.
  pose proof (emitPending_run cmp ext c splitKey st) as Hrun.
  cbv zeta in Hrun.
  destruct (emitPending cmp ext c splitKey st) as [st1 err|st3 w3].
  - injection H as -> ->. destruct Hrun as (Htw & Htw' & Hnf & Hp).
    assert (Hlast : lastOutput st' = lastOutput st).
    { unfold lastOutput, finishedOutputs. now rewrite Htw, Htw', Hnf. }
    split; [exact Htw' |]. unfold loopInv. rewrite Hlast, Htw'.
    split; [exact Hin |]. split; [| split; [exact I |]].
    + intros s Hs. destruct Hp as [[Ht Hk]|[Ht Hk]]; rewrite Ht, Hk in Hs;
        [apply Hpend, Hs |].
      apply in_app_iff in Hs as [Hs|Hs];
        apply SpansUpTo_rest in Hs as (_ & _ & s0 & Hs0 & Hle);
        (eapply aboveLast_le; [apply Hpend, in_app_iff | exact Hle]);
        [left | right]; exact Hs0.
    + unfold finishedOutputs in *. rewrite Htw', Hnf. now rewrite Htw in Hap.
  - destruct Hrun as (Htw3 & Hw3 & Hne & Hnf3 & Ht3 & Hk3).
    set (ts := fst (SpansUpTo cmp splitKey (pendingTombstones st))) in *.
    set (ks := fst (SpansUpTo cmp splitKey (pendingRangeKeys st))) in *.
    (* the entry of the writer in ve.NewFiles *)
    assert (Hentry : exists e,
               ve_NewFiles st3 = finishedOutputs st ++ [e]
               /\ HasPointKeys (nfMeta e) = false
               /\ HasRangeKeys (nfMeta e) = false).
    { unfold finishedOutputs, newEntry in *. destruct (tw st) as [w|].
      - destruct Hw as (_ & _ & _ & _ & fin & e & Hnf & Hp & Hr).
        exists e. rewrite Hnf3, Hnf, app_nil_r, removelast_last. tauto.
      - eexists. split; [exact Hnf3 |]. cbn. tauto. }
    destruct Hentry as (e & Hnf3' & Hpe & Hre).
    destruct (closeOutput_run cmp ext c splitKey st3 st' w3 _ e Hnf3' H)
      as (meta1 & m & Hp1 & Hr1 & Hm & Htw' & Ht' & Hk' & Hnf' & Hov).
    (* what the writer holds *)
    assert (Hw0 : wRangeDels w3 = ts /\ wRangeKeys w3 = ks
                  /\ (forall k, In k (wPoints w3) ->
                        IsExclusiveSentinel k = false
                        /\ aboveLast cmp (lastOutput st) (UserKey k))
                  /\ (wPoints w3 <> [] \/ ts ++ ks <> [])).
    { rewrite Hw3. unfold writerAfter. destruct (tw st) as [w|]; cbn.
      - destruct Hw as (Hd & Hk & Hn & Hpts & _).
        rewrite Hd, Hk. cbn. tauto.
      - split; [reflexivity |]. split; [reflexivity |].
        split; [intros k [] |]. right. now apply Hne. }
    destruct Hw0 as (Hd3 & Hk3' & Hpts & Hne3).
    (* the bounds of the output *)
    assert (Hb : aboveLast cmp (lastOutput st) (UserKey (Smallest m))
                 /\ (IsExclusiveSentinel (Largest m) = true ->
                     isNil splitKey = false ->
                     cmp (UserKey (Largest m)) splitKey <= 0)).
    { rewrite Hm.
      apply (outputBounds_pick cmp
               (fun k => aboveLast cmp (lastOutput st) (UserKey k))
               (fun k => IsExclusiveSentinel k = true ->
                         isNil splitKey = false ->
                         cmp (UserKey k) splitKey <= 0)).
      - congruence.
      - congruence.
      - rewrite Hd3, Hk3'. destruct Hne3 as [Hn|Hn]; [now left |].
        destruct ts; [right; right; exact Hn | right; left; discriminate].
      - intros k Hk. destruct (Hpts k Hk) as [Hs Ha].
        split; [exact Ha | congruence].
      - rewrite Hd3, Hk3'. intros s Hs.
        rewrite spanSmallestKey_UserKey, spanLargestKey_UserKey.
        apply in_app_iff in Hs as [Hs|Hs];
          apply SpansUpTo_out in Hs as [(s0 & Hs0 & ->) Hend];
          (split; [apply Hpend, in_app_iff | intros _; exact Hend]);
          [left | right]; exact Hs0. }
    destruct Hb as [Hsm Hlg].
    pose proof (lastOutput_snoc st' _ _ Htw' Hnf') as Hlast'.
    cbn [nfMeta] in Hlast'.
    split; [exact Htw' |]. unfold loopInv. rewrite Hlast', Htw'.
    split; [| split; [| split; [exact I |]]].
    + intros e' He' Hs. destruct (isNil splitKey) eqn:Ek.
      * rewrite (Hnil Logic.eq_refl) in He'. destruct He'.
      * exact (cmp_trans cmp Hord _ _ _ (Hlg Hs Logic.eq_refl)
                 (Hsk Logic.eq_refl e' He')).
    + intros s Hs Hsent. rewrite Ht', Hk', Ht3, Hk3 in Hs.
      apply in_app_iff in Hs as [Hs|Hs];
        apply SpansUpTo_rest in Hs as (Ek & Hle & _);
        exact (cmp_trans cmp Hord _ _ _ (Hlg Hsent Ek) Hle).
    + unfold finishedOutputs at 1. rewrite Htw', Hnf', map_app. cbn [map nfMeta].
      apply outputsApart_snoc. split; [exact Hap |].
      fold (lastOutput st).
      destruct (lastOutput st) as [p|] eqn:El; [| exact I].
      unfold startsAfter.
      destruct (IsExclusiveSentinel (Largest p)) eqn:Es; [exact (Hsm Es) |].
      (* the previous output does not end at a sentinel: the check *)
      unfold lastOutput in El.
      destruct (finishedOutputs st) as [|e0 fin0] eqn:Efin using rev_ind;
        [discriminate |].
      clear IHfin0. rewrite !map_app in El. cbn [map] in El.
      rewrite last_last in El.
      injection El as <-.
      unfold errorOnUserKeyOverlap in Hov.
      rewrite Hnf', !reverse_snoc in Hov. cbn [nfMeta] in Hov.
      rewrite Es in Hov. cbn [negb andb] in Hov.
      destruct (Z.geb_spec (cmp (UserKey (Largest (nfMeta e0)))
                              (UserKey (Smallest m))) 0);
        [discriminate | lia].
Qed.

(** A run over keys in order that ends without error leaves outputs that
    start one after the other. *)
Lemma outputLoop_inv (fuel : nat) (input : list iterEntry)
    (st st' : outputState) :
  inputInOrder cmp input ->
  tw st = None ->
  loopInv cmp input st ->
  outputLoop cmp ext lx fuel c input st = RunReturned st' None ->
  outputsApart cmp None (map nfMeta (ve_NewFiles st')).
Proof.
  revert input st. induction fuel as [|fuel IH]; intros input st Hio Htw Hinv H;
    cbn in H; destruct (loopCondition input st); try discriminate;
    try (injection H as <-; destruct Hinv as (_ & _ & _ & Hap);
         unfold finishedOutputs in Hap; now rewrite Htw in Hap).
  destruct (addKeys ext lx c input st) as [[input1 st1] [er|]] eqn:Ea;
    [discriminate |].
  pose proof (addKeys_inv _ _ _ _ Hio Hinv Ea) as Hinv1.
  apply addKeys_finished in Ea as [_ [pre ->]].
  apply inputInOrder_suffix in Hio.
  destruct (finishOutput cmp ext c _ st1) as [[st2 [er|]]|] eqn:Ef;
    try discriminate.
  destruct (chooseSplitKey_spec
              (OnNewOutput lx (pre ++ input1) st
                 match pre ++ input1 with
                 | [] => FirstStart (pendingTombstones st)
                 | e :: _ => UserKey (ieKey e)
                 end) input1 Hio) as [Hnil Hsk].
  destruct (finishOutput_inv _ _ _ _ Hinv1 Hnil Hsk Ef) as [Htw2 Hinv2].
  exact (IH input1 st2 Hio Htw2 Hinv2 H).
Qed.

(** A user key at or below the end of an output is strictly below the
    start of every later one. *)
Lemma outputsApart_below (u : Bytes) (p : fileMetadata)
    (ms : list fileMetadata) :
  (if IsExclusiveSentinel (Largest p)
   then cmp u (UserKey (Largest p)) < 0
   else cmp u (UserKey (Largest p)) <= 0) ->
  Forall (fun m => cmp (UserKey (Smallest m)) (UserKey (Largest m)) <= 0) ms ->
  outputsApart cmp (Some p) ms ->
  Forall (fun m => cmp u (UserKey (Smallest m)) < 0) ms.
Proof.
  revert p. induction ms as [|m ms IH]; intros p Hu Hall Hap; [constructor |].
  apply Forall_cons_iff in Hall as [Hm Hall]. destruct Hap as [Hpm Hap].
  assert (Hlt : cmp u (UserKey (Smallest m)) < 0).
  { unfold startsAfter in Hpm. destruct (IsExclusiveSentinel (Largest p)).
    - exact (cmp_lt_le_trans cmp Hord _ _ _ Hu Hpm).
    - exact (cmp_le_lt_trans cmp Hord _ _ _ Hu Hpm). }
  constructor; [exact Hlt |]. apply (IH m); [| exact Hall | exact Hap].
  pose proof (cmp_lt_le_trans cmp Hord _ _ _ Hlt Hm) as Hl.
  destruct (IsExclusiveSentinel (Largest m)); lia.
Qed.

(** Outputs that start one after the other share no user key. *)
Lemma outputsApart_disjoint (prev : option fileMetadata)
    (ms : list fileMetadata) (i j : nat) (mi mj : fileMetadata) (u : Bytes) :
  Forall (fun m => cmp (UserKey (Smallest m)) (UserKey (Largest m)) <= 0) ms ->
  outputsApart cmp prev ms ->
  (i < j)%nat -> ms !! i = Some mi -> ms !! j = Some mj ->
  userKeyInBounds cmp u mi -> userKeyInBounds cmp u mj -> False.
Proof.
  revert prev i j. induction ms as [|m ms IH]; intros prev i j Hall Hap Hij Hi Hj;
    [discriminate |].
  apply Forall_cons_iff in Hall as [Hm Hall]. destruct Hap as [_ Hap].
  destruct j as [|j]; [lia |]. cbn in Hj. destruct i as [|i].
  - cbn in Hi. injection Hi as ->. intros [_ Hu] [Hlo _].
    pose proof (outputsApart_below u mi ms Hu Hall Hap) as Hbelow.
    rewrite Forall_forall in Hbelow.
    apply list_elem_of_lookup_2, list_elem_of_In in Hj.
    specialize (Hbelow _ Hj).
    apply (cmp_flip_le cmp Hord) in Hlo. lia.
  - cbn in Hi. apply (IH (Some m) i j Hall Hap); [lia | exact Hi | exact Hj].
Qed.
End RunOrder.

Section RunReturns.
Variable cmp : Compare.
Variable ext : externals.
Variable lx : loopExternals.
Variable c : compaction.

(** An open writer has its entry in [ve.NewFiles]. *)
Lemma addKeys_entry (input input1 : list iterEntry) (st st1 : outputState) :
  (tw st <> None -> ve_NewFiles st <> []) ->
  addKeys ext lx c input st = (input1, st1, None) ->
  tw st1 <> None -> ve_NewFiles st1 <> [].
Proof.
  revert st. induction input as [|e rest IH]; intros st Hst H; cbn in H.
  - now injection H as <- <-.
  - destruct (ShouldSplitBefore lx (e :: rest) st (ieKey e)).
    { now injection H as <- <-. }
    destruct (bool_decide (Kind (ieKey e) = InternalKeyKindRangeDelete)).
    { exact (IH (AddTombstoneSpan st (ieSpan e)) Hst H). }
    destruct (isRangeKeyKind (Kind (ieKey e))).
    { exact (IH (AddRangeKeySpan st (ieSpan e)) Hst H). }
    destruct (tw st) as [w|] eqn:Etw.
    + rewrite Etw in H. destruct (addErr lx w (ieKey e)); [discriminate |].
      refine (IH _ _ H). cbn. intros _. now apply Hst.
    + destruct (newOutput ext c st) as [st0 [er|]] eqn:En; [discriminate |].
      apply newOutput_fresh in En as (Htw0 & _ & _ & Hnf).
      rewrite Htw0 in H. destruct (addErr lx emptyWriter (ieKey e));
        [discriminate |].
      refine (IH _ _ H). cbn. intros _. rewrite Hnf.
      now destruct (ve_NewFiles st).
Qed.

(** [finishOutput] does not panic when the open writer has its entry. *)
Lemma finishOutput_returns (splitKey : Bytes) (st : outputState) :
  (tw st <> None -> ve_NewFiles st <> []) ->
  finishOutput cmp ext c splitKey st <> None.
Proof.
  intros Hst. unfold finishOutput.
  pose proof (emitPending_run cmp ext c splitKey st) as Hrun.
  cbv zeta in Hrun.
  destruct (emitPending cmp ext c splitKey st) as [st1 err|st3 w3];
    [discriminate |].
  destruct Hrun as (_ & _ & _ & Hnf & _).
  assert (Hne : ve_NewFiles st3 <> []).
  { rewrite Hnf. unfold newEntry. destruct (tw st).
    - rewrite app_nil_r. now apply Hst.
    - now destruct (ve_NewFiles st). }
  unfold closeOutput.
  destruct (closeErr ext w3); [discriminate |].
  destruct (metadataErr ext w3); [discriminate |].
  cbn [ve_NewFiles set_tw].
  destruct (reverse (ve_NewFiles st3)) as [|e before] eqn:Erev.
  { apply (f_equal reverse) in Erev. rewrite reverse_involutive in Erev.
    now rewrite Erev in Hne. }
  destruct (checkSmallestRangeDel cmp _ _); [discriminate |].
  destruct (checkLargestRangeDel cmp splitKey _); [discriminate |].
  destruct (checkInputBounds cmp c _); [discriminate |].
  destruct (errorOnUserKeyOverlap cmp _); discriminate.
Qed.

(** The loop does not panic, and every output of a run that ends without
    error has passed the checks of [finishOutput], whatever the keys and
    the splitter. *)
Lemma outputLoop_outcome (fuel : nat) (input : list iterEntry)
    (st : outputState) :
  tw st = None ->
  outputsChecked cmp ext c None (map nfMeta (ve_NewFiles st)) ->
  match outputLoop cmp ext lx fuel c input st with
  | RunPanicked => False
  | RunReturned st' None =>
      tw st' = None
      /\ outputsChecked cmp ext c None (map nfMeta (ve_NewFiles st'))
  | _ => True
  end.
Proof.
  revert input st. induction fuel as [|fuel IH]; intros input st Htw Hchk;
    cbn; destruct (loopCondition input st); try tauto.
  destruct (addKeys ext lx c input st) as [[input1 st1] [er|]] eqn:Ea;
    [exact I |].
  pose proof (addKeys_entry _ _ _ _ (fun Hn => False_ind _ (Hn Htw)) Ea)
    as Hentry.
  apply addKeys_finished in Ea as [Hf _].
  pose proof (finishOutput_returns
                (chooseSplitKey cmp
                   (OnNewOutput lx input st
                      match input with
                      | [] => FirstStart (pendingTombstones st)
                      | e :: _ => UserKey (ieKey e)
                      end) input1) st1 Hentry) as Hret.
  destruct (finishOutput cmp ext c _ st1) as [[st2 [er|]]|] eqn:Ef;
    [exact I | | congruence].
  apply finishOutput_checks in Ef as [Htw2 Hchk2].
  - exact (IH input1 st2 Htw2 Hchk2).
  - rewrite Hf. unfold finishedOutputs. now rewrite Htw.
Qed.
End RunReturns.

(** A call of [finishOutput] that returns no error has completed no
    output, or one output that has passed the checks against the output
    before it. *)
Lemma finishOutput_completes (cmp : Compare) (ext : externals)
    (c : compaction) (splitKey : Bytes) (st st' : outputState) :
  finishOutput cmp ext c splitKey st = Some (st', None) ->
  ve_NewFiles st' = finishedOutputs st
  \/ exists e,
       ve_NewFiles st' = finishedOutputs st ++ [e]
       /\ outputChecked cmp ext c (lastOutput st) (nfMeta e).
Proof.
  unfold finishOutput.
  destruct (emitPending cmp ext c splitKey st) as [st1 err|st3 w] eqn:E.
  - intros [= <- ->]. apply emitPending_return in E as (_ & Hnf & Htw).
    left. unfold finishedOutputs. now rewrite Htw.
  - intros Hclose. apply emitPending_continue in E as [Htw Hfin].
    destruct (closeOutput_ok cmp ext c splitKey st3 st' w Htw Hclose)
      as (e & m & _ & Hnf & Hchk).
    right. exists {| nfLevel := nfLevel e; nfMeta := m |}.
    unfold lastOutput. rewrite <- Hfin. unfold finishedOutputs at 1 2.
    rewrite Htw. split; [exact Hnf | exact Hchk].
Qed.

(** C4.  The loop of [runCompaction] that writes the outputs does not
    panic, and in every run that ends without error each output lies
    within the bounds of the compaction,
    [c.smallest <= o.smallest <= o.largest <= c.largest] on user keys.
    This holds whatever keys the iterator hands out and whatever the
    splitter answers.  When the keys come in order, no user key lies
    within the bounds of two outputs of the run, the largest key of an
    output being outside of it when it is an exclusive sentinel: after a
    sentinel the loop writes nothing below it.  The checks are those of
    [finishOutput]: a call that returns no error, in whatever state, has
    completed no output, or one output that lies within the bounds of the
    compaction and starts strictly above the largest user key of the
    output before it, unless that key is an exclusive sentinel; for an
    output that would break this the call returns an error.  The comparer
    is a total order, the bounds of the compaction are set, and [Validate]
    rejects a file whose smallest user key is above its largest. *)
Theorem runCompaction_outputs (cmp : Compare) (ext : externals)
    (lx : loopExternals) (c : compaction) (fuel : nat)
    (input : list iterEntry) (n : Z) :
  TotalOrder cmp ->
  (forall m, validateErr ext m = None ->
             cmp (UserKey (Smallest m)) (UserKey (Largest m)) <= 0) ->
  isNil (UserKey (smallest c)) = false ->
  isNil (UserKey (largest c)) = false ->
  outputLoop cmp ext lx fuel c input (startOutput n) <> RunPanicked
  /\ (forall st',
        outputLoop cmp ext lx fuel c input (startOutput n)
        = RunReturned st' None ->
        let ms := map nfMeta (ve_NewFiles st') in
        Forall (withinInputBounds cmp c) ms
        /\ (inputInOrder cmp input ->
            forall (i j : nat) (mi mj : fileMetadata) (u : Bytes),
              (i < j)%nat -> ms !! i = Some mi -> ms !! j = Some mj ->
              userKeyInBounds cmp u mi -> userKeyInBounds cmp u mj -> False))
  /\ forall (splitKey : Bytes) (st st' : outputState),
       finishOutput cmp ext c splitKey st = Some (st', None) ->
       ve_NewFiles st' = finishedOutputs st
       \/ exists e,
            ve_NewFiles st' = finishedOutputs st ++ [e]
            /\ withinInputBounds cmp c (nfMeta e)
            /\ forall p, lastOutput st = Some p ->
                 IsExclusiveSentinel (Largest p) = false ->
                 cmp (UserKey (Largest p)) (UserKey (Smallest (nfMeta e))) < 0.
Proof.
  intros Hord Hval Hs Hl.
  pose proof (outputLoop_outcome cmp ext lx c fuel input (startOutput n)
                Logic.eq_refl I) as Hout.
  split; [intros E; now rewrite E in Hout |]. split.
  - intros st' E ms. rewrite E in Hout. destruct Hout as [_ Hchk].
    pose proof (outputsChecked_within cmp ext c None _ Hord Hval Hs Hl Hchk)
      as Hwithin.
    split; [exact Hwithin |].
    intros Hio i j mi mj u. apply (outputsApart_disjoint cmp Hord None ms).
    + eapply Forall_impl; [| exact Hwithin]. intros m (_ & H & _). exact H.
    + apply (outputLoop_inv cmp ext lx c Hord fuel input (startOutput n) st'
               Hio); [reflexivity | | exact E].
      unfold loopInv. cbn. repeat split; trivial.
  - intros splitKey st st' H.
    destruct (finishOutput_completes cmp ext c splitKey st st' H)
      as [Hnone|(e & Hnf & Hchk)]; [now left |].
    right. exists e. split; [exact Hnf |].
    pose proof (outputsChecked_within cmp ext c (lastOutput st) [nfMeta e]
                  Hord Hval Hs Hl (conj Hchk I)) as Hw.
    apply Forall_cons_iff in Hw as [Hw _]. split; [exact Hw |].
    destruct Hchk as (_ & _ & Hp & _). exact Hp.
Qed.

Lemma validateBounds_sound (cmp : Compare) (m : fileMetadata) :
  validateBounds cmp m = None ->
  cmp (UserKey (Smallest m)) (UserKey (Largest m)) <= 0.
Proof.
  unfold validateBounds.
  destruct (Z.gtb_spec (InternalCompare cmp (Smallest m) (Largest m)) 0)
    as [|H]; [discriminate |].
  intros _. unfold InternalCompare in H. cbv zeta in H.
  destruct (Z.eqb_spec (cmp (UserKey (Smallest m)) (UserKey (Largest m))) 0)
    as [->|Hne]; [reflexivity | exact H].
Qed.

Lemma sampleEntries_inOrder : inputInOrder bytes_Compare sampleEntries.
Proof.
  split.
  - repeat constructor;
      try (intros [H|H]; discriminate H); vm_compute; discriminate.
  - repeat constructor; vm_compute; discriminate.
Qed.

Lemma runCompaction_outputs_witness :
  outputLoop bytes_Compare boundsValidated splitBeforeP 5 sampleBounds
    sampleEntries (startOutput 41)
  = RunReturned sampleRunState None
  /\ map boundUserKeys (map nfMeta (ve_NewFiles sampleRunState))
     = [ (Some "a", Some "p"); (Some "p", Some "t") ]
  /\ Forall (withinInputBounds bytes_Compare sampleBounds)
       (map nfMeta (ve_NewFiles sampleRunState))
  /\ forall (mi mj : fileMetadata) (u : Bytes),
       map nfMeta (ve_NewFiles sampleRunState) !! 0%nat = Some mi ->
       map nfMeta (ve_NewFiles sampleRunState) !! 1%nat = Some mj ->
       userKeyInBounds bytes_Compare u mi ->
       userKeyInBounds bytes_Compare u mj -> False.
Proof.
  assert (E : outputLoop bytes_Compare boundsValidated splitBeforeP 5
                sampleBounds sampleEntries (startOutput 41)
              = RunReturned sampleRunState None)
    by (vm_compute; reflexivity).
  split; [exact E |]. split; [vm_compute; reflexivity |].
  destruct (runCompaction_outputs bytes_Compare boundsValidated splitBeforeP
              sampleBounds 5 sampleEntries 41 bytes_Compare_TotalOrder
              (validateBounds_sound bytes_Compare)
              Logic.eq_refl Logic.eq_refl) as (_ & H & _).
  pose proof (H sampleRunState E) as H2. cbv zeta in H2.
  destruct H2 as [Hwithin Hapart].
  split; [exact Hwithin |].
  intros mi mj u.
  apply (Hapart sampleEntries_inOrder 0%nat 1%nat mi mj u). lia.
Defined.

(** * Further properties of checkpoint.go *)


Section CheckpointTables.
Variable env : ckEnv.
Variable d : DB.
Variable opt : checkpointOptions.
Variable destDir : string.

Lemma checkpointFile_trace (l : Z) (f : fileMetadata) (acc : tablesAcc)
    (s s' : ckState) (r : tablesAcc + error) :
  checkpointFile env d opt destDir l f acc s = (r, s') ->
  exists ops,
    ck_trace s' = ck_trace s ++ ops
    /\ linksIncludedTables env d opt destDir [[f]] ops.
Proof.
  unfold checkpointFile, linksIncludedTables.
  assert (Hnone : forall (x : tablesAcc + error),
            (x, s) = (r, s') ->
            exists ops,
              ck_trace s' = ck_trace s ++ ops
              /\ linksIncludedTables env d opt destDir [[f]] ops).
  { intros x [= _ <-]. exists []. split; [now rewrite app_nil_r |].
    constructor. }
  destruct (excludeFromCheckpoint f opt (db_cmp d)) eqn:Ee;
    [apply Hnone |].
  destruct (Virtual f && _); [apply Hnone |].
  destruct (objLookup env (BackingDiskFileNum f)) as [meta|err] eqn:El;
    [| apply Hnone].
  destruct (omIsRemote meta) eqn:Er; [apply Hnone |].
  unfold LinkOrCopy, mbind, CK_bind, ck_step, ck_log, ck_get, ck_setFile,
    mret, CK_ret.
  destruct (fails env (StepLinkOrCopy _ _)); [apply Hnone |].
  intros [= _ <-]. cbn. eexists. split; [reflexivity |].
  constructor; [| constructor].
  exists [f], f, meta. cbn. auto 10.
Qed.

Lemma linksIncludedTables_incl (levels levels' : list LevelSlice)
    (ops : list fsOp) :
  (forall fs f, In fs levels -> In f fs ->
                exists fs', In fs' levels' /\ In f fs') ->
  linksIncludedTables env d opt destDir levels ops ->
  linksIncludedTables env d opt destDir levels' ops.
Proof.
  intros Hsub. unfold linksIncludedTables. apply Forall_impl.
  intros op (fs & f & meta & Hfs & Hf & Hrest).
  destruct (Hsub fs f Hfs Hf) as (fs' & Hfs' & Hf').
  exists fs', f, meta. auto.
Qed.

Lemma checkpointLevel_trace (l : Z) (fs : LevelSlice) :
  forall (acc : tablesAcc) (s s' : ckState) (r : tablesAcc + error),
  checkpointLevel env d opt destDir l fs acc s = (r, s') ->
  exists ops,
    ck_trace s' = ck_trace s ++ ops
    /\ linksIncludedTables env d opt destDir [fs] ops.
Proof.
  induction fs as [|f fs IH]; intros acc s s' r H; cbn [checkpointLevel] in H.
  - injection H as _ <-. exists []. split; [now rewrite app_nil_r |].
    constructor.
  - unfold mbind, CK_bind in H.
    destruct (checkpointFile env d opt destDir l f acc s) as [r1 s1] eqn:E1.
    apply checkpointFile_trace in E1 as (ops1 & Ht1 & Hl1).
    assert (Hl1' : linksIncludedTables env d opt destDir [f :: fs] ops1).
    { revert Hl1. apply linksIncludedTables_incl.
      intros fs0 f0 [<-|[]] [<-|[]]. exists (f :: fs). cbn. auto. }
    destruct r1 as [acc1|e].
    + apply IH in H as (ops2 & Ht2 & Hl2).
      exists (ops1 ++ ops2). split; [now rewrite Ht2, Ht1, app_assoc |].
      apply Forall_app. split; [exact Hl1' |].
      revert Hl2. apply linksIncludedTables_incl.
      intros fs0 f0 [<-|[]] Hf0. exists (f :: fs). cbn. auto.
    + injection H as _ <-. exists ops1. split; [exact Ht1 | exact Hl1'].
Qed.

(** The loop of [Checkpoint] over the sstables, however it ends, has
    added to the trace only links or copies of sstables of the version
    that the spans do not exclude and that are not remote, each to its
    base name in the destination: an excluded or remote sstable is never
    linked or copied. *)
Theorem checkpointLevels_links (levels : list LevelSlice) :
  forall (l : Z) (acc : tablesAcc) (s s' : ckState) (r : tablesAcc + error),
  checkpointLevels env d opt destDir l levels acc s = (r, s') ->
  exists ops,
    ck_trace s' = ck_trace s ++ ops
    /\ linksIncludedTables env d opt destDir levels ops.
Proof.
  induction levels as [|fs levels IH]; intros l acc s s' r H;
    cbn [checkpointLevels] in H.
  - injection H as _ <-. exists []. split; [now rewrite app_nil_r |].
    constructor.
  - unfold mbind, CK_bind in H.
    destruct (checkpointLevel env d opt destDir l fs acc s) as [r1 s1] eqn:E1.
    apply checkpointLevel_trace in E1 as (ops1 & Ht1 & Hl1).
    assert (Hl1' : linksIncludedTables env d opt destDir (fs :: levels) ops1).
    { revert Hl1. apply linksIncludedTables_incl.
      intros fs0 f0 [<-|[]] Hf0. exists fs. cbn. auto. }
    destruct r1 as [acc1|e].
    + apply IH in H as (ops2 & Ht2 & Hl2).
      exists (ops1 ++ ops2). split; [now rewrite Ht2, Ht1, app_assoc |].
      apply Forall_app. split; [exact Hl1' |].
      revert Hl2. apply linksIncludedTables_incl.
      intros fs0 f0 Hfs0 Hf0. exists fs0. cbn. auto.
    + injection H as _ <-. exists ops1. split; [exact Ht1 | exact Hl1'].
Qed.
End CheckpointTables.

Lemma checkpointLevels_links_witness :
  exists ops,
    ck_trace (snd sampleTables) = ck_trace sampleFSTables ++ ops
    /\ linksIncludedTables sampleEnv sampleDB
         (checkpointOptionsOf restrictToAD) "ckpt"
         (currentVersion_Levels sampleDB) ops.
Proof.
  apply (checkpointLevels_links sampleEnv sampleDB
           (checkpointOptionsOf restrictToAD) "ckpt"
           (currentVersion_Levels sampleDB) 0 noTables sampleFSTables
           (snd sampleTables) (fst sampleTables)).
  unfold sampleTables. now destruct (checkpointLevels _ _ _ _ _ _ _ _).
Defined.

Section UnrestrictedCheckpoint.
Variable env : ckEnv.

(** [excludeFromCheckpoint] excludes a file exactly when spans are given
    and the file overlaps none of them. *)
Lemma excludeFromCheckpoint_iff (f : fileMetadata) (opt : checkpointOptions)
    (cmp : Compare) :
  excludeFromCheckpoint f opt cmp = true
  <-> restrictToSpans opt <> []
      /\ forall s, In s (restrictToSpans opt) ->
           FileOverlaps cmp f
             (UserKeyBoundsEndExclusive (csStart s) (csEnd s)) = false.
Proof.
  unfold excludeFromCheckpoint.
  destruct (restrictToSpans opt) as [|s0 spans] eqn:E.
  - cbn. split; [discriminate | intros [H _]; contradiction].
  - cbn [length Nat.eqb]. rewrite negb_true_iff.
    split.
    + intros H. split; [discriminate |]. intros s Hs.
      destruct (FileOverlaps cmp f _) eqn:Eo; [| reflexivity].
      assert (Hex : existsb
                      (fun s => FileOverlaps cmp f
                                  (UserKeyBoundsEndExclusive (csStart s)
                                     (csEnd s))) (s0 :: spans) = true)
        by (apply existsb_exists; eauto).
      congruence.
    + intros [_ H]. destruct (existsb _ _) eqn:Ex; [| reflexivity].
      apply existsb_exists in Ex as (s & Hs & Ho). rewrite (H s Hs) in Ho.
      discriminate.
Qed.

(** A checkpoint that is not restricted to spans excludes no sstable: the
    loop over the sstables leaves [excludedFiles] empty and the manifest
    that [writeCheckpointManifest] then writes holds the records copied
    from the source manifest and nothing else. *)
Theorem unrestricted_checkpoint_manifest (d : DB) (opt : checkpointOptions)
    (destDir : string) (s0 s s' : ckState) (acc : tablesAcc)
    (removed : list Z) :
  restrictToSpans opt = [] ->
  checkpointLevels env d opt destDir 0 (currentVersion_Levels d) noTables s0
  = (inl acc, s) ->
  writeCheckpointManifest env d destDir (manifestFileNum d) (manifestSize d)
    (excludedFiles acc) removed s = (inl tt, s') ->
  excludedFiles acc = ∅
  /\ ck_fs s'
     !! PathJoin destDir
          (PathBase env
             (MakeFilepath env (dirname d) fileTypeManifest
                (manifestFileNum d)))
     = Some (File (recordsUpTo (manifestSize d) (manifest d))).
Proof.
  intros Hspans Hloop Hw.
  apply checkpointLevels_acc in Hloop as (_ & Hex & _).
  assert (Hempty : excludedFiles acc = ∅).
  { apply map_empty. intros k.
    destruct (excludedFiles acc !! k) as [f|] eqn:E; [| reflexivity].
    apply Hex in E as [E|(i & fs & _ & _ & He & _)].
    - cbn in E. now rewrite lookup_empty in E.
    - apply excludeFromCheckpoint_iff in He as [Hne _]. contradiction. }
  split; [exact Hempty |].
  apply writeCheckpointManifest_ok in Hw as [Hfs _]. cbv zeta in Hfs.
  rewrite Hfs, Hempty, lookup_insert_eq. cbn. now rewrite app_nil_r.
Qed.
End UnrestrictedCheckpoint.

Lemma unrestricted_checkpoint_manifest_witness :
  exists s',
    writeCheckpointManifest sampleEnv sampleDB "ckpt" 1 22
      (excludedFiles (tablesOf sampleTablesAll)) [] (snd sampleTablesAll)
    = (inl tt, s')
    /\ excludedFiles (tablesOf sampleTablesAll) = ∅
    /\ ck_fs s' !! "ckpt/MANIFEST-1"
       = Some (File [ Raw "edit-1"; Raw "edit-2" ]).
Proof.
  eexists. split; [vm_compute; reflexivity |].
  apply (unrestricted_checkpoint_manifest sampleEnv sampleDB
           (checkpointOptionsOf []) "ckpt" sampleFSTables
           (snd sampleTablesAll) _ (tablesOf sampleTablesAll) []);
    [reflexivity | vm_compute; reflexivity | vm_compute; reflexivity].
Defined.
